(** * jobband_scrapper: the incremental crawl-and-merge engine

    A shallow embedding of the parts of the four scrapers (jobup, jobroom,
    talent, ge) that decide how listings are merged, filtered, crawled and
    remembered across runs, followed by the properties proved about them.

    Layout: Python data (strings, values, records, the object store), the
    language filters, the date window, [merge_jobs_by_url], the pagination
    controllers, the end of [main]; then the lemmas. *)

From Stdlib Require Import ZArith NArith Lia Ascii String Decimal.
From stdpp Require Import base numbers option list gmap strings sorting fin_sets.

Local Open Scope Z_scope.
Local Set Warnings "-register-all".

(** ** Python strings

    A Python [str] is a sequence of Unicode code points. String literals of
    the sources are written as UTF-8 text and decoded by [utf8]. *)

Abbreviation str := (list N).

Fixpoint utf8 (s : string) : str :=
  match s with
  | EmptyString => []
  | String a s1 =>
    let x := N_of_ascii a in
    if (x <? 128)%N then x :: utf8 s1 else
    match s1 with
    | EmptyString => []
    | String b s2 =>
      let y := (N_of_ascii b - 128)%N in
      if (x <? 224)%N then ((x - 192) * 64 + y)%N :: utf8 s2 else
      match s2 with
      | EmptyString => []
      | String c s3 =>
        let z := (N_of_ascii c - 128)%N in
        if (x <? 240)%N then ((x - 224) * 4096 + y * 64 + z)%N :: utf8 s3 else
        match s3 with
        | EmptyString => []
        | String d s4 =>
          let w := (N_of_ascii d - 128)%N in
          ((x - 240) * 262144 + y * 4096 + z * 64 + w)%N :: utf8 s4
        end
      end
    end
  end.

(** [str.isspace] on one code point: the characters [str.strip()] removes. *)
Definition isspace (c : N) : bool :=
  ((9 <=? c) && (c <=? 13) || (28 <=? c) && (c <=? 32)
   || (c =? 0x85) || (c =? 0xA0) || (c =? 0x1680)
   || (0x2000 <=? c) && (c <=? 0x200A)
   || (c =? 0x2028) || (c =? 0x2029) || (c =? 0x202F)
   || (c =? 0x205F) || (c =? 0x3000))%N.

Fixpoint lstrip (s : str) : str :=
  match s with
  | [] => []
  | c :: s' => if isspace c then lstrip s' else s
  end.

(** [s.strip()] *)
Definition strip (s : str) : str := reverse (lstrip (reverse (lstrip s))).

(** [str.lower] on one code point. The table covers Basic Latin, Latin-1
    Supplement and every code point beyond them whose lowercase form contains
    a character of one of the token classes below (U+0130, U+0152, U+0178,
    U+212A); the other code points are kept, and none of them falls in a token
    class before or after lowering. *)
Definition lower_cp (c : N) : str :=
  (if (65 <=? c) && (c <=? 90) then [c + 32]
   else if (192 <=? c) && (c <=? 222) && negb (c =? 215) then [c + 32]
   else if c =? 0x130 then [0x69; 0x307]
   else if c =? 0x152 then [0x153]
   else if c =? 0x178 then [0xFF]
   else if c =? 0x212A then [0x6B]
   else [c])%N.

(** [s.lower()] *)
Definition lower (s : str) : str := concat (map lower_cp s).

Fixpoint digits (u : Decimal.uint) : str :=
  match u with
  | Nil => []
  | D0 u => 48%N :: digits u
  | D1 u => 49%N :: digits u
  | D2 u => 50%N :: digits u
  | D3 u => 51%N :: digits u
  | D4 u => 52%N :: digits u
  | D5 u => 53%N :: digits u
  | D6 u => 54%N :: digits u
  | D7 u => 55%N :: digits u
  | D8 u => 56%N :: digits u
  | D9 u => 57%N :: digits u
  end.

(** [str(n)] for an [int] *)
Definition str_of_int (z : Z) : str :=
  match z with
  | Z0 => utf8 "0"
  | Zpos p => digits (Pos.to_uint p)
  | Zneg p => utf8 "-" ++ digits (Pos.to_uint p)
  end.

(** ** Python values

    What [json.loads] and the extractors can put in a record. [VList] keeps
    its items (jobroom's [language_codes] is inspected item by item); the text
    [str()] gives for a list, and for the values the scrapers never look into
    (floats, nested objects: [VOther]), is carried along with the value, as is
    the truth value of a [VOther]. *)
Inductive value :=
| VNone
| VBool (b : bool)
| VInt (z : Z)
| VStr (s : str)
| VList (items : list value) (repr : str)
| VOther (is_true : bool) (repr : str).

(** [bool(v)] *)
Definition truthy (v : value) : bool :=
  match v with
  | VNone => false
  | VBool b => b
  | VInt z => negb (z =? 0)
  | VStr s => negb (bool_decide (s = []))
  | VList items _ => negb (bool_decide (items = []))
  | VOther t _ => t
  end.

(** [v or d] *)
Definition py_or (v d : value) : value := if truthy v then v else d.

(** [str(v)] *)
Definition py_str (v : value) : str :=
  match v with
  | VNone => utf8 "None"
  | VBool true => utf8 "True"
  | VBool false => utf8 "False"
  | VInt z => str_of_int z
  | VStr s => s
  | VList _ r => r
  | VOther _ r => r
  end.

(** [isinstance(v, int)], with the integer when it holds. [bool] is a subclass
    of [int] in Python: [True] counts as 1 and [False] as 0. *)
Definition as_int (v : value) : option Z :=
  match v with
  | VInt z => Some z
  | VBool b => Some (Z.b2z b)
  | _ => None
  end.

Definition is_int (v : value) : bool := bool_decide (is_Some (as_int v)).

(** A record is a [dict] with string keys. *)
Abbreviation record := (gmap string value).

(** [row.get(k)] *)
Definition get (row : record) (k : string) : value := default VNone (row !! k).

(** [str(row.get("url") or "").strip()], the key every scraper derives. *)
Definition url_key (row : record) : str :=
  strip (py_str (py_or (get row "url") (VStr []))).

(** ** The language filters *)

(** Maximal runs of characters of a class, left to right; [cur] is the run
    being read, most recent character first. *)
Fixpoint runs (cls : N → bool) (s : str) (cur : str) : list str :=
  match s with
  | [] => [reverse cur]
  | c :: s' =>
    if cls c then runs cls s' (c :: cur) else reverse cur :: runs cls s' []
  end.

(** [re.findall(r"[cls]{3,}", s)]: the quantifier is greedy, so a match is a
    whole maximal run, and runs shorter than three characters match nowhere. *)
Definition findall_3 (cls : N → bool) (s : str) : list str :=
  filter (λ t, (3 ≤ length t)%nat) (runs cls s []).

(** [len(tokens & hints)] for a duplicate-free [hints]. *)
Definition overlap (tokens hints : list str) : nat :=
  length (filter (λ h, h ∈ tokens) hints).

(** [f"{title or ''} {description or ''}".lower()] *)
Definition lang_text (title description : value) : str :=
  lower (py_str (py_or title (VStr [])) ++ utf8 " "
         ++ py_str (py_or description (VStr []))).

(** ** Exceptions

    A call either returns or raises; what the scrapers do not catch ends the
    run. *)
Inductive exn := TypeError | RequestException | ValueError | OverflowError.

Inductive outcome (A : Type) :=
| Returns (a : A)
| Raises (e : exn).
Arguments Returns {A} a.
Arguments Raises {A} e.

#[global] Instance outcome_ret : MRet outcome := λ A a, Returns a.
#[global] Instance outcome_bind : MBind outcome := λ A B f m,
  match m with
  | Returns a => f a
  | Raises e => Raises e
  end.

(** ** The date window

    [date.today()] and [datetime.fromisoformat(s).date()] come from the
    standard library: a day is counted as its proleptic ordinal, and the
    parser answers [None] where Python raises [ValueError]. *)
Section window.
Variable today : Z.
Variable fromisoformat : str → option Z.

(** [within_days(posting_date, max_days)], the same in the four scrapers.
    The signature asks for a [str] or [None]; [fromisoformat] raises
    [TypeError] on anything else that is not falsy. *)
Definition within_days (posting_date : value) (max_days : option Z)
  : outcome bool :=
  match max_days with
  | None => Returns true
  | Some max_days =>
    if negb (truthy posting_date) then Returns false else
    match posting_date with
    | VStr s =>
      match fromisoformat s with
      | None => Returns false
      | Some day =>
        let age := today - day in
        Returns ((0 <=? age) && (age <=? max_days))
      end
    | _ => Raises TypeError
    end
  end.

(** [[row for row in rows if within_days(row.get("posting_date"), max_days)]] *)
Fixpoint filter_within (rows : list record) (max_days : option Z)
  : outcome (list record) :=
  match rows with
  | [] => Returns []
  | row :: rows' =>
    ok ← within_days (get row "posting_date") max_days;
    rest ← filter_within rows' max_days;
    Returns (if ok : bool then row :: rest else rest)
  end.

End window.

(** ** [_clean_text]

    The same in jobup, talent and ge, up to the default [limit] (800, 1600,
    1600). [html.unescape] comes from the standard library. *)

(** [re.sub(r"\s+", " ", s)]: every maximal run of whitespace becomes one
    space ([\s] on [str] is the class of [str.isspace]); [in_run] says that
    the character before was whitespace. *)
Fixpoint sub_spaces (in_run : bool) (s : str) : str :=
  match s with
  | [] => []
  | c :: s' =>
    if isspace c then
      if in_run then sub_spaces true s' else 32%N :: sub_spaces true s'
    else c :: sub_spaces false s'
  end.

(** [s[:limit]]: a negative [limit] counts from the end. *)
Definition slice_to (limit : Z) (s : str) : str :=
  if 0 <=? limit then take (Z.to_nat limit) s
  else take (length s - Z.to_nat (- limit)) s.

Section clean_text.
Variable unescape : str → str.

(** [unescape] and [re.sub] raise [TypeError] on a value that is neither
    falsy nor a [str]. *)
Definition _clean_text : value → Z → outcome value := λ value limit,
  if negb (truthy value) then Returns VNone else
  match value with
  | VStr s =>
    let s := strip (sub_spaces false (unescape s)) in
    if bool_decide (s = []) then Returns VNone
    else Returns (VStr (slice_to limit s))
  | _ => Raises TypeError
  end.

End clean_text.

(** ** The object store

    Records are mutable [dict] objects shared between the lists that hold
    them: a list of records is a list of references into a store, and
    [row["id"] = v] updates the store. A reference the store has no entry for
    reads as the empty [dict]. *)
Abbreviation heap := (gmap nat record).

(** [row[k] = v] *)
Definition setitem (h : heap) (row : nat) (k : string) (v : value) : heap :=
  <[row := <[k := v]> (h !!! row)]> h.

(** [row.setdefault(k, v)] *)
Definition setdefault (h : heap) (row : nat) (k : string) (v : value) : heap :=
  match (h !!! row) !! k with
  | Some _ => h
  | None => setitem h row k v
  end.

(** [bool(d)] for a [dict] *)
Definition nonempty (row : record) : bool := negb (bool_decide (size row = 0%nat)).

(** ** [merged: dict[str, dict]]

    A Python [dict] keeps its keys in insertion order, and assigning to a key
    it already has keeps that key's place. *)
Abbreviation dict := (list (str * nat)).

Fixpoint dict_get (d : dict) (k : str) : option nat :=
  match d with
  | [] => None
  | (k', v) :: d' => if decide (k' = k) then Some v else dict_get d' k
  end.

Fixpoint dict_set (d : dict) (k : str) (v : nat) : dict :=
  match d with
  | [] => [(k, v)]
  | (k', v') :: d' =>
    if decide (k' = k) then (k', v) :: d' else (k', v') :: dict_set d' k v
  end.

Definition dict_values (d : dict) : list nat := d.*2.

(** ** [list.sort(key=..., reverse=True)]

    Python's sort is stable, also in reverse: records with equal keys keep
    their order. Each element is put before the first one with a strictly
    smaller key. *)
Section sort.
Variable key : nat → Z.

Fixpoint insert_desc (x : nat) (l : list nat) : list nat :=
  match l with
  | [] => [x]
  | y :: l' => if key y <? key x then x :: l else y :: insert_desc x l'
  end.

Definition sort_desc (l : list nat) : list nat :=
  foldl (λ acc x, insert_desc x acc) [] l.

End sort.

(** ** [merge_jobs_by_url]

    The four scrapers carry the same function, up to two points: talent's
    skips the rows its language gate rejects ([keep]), and jobup's does not
    give a default ["source"] ([source]). *)
Section merge.
Variable keep : record → bool.
Variable source : option str.

(** First loop: the highest integer id of [current]. *)
Definition raise_max_id (h : heap) (max_id : Z) (row : nat) : Z :=
  match as_int (get (h !!! row) "id") with
  | Some raw_id => if max_id <? raw_id then raw_id else max_id
  | None => max_id
  end.

(** Second loop: [merged[url] = row] for the rows of [current]. *)
Definition seed (h : heap) (merged : dict) (row : nat) : dict :=
  let url := url_key (h !!! row) in
  if bool_decide (url = []) then merged
  else if negb (keep (h !!! row)) then merged
  else dict_set merged url row.

Record merge_state := MergeState {
  st_heap : heap;
  st_merged : dict;
  st_max_id : Z
}.

(** Third loop: the rows of [fresh]. *)
Definition overlay (st : merge_state) (row : nat) : merge_state :=
  let h := st_heap st in
  let url := url_key (h !!! row) in
  if bool_decide (url = []) then st
  else if negb (keep (h !!! row)) then st
  else
    let merged := dict_set (st_merged st) url row in
    let next_id :=
      MergeState (setitem h row "id" (VInt (st_max_id st + 1)))
                 merged (st_max_id st + 1) in
    match dict_get (st_merged st) url with
    | Some existing =>
      if nonempty (h !!! existing) && is_int (get (h !!! existing) "id")
      then MergeState (setitem h row "id" (get (h !!! existing) "id"))
                      merged (st_max_id st)
      else next_id
    | None => next_id
    end.

(** Fourth loop, over [merged.values()]: the default source, and an id for
    the rows still without one. *)
Definition backfill (st : heap * Z) (row : nat) : heap * Z :=
  let h := match source with
           | Some s => setdefault st.1 row "source" (VStr s)
           | None => st.1
           end in
  if is_int (get (h !!! row) "id") then (h, st.2)
  else (setitem h row "id" (VInt (st.2 + 1)), st.2 + 1).

(** [int(r.get("id")) if isinstance(r.get("id"), int) else 0] *)
Definition sort_key (h : heap) (row : nat) : Z :=
  default 0 (as_int (get (h !!! row) "id")).

(** The state before the last loop. *)
Definition merge_overlay (h : heap) (current fresh : list nat) : merge_state :=
  let max_id := foldl (raise_max_id h) 0 current in
  let merged := foldl (seed h) [] current in
  foldl overlay (MergeState h merged max_id) fresh.

(** The store after the call, and the list returned. *)
Definition merge_jobs_by_url (h : heap) (current fresh : list nat)
  : heap * list nat :=
  let st := merge_overlay h current fresh in
  let values := dict_values (st_merged st) in
  let h' := (foldl backfill (st_heap st, st_max_id st) values).1 in
  (h', sort_desc (sort_key h') values).

End merge.

(** A store holding the given records, one object each, in order. *)
Definition store_of (rows : list record) : heap :=
  list_to_map (imap (λ i row, (i, row)) rows).

(** The records a list of references stands for. *)
Definition values (h : heap) (rows : list nat) : list record :=
  (λ row, h !!! row) <$> rows.

(** ** Search pages

    The network is outside the program: a run is given the answer to every
    request it may send. The body of a search page enters the controllers only
    through the three things they ask of it. *)
Record html := Html {
  html_nonempty : bool;          (* [bool(html)]: the text is not empty *)
  total_pages_of : option Z;     (* what [extract_total_pages] finds *)
  detail_links_of : option (list str)
    (* what [extract_detail_links] finds; [None] where [urljoin] raises
       [ValueError] on an [href] of the page *)
}.

(** [html = ""] *)
Definition no_html : html := Html false None (Some []).

(** Both extractors find nothing in the empty text. *)
Definition extract_total_pages (page : html) : option Z :=
  if html_nonempty page then total_pages_of page else None.

Definition extract_detail_links (page : html) : outcome (list str) :=
  if html_nonempty page then
    match detail_links_of page with
    | Some links => Returns links
    | None => Raises ValueError
    end
  else Returns [].

(** What [session.get] does: it raises a [requests.RequestException], or
    returns a response with a status code and a body. *)
Inductive response (body : Type) :=
| ConnectionFailed
| Response (status_code : Z) (text : body).
Arguments ConnectionFailed {body}.
Arguments Response {body} status_code text.

(** [r = session.get(url); r.raise_for_status(); r.text]: a status from 400
    to 599 raises [requests.HTTPError], a [RequestException]. *)
Definition get_or_raise {body} (r : response body) : outcome body :=
  match r with
  | ConnectionFailed => Raises RequestException
  | Response status_code text =>
    if (400 <=? status_code) && (status_code <? 600)
    then Raises RequestException else Returns text
  end.

(** The pagination cursor of the HTML scrapers, and the pages requested so
    far (most recent last), which the sources do not store but the network
    sees. [failed] is the exception that ended the loops, if one did: the
    variables are then as they stood when it was raised. The loops of jobup
    set it; the crawl of talent reports what it raises through its
    outcome. *)
Record cursor := Cursor {
  links : list str;
  seen_links : gset str;
  known_streak : Z;
  requested : list Z;
  failed : option exn
}.

Definition request (page : Z) (c : cursor) : cursor :=
  Cursor (links c) (seen_links c) (known_streak c) (requested c ++ [page])
         (failed c).

(** [seen_links.add(link); links.append(link)] *)
Definition collect (link : str) (c : cursor) : cursor :=
  Cursor (links c ++ [link]) ({[link]} ∪ seen_links c)
         (known_streak c) (requested c) (failed c).

Definition set_streak (n : Z) (c : cursor) : cursor :=
  Cursor (links c) (seen_links c) n (requested c) (failed c).

(** An exception leaves the loops. *)
Definition fail (e : exn) (c : cursor) : cursor :=
  Cursor (links c) (seen_links c) (known_streak c) (requested c) (Some e).

(** The loop over the links of page 1 (jobup, talent). *)
Fixpoint scan_page1 (page1_links : list str) (c : cursor) : cursor :=
  match page1_links with
  | [] => c
  | link :: rest =>
    if bool_decide (link ∈ seen_links c) then scan_page1 rest c
    else scan_page1 rest (collect link c)
  end.

(** [for link in page_links] on the pages after the first (jobup, talent):
    a link already collected in this run is passed over; a known link
    lengthens the streak and a new one ends it. *)
Fixpoint scan_links (stop_after_seen : Z) (known : gset str)
    (page_links : list str) (c : cursor) : cursor :=
  match page_links with
  | [] => c
  | link :: rest =>
    if bool_decide (link ∈ seen_links c)
    then scan_links stop_after_seen known rest c else
    let c := collect link c in
    if 0 <? stop_after_seen then
      if bool_decide (link ∈ known) then
        let c := set_streak (known_streak c + 1) c in
        if stop_after_seen <=? known_streak c then c
        else scan_links stop_after_seen known rest c
      else scan_links stop_after_seen known rest (set_streak 0 c)
    else scan_links stop_after_seen known rest c
  end.

(** [args.stop_after_seen > 0 and known_streak >= args.stop_after_seen] *)
Definition streak_reached (stop_after_seen : Z) (streak : Z) : bool :=
  (0 <? stop_after_seen) && (stop_after_seen <=? streak).

(** [range(a, b)] *)
Definition range (a b : Z) : list Z := seqZ a (b - a).

(** The URLs of a list of loaded records:
    [{str(j.get("url") or "").strip() for j in jobs
      if str(j.get("url") or "").strip()}] *)
Definition url_set (jobs : list record) : gset str :=
  list_to_set (filter (λ url, url ≠ []) (url_key <$> jobs)).

(** [{str(u).strip() for u in state_urls if str(u).strip()}] when
    [state.get("seen_urls")] is a list, nothing otherwise. *)
Definition state_seen_urls (state : record) : gset str :=
  match get state "seen_urls" with
  | VList items _ =>
    list_to_set (filter (λ url, url ≠ []) ((λ u, strip (py_str u)) <$> items))
  | _ => ∅
  end.

(** [known_urls], as every [main] loads it: the URLs of the output dataset
    and those of the state file written by the run before. *)
Definition load_known_urls (existing_jobs : list record) (auto_state : record)
  : gset str :=
  url_set existing_jobs ∪ state_seen_urls auto_state.

(** [args.days if args.days and args.days > 0 else None] *)
Definition max_days_of (days : Z) : option Z :=
  if 0 <? days then Some days else None.

(** [detail_links[: args.max_jobs]] when [args.max_jobs > 0] *)
Definition limit_jobs {A} (max_jobs : Z) (l : list A) : list A :=
  if 0 <? max_jobs then take (Z.to_nat max_jobs) l else l.

(** The files a run has written when it ends, [None] for a file it did not
    write, and the exception that ended it, if one did. The state file is
    given by its ["seen_urls"], a sorted list of distinct strings, that is,
    a set. *)
Record written := Written {
  state_file : option (gset str);
  output_json : option (list record);
  raised : option exn
}.

(** [save_json(output_json, rows)] as the last step of a run whose state file
    holds [seen_now]. *)
Definition save_output (seen_now : option (gset str))
    (rows : outcome (list record)) : written :=
  match rows with
  | Returns rows => Written seen_now (Some rows) None
  | Raises e => Written seen_now None (Some e)
  end.

Module Jobup.

Definition merge_jobs_by_url := merge_jobs_by_url (λ _, true) None.

Record args := Args {
  max_pages : Z;
  max_jobs : Z;
  days : Z;
  incremental : bool;
  stop_after_seen : Z
}.

(** The base page: a failure or an error status leaves [html = ""]. *)
Definition fetch_base_page (r : response html) : html :=
  match r with
  | ConnectionFailed => no_html
  | Response status_code text =>
    if bool_decide (status_code = 403 ∨ status_code = 429) then no_html
    else if 400 <=? status_code then no_html
    else text
  end.

(** [fetch_search_page]: the text and [should_stop]. *)
Definition fetch_search_page (r : response html) : option html * bool :=
  match r with
  | ConnectionFailed => (None, true)
  | Response status_code text =>
    if bool_decide (status_code = 403 ∨ status_code = 429) then (None, true)
    else if 400 <=? status_code then (None, true)
    else (Some text, false)
  end.

(** [fetch_detail]: the fields read from the detail page, under the URL it
    was asked for. *)
Definition fetch_detail (detail : str → option record) (url : str)
  : option record :=
  (λ fields, <["url" := VStr url]> fields) <$> detail url.

Section main.
Variable today : Z.
Variable fromisoformat : str → option Z.
Variable a : args.
(** The files read: the output dataset, its state file, and, in the legacy
    incremental mode, the master file and its state file. *)
Variable existing_jobs : list record.
Variable auto_state : record.
Variable master_jobs_file : list record.
Variable state : record.
(** The network: the search pages by number, the detail pages by URL
    ([None] where [fetch_detail] raises). *)
Variable search : Z → response html.
Variable detail : str → option record.

Definition known_urls : gset str := load_known_urls existing_jobs auto_state.

Definition master_jobs : list record :=
  if incremental a then master_jobs_file else [].

Definition known_urls_state : gset str :=
  if incremental a then url_set master_jobs ∪ state_seen_urls state else ∅.

Definition combined_known : gset str := known_urls ∪ known_urls_state.

(** [for page in ...] of either branch; [stop_on_empty] is the test
    [if not page_links: break], which only the dynamic branch has. *)
Fixpoint paginate (stop_on_empty : bool) (pages : list Z) (c : cursor)
  : cursor :=
  match pages with
  | [] => c
  | page :: rest =>
    let c := request page c in
    match fetch_search_page (search page) with
    | (_, true) => c
    | (None, false) => c
    | (Some page_html, false) =>
      if negb (html_nonempty page_html) then c else
      match extract_detail_links page_html with
      | Raises e => fail e c
      | Returns page_links =>
        if stop_on_empty && bool_decide (page_links = []) then c else
        let c := scan_links (stop_after_seen a) combined_known page_links c in
        if streak_reached (stop_after_seen a) (known_streak c) then c
        else paginate stop_on_empty rest c
      end
    end
  end.

(** [total_pages], after [min(total_pages, args.max_pages)] *)
Definition total_pages (html : html) : option Z :=
  match extract_total_pages html with
  | Some total =>
    Some (if 0 <? max_pages a then total `min` max_pages a else total)
  | None => None
  end.

(** From the request of the base page to [unique_links]. *)
Definition crawl : cursor :=
  let html := fetch_base_page (search 1) in
  match extract_detail_links html with
  | Raises e => Cursor [] ∅ 0 [1] (Some e)
  | Returns page1_links =>
    let c := scan_page1 page1_links (Cursor [] ∅ 0 [1] None) in
    match total_pages html with
    | Some total_pages => paginate false (range 2 (total_pages + 1)) c
    | None =>
      let max_dynamic_pages :=
        if 0 <? max_pages a then max_pages a else 200 in
      paginate true (range 2 (max_dynamic_pages + 1)) c
    end
  end.

(** [fetched_jobs], from the links not in [known_urls]. *)
Definition fetch_jobs (unique_links : list str) : list record :=
  let detail_links := filter (λ u, u ∉ known_urls) unique_links in
  omap (fetch_detail detail) (limit_jobs (max_jobs a) detail_links).

(** [base_jobs]: the store after the merges and the list returned. The
    records loaded and fetched are distinct objects. In the legacy mode the
    master file and its state file are written between the two merges. *)
Definition merge_all (fetched_jobs : list record) : heap * list nat :=
  let h := store_of (existing_jobs ++ master_jobs ++ fetched_jobs) in
  let n1 := length existing_jobs in
  let n2 := length master_jobs in
  let existing := seq 0 n1 in
  let master := seq n1 n2 in
  let fetched := seq (n1 + n2) (length fetched_jobs) in
  if incremental a then
    let merged_master := merge_jobs_by_url h master fetched in
    merge_jobs_by_url merged_master.1 existing merged_master.2
  else merge_jobs_by_url h existing fetched.

(** The end of [main]: the state file, then the filtered dataset. *)
Definition persist (unique_links : list str) (fetched_jobs : list record)
  : written :=
  let merged := merge_all fetched_jobs in
  let base_jobs := values merged.1 merged.2 in
  let seen_now :=
    known_urls ∪ list_to_set unique_links ∪ url_set base_jobs in
  save_output (Some seen_now)
    (filter_within today fromisoformat base_jobs (max_days_of (days a))).

(** An exception of the crawl leaves [main] before anything is written. *)
Definition main : written :=
  match failed crawl with
  | Some e => Written None None (Some e)
  | None =>
    let unique_links := links crawl in
    persist unique_links (fetch_jobs unique_links)
  end.

End main.

End Jobup.

Module Talent.

Definition FR_HINTS : list str := map utf8
  ["avec"; "pour"; "poste"; "vous"; "nous"; "experience"; "expérience";
   "equipe"; "équipe"; "mission"; "competences"; "compétences";
   "formation"; "travail"; "emploi"; "profil"; "francais"; "français";
   "responsable"; "gestion"; "assurer"; "recherche"; "candidat"]%string.
Definition EN_HINTS : list str := map utf8
  ["with"; "for"; "you"; "team"; "experience"; "job"; "position"; "skills";
   "work"; "english"; "required"]%string.
Definition DE_HINTS : list str := map utf8
  ["mit"; "für"; "sie"; "erfahrung"; "stelle"; "aufgaben"; "kenntnisse";
   "arbeit"; "deutsch"]%string.
Definition IT_HINTS : list str := map utf8
  ["con"; "per"; "lavoro"; "posizione"; "esperienza"; "richiesto";
   "competenze"; "squadra"]%string.

(** The class [[a-zàâçéèêëîïôûùüÿñæœ]] *)
Definition alpha (c : N) : bool :=
  ((97 <=? c) && (c <=? 122))%N
  || bool_decide (c ∈ utf8 "àâçéèêëîïôûùüÿñæœ").

Definition tokens (title description : value) : list str :=
  findall_3 alpha (lang_text title description).

Definition _is_allowed_language (title description : value) : bool :=
  let tokens := tokens title description in
  let fr := overlap tokens FR_HINTS in
  let en := overlap tokens EN_HINTS in
  let de := overlap tokens DE_HINTS in
  let it := overlap tokens IT_HINTS in
  ((2 <=? fr)%nat || (2 <=? en)%nat)
  && (de `max` it <=? fr `max` en)%nat.

(** A row passes unless
    [filter_lang and not _is_allowed_language(row.get("title"),
    row.get("description"))]. *)
Definition keep (filter_lang : bool) (row : record) : bool :=
  negb (filter_lang
        && negb (_is_allowed_language (get row "title")
                                      (get row "description"))).

(** [filter_lang] is [True] when the caller does not give it. *)
Definition merge_jobs_by_url (h : heap) (current fresh : list nat)
    (filter_lang : bool) : heap * list nat :=
  merge_jobs_by_url (keep filter_lang) (Some (utf8 "talent")) h current fresh.

Record args := Args {
  max_pages : Z;
  max_jobs : Z;
  days : Z;
  stop_after_seen : Z;
  allow_non_french : bool
}.

Definition fetch_detail (detail : str → option record) (url : str)
  : option record :=
  (λ fields, <["source" := VStr (utf8 "talent")]> (<["url" := VStr url]> fields))
    <$> detail url.

Section main.
Variable today : Z.
Variable fromisoformat : str → option Z.
Variable a : args.
Variable existing_jobs : list record.
Variable auto_state : record.
Variable search : Z → response html.
Variable detail : str → option record.

Definition known_urls : gset str := load_known_urls existing_jobs auto_state.

(** [for page in page_iter]: nothing catches what the request raises. *)
Fixpoint paginate (pages : list Z) (c : cursor) : outcome cursor :=
  match pages with
  | [] => Returns c
  | page :: rest =>
    let c := request page c in
    text ← get_or_raise (search page);
    page_links ← extract_detail_links text;
    if bool_decide (page_links = []) then Returns c else
    let c := scan_links (stop_after_seen a) known_urls page_links c in
    if streak_reached (stop_after_seen a) (known_streak c) then Returns c
    else paginate rest c
  end.

Definition crawl : outcome cursor :=
  html ← get_or_raise (search 1);
  page1_links ← extract_detail_links html;
  let c := scan_page1 page1_links (Cursor [] ∅ 0 [1] None) in
  let max_dyn := if 0 <? max_pages a then max_pages a else 200 in
  paginate (range 2 (max_dyn + 1)) c.

(** [for idx, link in enumerate(detail_links, start=1)] *)
Fixpoint fetch_jobs (detail_links : list str) : outcome (list record) :=
  match detail_links with
  | [] => Returns []
  | link :: rest =>
    match fetch_detail detail link with
    | None => fetch_jobs rest
    | Some job =>
      ok ← within_days today fromisoformat (get job "posting_date")
             (max_days_of (days a));
      fresh_jobs ← fetch_jobs rest;
      Returns (if ok : bool then job :: fresh_jobs else fresh_jobs)
    end
  end.

(** The end of [main]: talent writes the merged dataset as it is. *)
Definition persist (links : list str) (fresh_jobs : list record) : written :=
  let h := store_of (existing_jobs ++ fresh_jobs) in
  let existing := seq 0 (length existing_jobs) in
  let fresh := seq (length existing_jobs) (length fresh_jobs) in
  let merged := merge_jobs_by_url h existing fresh (negb (allow_non_french a)) in
  let merged := values merged.1 merged.2 in
  let seen_now := known_urls ∪ list_to_set links ∪ url_set merged in
  Written (Some seen_now) (Some merged) None.

Definition main : written :=
  match crawl with
  | Raises e => Written None None (Some e)
  | Returns c =>
    let detail_links := filter (λ u, u ∉ known_urls) (links c) in
    match fetch_jobs (limit_jobs (max_jobs a) detail_links) with
    | Raises e => Written None None (Some e)
    | Returns fresh_jobs => persist (links c) fresh_jobs
    end
  end.

End main.

End Talent.

Module Ge.

Definition merge_jobs_by_url := merge_jobs_by_url (λ _, true) (Some (utf8 "ge")).

Record args := Args {
  max_pages : Z;
  max_jobs : Z;
  days : Z;
  stop_after_seen : Z
}.

(** A list page of ge.ch enters [main] through its truth value and through
    the cards [extract_detail_links] finds in it, one dict each. *)
Record listing := Listing {
  listing_nonempty : bool;
  detail_items_of : option (list record)
    (* [None] where [urljoin] raises [ValueError] on an [href] of the page *)
}.

(** [page1_html = ""] *)
Definition no_listing : listing := Listing false (Some []).

(** The empty text has no card. *)
Definition extract_detail_links (page : listing) : outcome (list record) :=
  if listing_nonempty page then
    match detail_items_of page with
    | Some items => Returns items
    | None => Raises ValueError
    end
  else Returns [].

(** The cursor of ge's pagination: its links are the cards. [failed] is the
    exception that ended the crawl, if one did. *)
Record cursor := Cursor {
  links : list record;
  seen_links : gset str;
  known_streak : Z;
  requested : list Z;
  failed : option exn
}.

Definition request (page : Z) (c : cursor) : cursor :=
  Cursor (links c) (seen_links c) (known_streak c) (requested c ++ [page])
         (failed c).

(** [seen_links.add(url); links.append(item)] *)
Definition collect (url : str) (item : record) (c : cursor) : cursor :=
  Cursor (links c ++ [item]) ({[url]} ∪ seen_links c)
         (known_streak c) (requested c) (failed c).

Definition set_streak (n : Z) (c : cursor) : cursor :=
  Cursor (links c) (seen_links c) n (requested c) (failed c).

(** An exception leaves the crawl. *)
Definition fail (e : exn) (c : cursor) : cursor :=
  Cursor (links c) (seen_links c) (known_streak c) (requested c) (Some e).

(** [for item in page1_items] *)
Fixpoint scan_page1 (page1_items : list record) (c : cursor) : cursor :=
  match page1_items with
  | [] => c
  | item :: rest =>
    let url := url_key item in
    if negb (bool_decide (url = [])) && negb (bool_decide (url ∈ seen_links c))
    then scan_page1 rest (collect url item c)
    else scan_page1 rest c
  end.

(** [for item in items] on the pages after the first. *)
Fixpoint scan_items (stop_after_seen : Z) (known : gset str)
    (items : list record) (c : cursor) : cursor :=
  match items with
  | [] => c
  | item :: rest =>
    let url := url_key item in
    if bool_decide (url = []) || bool_decide (url ∈ seen_links c)
    then scan_items stop_after_seen known rest c else
    let c := collect url item c in
    if 0 <? stop_after_seen then
      if bool_decide (url ∈ known) then
        let c := set_streak (known_streak c + 1) c in
        if stop_after_seen <=? known_streak c then c
        else scan_items stop_after_seen known rest c
      else scan_items stop_after_seen known rest (set_streak 0 c)
    else scan_items stop_after_seen known rest c
  end.

(** The row [main] builds from the card, the dict [fetch_detail] returned
    and the RSS entry of the URL. *)
Definition row_of (item detail rss : record) (url : str) : record :=
  list_to_map
    [("title", py_or (py_or (get detail "title") (get item "title"))
                     (get rss "title"));
     ("departement", get item "departement");
     ("taux", get item "taux");
     ("remuneration", get item "remuneration");
     ("description", get detail "description");
     ("summary", get rss "summary");
     ("posting_date", py_or (get detail "posting_date")
                            (get rss "posting_date"));
     ("date_limite", get detail "date_limite");
     ("url", VStr url);
     ("source", VStr (utf8 "ge"))].

Section main.
Variable today : Z.
Variable fromisoformat : str → option Z.
Variable a : args.
Variable existing_jobs : list record.
Variable auto_state : record.
(** The network: what [fetch_rss_map] returns ([None] where it raises), the
    list pages by number, what [fetch_detail] returns by URL ([None] where it
    raises). *)
Variable fetch_rss_map : option (gmap str record).
Variable search : Z → response listing.
Variable fetch_detail : str → option record.

Definition known_urls : gset str := load_known_urls existing_jobs auto_state.

(** [rss_map], [{}] when the feed could not be read. *)
Definition rss_map : gmap str record := default ∅ fetch_rss_map.

(** The base page: [raise_for_status] is inside the [try]. *)
Definition fetch_base_page (r : response listing) : listing :=
  match get_or_raise r with
  | Returns text => text
  | Raises _ => no_listing
  end.

(** [for page in range(2, max_dyn + 1)] *)
Fixpoint paginate (pages : list Z) (c : cursor) : cursor :=
  match pages with
  | [] => c
  | page :: rest =>
    let c := request page c in
    match search page with
    | ConnectionFailed => c
    | Response status_code text =>
      if 400 <=? status_code then c else
      match extract_detail_links text with
      | Raises e => fail e c
      | Returns items =>
        if bool_decide (items = []) then c else
        let c := scan_items (stop_after_seen a) known_urls items c in
        if streak_reached (stop_after_seen a) (known_streak c) then c
        else paginate rest c
      end
    end
  end.

(** [max_dyn] *)
Definition max_dyn : Z := if 0 <? max_pages a then max_pages a else 200.

(** From the request of the base page to [links]. *)
Definition crawl : cursor :=
  let page1_html := fetch_base_page (search 1) in
  match (if listing_nonempty page1_html
         then extract_detail_links page1_html else Returns []) with
  | Raises e => Cursor [] ∅ 0 [1] (Some e)
  | Returns page1_items =>
    let c := scan_page1 page1_items (Cursor [] ∅ 0 [1] None) in
    paginate (range 2 (max_dyn + 1)) c
  end.

(** [for idx, item in enumerate(detail_items, start=1)] *)
Fixpoint fetch_jobs (detail_items : list record) : outcome (list record) :=
  match detail_items with
  | [] => Returns []
  | item :: rest =>
    let url := url_key item in
    if bool_decide (url = []) then fetch_jobs rest else
    match fetch_detail url with
    | None => fetch_jobs rest
    | Some detail =>
      let row := row_of item detail (default ∅ (rss_map !! url)) url in
      ok ← within_days today fromisoformat (get row "posting_date")
             (max_days_of (days a));
      fresh_jobs ← fetch_jobs rest;
      Returns (if ok : bool then row :: fresh_jobs else fresh_jobs)
    end
  end.

(** [detail_items], after the limit. *)
Definition detail_items (links : list record) : list record :=
  limit_jobs (max_jobs a) (filter (λ x, url_key x ∉ known_urls) links).

(** The merged dataset, as values. *)
Definition merge_all (fresh_jobs : list record) : list record :=
  let h := store_of (existing_jobs ++ fresh_jobs) in
  let existing := seq 0 (length existing_jobs) in
  let fresh := seq (length existing_jobs) (length fresh_jobs) in
  let merged := merge_jobs_by_url h existing fresh in
  values merged.1 merged.2.

(** The end of [main]: the dataset is filtered before either file is
    written. *)
Definition persist (links : list record) (fresh_jobs : list record)
  : written :=
  let merged := merge_all fresh_jobs in
  match filter_within today fromisoformat merged (max_days_of (days a)) with
  | Raises e => Written None None (Some e)
  | Returns filtered =>
    let seen_now :=
      known_urls ∪ list_to_set (url_key <$> links) ∪ url_set merged in
    Written (Some seen_now) (Some filtered) None
  end.

(** An exception of the crawl leaves [main] before anything is written. *)
Definition main : written :=
  let c := crawl in
  match failed c with
  | Some e => Written None None (Some e)
  | None =>
    match fetch_jobs (detail_items (links c)) with
    | Raises e => Written None None (Some e)
    | Returns fresh_jobs => persist (links c) fresh_jobs
    end
  end.

End main.

End Ge.

Module Jobroom.

Definition FR_HINTS : list str := map utf8
  ["avec"; "pour"; "poste"; "vous"; "nous"; "experience"; "equipe";
   "mission"; "competences"; "formation"; "travail"; "emploi"; "profil";
   "francais"; "responsable"; "gestion"; "assurer"; "recherche";
   "candidat"]%string.
Definition EN_HINTS : list str := map utf8
  ["with"; "for"; "you"; "team"; "experience"; "job"; "position"; "skills";
   "work"; "english"]%string.
Definition DE_HINTS : list str := map utf8
  ["mit"; "fur"; "sie"; "erfahrung"; "stelle"; "aufgaben"; "kenntnisse";
   "arbeit"; "deutsch"]%string.
Definition IT_HINTS : list str := map utf8
  ["con"; "per"; "lavoro"; "posizione"; "esperienza"; "richiesto";
   "competenze"; "squadra"]%string.

(** The class [[a-zA-Z]] *)
Definition alpha (c : N) : bool :=
  ((97 <=? c) && (c <=? 122) || (65 <=? c) && (c <=? 90))%N.

Definition tokens (row : record) : list str :=
  findall_3 alpha (lang_text (get row "title") (get row "description")).

(** [isinstance(lang_codes, list)
     and any(str(x).lower() == "fr" for x in lang_codes)] *)
Definition has_fr_code (row : record) : bool :=
  match get row "language_codes" with
  | VList items _ =>
    existsb (λ x, bool_decide (lower (py_str x) = utf8 "fr")) items
  | _ => false
  end.

Definition is_french_job (row : record) : bool :=
  if has_fr_code row then true else
  let tokens := tokens row in
  let fr := overlap tokens FR_HINTS in
  let en := overlap tokens EN_HINTS in
  let de := overlap tokens DE_HINTS in
  let it := overlap tokens IT_HINTS in
  (2 <=? fr)%nat && (en `max` (de `max` it) <=? fr)%nat.

Definition LANG_TO_NG : list (str * str) :=
  [(utf8 "fr", utf8 "ZnI="); (utf8 "de", utf8 "ZGU=");
   (utf8 "it", utf8 "aXQ="); (utf8 "en", utf8 "ZW4=")].

(** [lang in LANG_TO_NG] looks at the keys. Where [lower] leaves a code
    point that [str.lower] changes, neither form is a letter of a key, so
    the test and the result are those of the source. *)
Definition _normalize_lang (lang : str) : str :=
  let lang :=
    lower (strip (if bool_decide (lang = []) then utf8 "fr" else lang)) in
  if bool_decide (lang ∈ LANG_TO_NG.*1) then lang else utf8 "fr".

(** [str(value).strip()[:10]], or [None] *)
Definition _date_iso : value → value := λ value,
  if negb (truthy value) then VNone else
  let s := strip (py_str value) in
  if bool_decide (s = []) then VNone else VStr (take 10 s).

Section days_ago.
Variable today : Z.
Variable fromisoformat : str → option Z.

(** [fromisoformat] raises [TypeError] on what is neither falsy nor a
    [str]. *)
Definition _days_ago (posting_date : value) : outcome (option Z) :=
  if negb (truthy posting_date) then Returns None else
  match posting_date with
  | VStr s =>
    match fromisoformat s with
    | None => Returns None
    | Some d => Returns (Some (today - d))
    end
  | _ => Raises TypeError
  end.

End days_ago.

Definition merge_jobs_by_url :=
  merge_jobs_by_url (λ _, true) (Some (utf8 "jobroom")).

Record args := Args {
  max_pages : Z;
  max_jobs : Z;
  days : Z;
  stop_after_seen : Z;
  allow_non_french : bool
}.

(** An item of the API as [normalize] takes it, inside the loop and outside
    every [try]: it returns a row, or [int] raises on a workload that is a
    float infinity ([OverflowError]) or not a number ([ValueError]). *)
Inductive raw_row :=
| Normalized (row : record)
| WorkloadInfinite
| WorkloadNaN.

(** What [search_page] returns: the items, and the total the API reports,
    if it does. *)
Record api_page := ApiPage {
  raw_rows : list raw_row;
  total_api : option Z
}.

(** The variables of the [while] loop, and the pages requested so far. *)
Record cursor := Cursor {
  fresh_jobs : list record;
  all_page_urls : list str;
  seen_streak : Z;
  total_api_known : option Z;
  requested : list Z
}.

Section main.
Variable today : Z.
Variable fromisoformat : str → option Z.
Variable a : args.
Variable existing_jobs : list record.
Variable auto_state : record.
Variable search : Z → response api_page.

Definition known_urls : gset str := load_known_urls existing_jobs auto_state.

Definition max_days : option Z := max_days_of (days a).

(** [args.max_jobs and args.max_jobs > 0 and len(fresh_jobs) >= args.max_jobs] *)
Definition jobs_limit_reached (c : cursor) : bool :=
  (0 <? max_jobs a) && (max_jobs a <=? Z.of_nat (length (fresh_jobs c))).

(** [for raw in raw_rows] *)
Fixpoint scan_rows (rows : list raw_row) (c : cursor) : outcome cursor :=
  match rows with
  | [] => Returns c
  | WorkloadInfinite :: _ => Raises OverflowError
  | WorkloadNaN :: _ => Raises ValueError
  | Normalized row :: rest =>
    let url := url_key row in
    if bool_decide (url = []) then scan_rows rest c else
    let c := Cursor (fresh_jobs c) (all_page_urls c ++ [url]) (seen_streak c)
                    (total_api_known c) (requested c) in
    let filters (c : cursor) : outcome cursor :=
      if bool_decide (url ∈ known_urls) then scan_rows rest c
      else if negb (allow_non_french a) && negb (is_french_job row)
      then scan_rows rest c
      else
        ok ← within_days today fromisoformat (get row "posting_date") max_days;
        if negb ok then scan_rows rest c else
        let c := Cursor (fresh_jobs c ++ [row]) (all_page_urls c)
                        (seen_streak c) (total_api_known c) (requested c) in
        if jobs_limit_reached c then Returns c else scan_rows rest c in
    let streak (n : Z) : cursor :=
      Cursor (fresh_jobs c) (all_page_urls c) n (total_api_known c)
             (requested c) in
    if 0 <? stop_after_seen a then
      if bool_decide (url ∈ known_urls) then
        let c := streak (seen_streak c + 1) in
        if stop_after_seen a <=? seen_streak c then Returns c else filters c
      else filters (streak 0)
    else filters c
  end.

(** [while True], with the first page numbered 0; [fuel] bounds the number of
    rounds, and [None] says that it ran out. *)
Fixpoint loop (fuel : nat) (page : Z) (c : cursor) : option (outcome cursor) :=
  match fuel with
  | O => None
  | Datatypes.S fuel =>
    if (0 <? max_pages a) && (max_pages a <=? page) then Some (Returns c) else
    let c := Cursor (fresh_jobs c) (all_page_urls c) (seen_streak c)
                    (total_api_known c) (requested c ++ [page]) in
    match get_or_raise (search page) with
    | Raises _ => Some (Returns c)
    | Returns body =>
      let total_api_known :=
        match total_api_known c with
        | None => total_api body
        | Some total => Some total
        end in
      let c := Cursor (fresh_jobs c) (all_page_urls c) (seen_streak c)
                      total_api_known (requested c) in
      if bool_decide (raw_rows body = []) then Some (Returns c) else
      match scan_rows (raw_rows body) c with
      | Raises e => Some (Raises e)
      | Returns c =>
        if streak_reached (stop_after_seen a) (seen_streak c)
        then Some (Returns c)
        else if jobs_limit_reached c then Some (Returns c)
        else if match total_api_known with
                | Some total => total <=? (page + 1) * 25
                | None => false
                end
        then Some (Returns c)
        else if Z.of_nat (length (raw_rows body)) <? 25 then Some (Returns c)
        else loop fuel (page + 1) c
      end
    end
  end.

Definition crawl (fuel : nat) : option (outcome cursor) :=
  loop fuel 0 (Cursor [] [] 0 None []).

(** The end of [main]: the merged dataset is filtered before the state file
    is written. *)
Definition persist (all_page_urls : list str) (fresh_jobs : list record)
  : written :=
  let h := store_of (existing_jobs ++ fresh_jobs) in
  let existing := seq 0 (length existing_jobs) in
  let fresh := seq (length existing_jobs) (length fresh_jobs) in
  let merged := merge_jobs_by_url h existing fresh in
  let merged := values merged.1 merged.2 in
  match filter_within today fromisoformat merged max_days with
  | Raises e => Written None None (Some e)
  | Returns filtered =>
    let seen_now := known_urls ∪ list_to_set all_page_urls ∪ url_set merged in
    Written (Some seen_now) (Some filtered) None
  end.

Definition main (fuel : nat) : option written :=
  match crawl fuel with
  | None => None
  | Some (Raises e) => Some (Written None None (Some e))
  | Some (Returns c) => Some (persist (all_page_urls c) (fresh_jobs c))
  end.

End main.

End Jobroom.

(** ** Notions used in the statements *)

(** The URL key and the id of the record behind a reference. *)
Definition key_of (h : heap) (row : nat) : str := url_key (h !!! row).
Definition id_of (h : heap) (row : nat) : value := get (h !!! row) "id".

(** Two stores that differ at most in the ["id"] and ["source"] of their
    records: all [merge_jobs_by_url] ever writes. *)
Definition same_but_ids (h h' : heap) : Prop :=
  ∀ row k, k ≠ "id"%string → k ≠ "source"%string →
    (h' !!! row) !! k = (h !!! row) !! k.

(** A row of [current] enters the map when it has a URL and passes the gate. *)
Definition enters (keep : record → bool) (h : heap) (row : nat) : Prop :=
  key_of h row ≠ [] ∧ keep (h !!! row) = true.

(** The integer ids of the rows of [current] that enter the map are positive,
    and equal only under one URL. *)
Definition ids_well_formed (keep : record → bool) (h : heap)
    (current : list nat) : Prop :=
  (∀ c n, c ∈ current → enters keep h c → as_int (id_of h c) = Some n → 0 < n)
  ∧ (∀ c1 c2 n, c1 ∈ current → c2 ∈ current →
       enters keep h c1 → enters keep h c2 →
       as_int (id_of h c1) = Some n → as_int (id_of h c2) = Some n →
       key_of h c1 = key_of h c2).

(** [row] is the last record of [l] that enters the map under its URL: it
    enters, and no record after it in [l] enters with the same URL. *)
Definition last_of (keep : record → bool) (h : heap) (l : list nat)
    (row : nat) : Prop :=
  ∃ l1 l2, l = l1 ++ row :: l2 ∧ enters keep h row
    ∧ Forall (λ x, ¬ (enters keep h x ∧ key_of h x = key_of h row)) l2.

(** A record without a URL: the field is missing, [None], or a string of
    whitespace only. *)
Definition url_less (row : record) : Prop :=
  row !! "url"%string = None
  ∨ row !! "url"%string = Some VNone
  ∨ ∃ s, row !! "url"%string = Some (VStr s) ∧ Forall (λ c, isspace c = true) s.

(** The ["source"] a record has after [row.setdefault("source", s)], when
    the merge has a default [s]. *)
Definition source_after (source : option str) (row : record) : option value :=
  match source with
  | Some s => Some (default (VStr s) (row !! "source"%string))
  | None => row !! "source"%string
  end.

(** ** The four scrapers and their [merge_jobs_by_url] *)
Inductive scraper := jobup | jobroom | ge | talent (filter_lang : bool).

Definition merge_of (s : scraper) (h : heap) (current fresh : list nat)
  : heap * list nat :=
  match s with
  | jobup => Jobup.merge_jobs_by_url h current fresh
  | jobroom => Jobroom.merge_jobs_by_url h current fresh
  | ge => Ge.merge_jobs_by_url h current fresh
  | talent filter_lang => Talent.merge_jobs_by_url h current fresh filter_lang
  end.

(** The gate of the second and third loops: only talent has one. *)
Definition gate (s : scraper) : record → bool :=
  match s with
  | talent filter_lang => Talent.keep filter_lang
  | _ => λ _, true
  end.

Definition default_source (s : scraper) : option str :=
  match s with
  | jobup => None
  | jobroom => Some (utf8 "jobroom")
  | ge => Some (utf8 "ge")
  | talent _ => Some (utf8 "talent")
  end.

(** The URL map as the third loop leaves it. *)
Definition url_map (s : scraper) (h : heap) (current fresh : list nat) : dict :=
  st_merged (merge_overlay (gate s) h current fresh).

(** ** Invariants of the loops of [merge_jobs_by_url] *)

(** Non-increasing in the key. *)
Definition desc (key : nat → Z) (l : list nat) : Prop :=
  Sorted (λ x y, key y ≤ key x) l.

Section invariants.
Variable keep : record → bool.
Variable source : option str.

(** After the second loop. *)
Record seed_inv (h : heap) (current : list nat) (d : dict) : Prop := {
  seed_nodup : NoDup d.*1;
  seed_key : ∀ k row, dict_get d k = Some row →
    row ∈ current ∧ key_of h row = k ∧ k ≠ [] ∧ keep (h !!! row) = true
}.

(** What one round of the third loop does: nothing, or an id for the row
    (carried over from the entry of its URL, or the next one) and the row put
    under its URL. *)
Inductive overlay_step (st : merge_state) (row : nat) : merge_state → Prop :=
| overlay_skip :
    key_of (st_heap st) row = [] ∨ keep (st_heap st !!! row) = false →
    overlay_step st row st
| overlay_carry existing :
    key_of (st_heap st) row ≠ [] → keep (st_heap st !!! row) = true →
    dict_get (st_merged st) (key_of (st_heap st) row) = Some existing →
    nonempty (st_heap st !!! existing) = true →
    is_int (id_of (st_heap st) existing) = true →
    overlay_step st row
      (MergeState (setitem (st_heap st) row "id" (id_of (st_heap st) existing))
                  (dict_set (st_merged st) (key_of (st_heap st) row) row)
                  (st_max_id st))
| overlay_next :
    key_of (st_heap st) row ≠ [] → keep (st_heap st !!! row) = true →
    (∀ existing,
       dict_get (st_merged st) (key_of (st_heap st) row) = Some existing →
       nonempty (st_heap st !!! existing) = false
       ∨ is_int (id_of (st_heap st) existing) = false) →
    overlay_step st row
      (MergeState (setitem (st_heap st) row "id" (VInt (st_max_id st + 1)))
                  (dict_set (st_merged st) (key_of (st_heap st) row) row)
                  (st_max_id st + 1)).

(** During the third loop, for the highest id [m0] of [current]. *)
Record ov_inv (h : heap) (current fresh : list nat) (m0 : Z)
    (st : merge_state) : Prop := {
  ov_same : same_but_ids h (st_heap st);
  ov_nodup : NoDup (st_merged st).*1;
  ov_key : ∀ k row, dict_get (st_merged st) k = Some row →
    key_of h row = k ∧ k ≠ [] ∧ (row ∈ current ∨ row ∈ fresh);
  ov_max : m0 ≤ st_max_id st;
  ov_bound : ∀ k row n, dict_get (st_merged st) k = Some row →
    as_int (id_of (st_heap st) row) = Some n → n ≤ st_max_id st;
  ov_new : ∀ k row, dict_get (st_merged st) k = Some row →
    (∀ c, c ∈ current → key_of h c ≠ k) →
    ∃ n, id_of (st_heap st) row = VInt n ∧ m0 < n
}.

(** The ids of the entries: positive, and different for different URLs. *)
Record ids_inv (st : merge_state) : Prop := {
  ids_pos : ∀ k row n, dict_get (st_merged st) k = Some row →
    as_int (id_of (st_heap st) row) = Some n → 0 < n;
  ids_inj : ∀ k1 k2 r1 r2 n,
    dict_get (st_merged st) k1 = Some r1 →
    dict_get (st_merged st) k2 = Some r2 →
    as_int (id_of (st_heap st) r1) = Some n →
    as_int (id_of (st_heap st) r2) = Some n → k1 = k2
}.

(** What is known of the store [h1] and the list [out] returned, through the
    map [d] as it stands after the third loop and the highest id [m0] of
    [current]. *)
Record merge_facts (h : heap) (current fresh : list nat)
    (h1 : heap) (out : list nat) (d : dict) (m0 : Z) : Prop := {
  mf_same : same_but_ids h h1;
  mf_perm : out ≡ₚ dict_values d;
  mf_nodup : NoDup d.*1;
  mf_keys : d.*1 = key_of h1 <$> dict_values d;
  mf_m0 : 0 ≤ m0;
  mf_watermark : ∀ c n, c ∈ current → as_int (id_of h c) = Some n → n ≤ m0;
  mf_entry : ∀ k r, dict_get d k = Some r →
    key_of h r = k ∧ k ≠ [] ∧ (r ∈ current ∨ r ∈ fresh)
    ∧ ∃ n, as_int (id_of h1 r) = Some n;
  mf_new : ∀ k r, dict_get d k = Some r →
    (∀ c, c ∈ current → key_of h c ≠ k) →
    ∃ n, id_of h1 r = VInt n ∧ m0 < n;
  mf_seeded : ∀ c, c ∈ current → enters keep h c → key_of h c ∈ d.*1;
  mf_source : ∀ k r s, dict_get d k = Some r → source = Some s →
    is_Some ((h1 !!! r) !! "source"%string);
  mf_ids : ids_well_formed keep h current →
    (∀ k r n, dict_get d k = Some r → as_int (id_of h1 r) = Some n → 0 < n)
    ∧ (∀ k1 k2 r1 r2 n, dict_get d k1 = Some r1 → dict_get d k2 = Some r2 →
         as_int (id_of h1 r1) = Some n → as_int (id_of h1 r2) = Some n →
         k1 = k2)
}.

(** The entry of a URL after the third loop: the last row of [fresh] with
    that URL that entered, or the entry it had. *)
Definition touch (h : heap) (k : str) (acc : option nat) (row : nat)
  : option nat :=
  if bool_decide (key_of h row ≠ [] ∧ keep (h !!! row) = true
                  ∧ key_of h row = k)
  then Some row else acc.

(** The row stands in the store with the id of the entry of its URL. *)
Definition settled (h : heap) (st_h : heap) (d : dict) (row : nat) : Prop :=
  key_of h row ≠ [] → keep (h !!! row) = true →
  ∃ e, dict_get d (key_of h row) = Some e
       ∧ is_Some (st_h !! row)
       ∧ id_of st_h row = id_of st_h e
       ∧ is_int (id_of st_h e) = true.

End invariants.

(** A record whose ["posting_date"] is a string or falsy ([None], missing):
    what [within_days] is written for. *)
Definition date_is_text (row : record) : Prop :=
  truthy (get row "posting_date") = false
  ∨ ∃ s, get row "posting_date" = VStr s.

(** A search page that was fetched and shows no link, for jobup's
    [fetch_search_page] and for talent's request. *)
Definition jobup_no_links (r : response html) : Prop :=
  ∃ text, Jobup.fetch_search_page r = (Some text, false)
          ∧ extract_detail_links text = Returns [].

Definition talent_no_links (r : response html) : Prop :=
  ∃ text, get_or_raise r = Returns text
          ∧ extract_detail_links text = Returns [].

(** The links collected so far are distinct, and [seen_links] holds exactly
    them. *)
Definition links_unique (c : cursor) : Prop :=
  NoDup (links c) ∧ ∀ x, x ∈ seen_links c ↔ x ∈ links c.

(** A request that failed: no answer, or an answer with a status of 400 or
    more. *)
Definition request_failed {body} (r : response body) : Prop :=
  r = ConnectionFailed ∨ ∃ status text, r = Response status text ∧ 400 ≤ status.

(** A page after which jobup's loop may go on: it was fetched, its text is
    not empty, its links could be extracted and, in the dynamic loop, it
    shows one. *)
Definition jobup_goes_on (stop_on_empty : bool) (r : response html) : Prop :=
  ∃ text page_links,
    Jobup.fetch_search_page r = (Some text, false)
    ∧ html_nonempty text = true
    ∧ extract_detail_links text = Returns page_links
    ∧ (stop_on_empty = true → page_links ≠ []).

(** A row jobroom's loop keeps: it has a URL that is not known, it passes
    the language filter unless --allow-non-french is given, and its date is
    within the window. *)
Definition jobroom_admits (today : Z) (fromisoformat : str → option Z)
    (a : Jobroom.args) (existing_jobs : list record) (auto_state : record)
    (row : record) : Prop :=
  url_key row ≠ []
  ∧ (url_key row ∉ Jobroom.known_urls existing_jobs auto_state)
  ∧ (Jobroom.allow_non_french a = true ∨ Jobroom.is_french_job row = true)
  ∧ within_days today fromisoformat (get row "posting_date")
      (Jobroom.max_days a) = Returns true.

(** What the loop over the rows of a page leaves of the cursor [c]: when it
    returns, the pages requested and the total are untouched, the rows added
    are rows it keeps, and the limit on their number is respected; when it
    raises, the exception is [within_days]'s or [normalize]'s, never one of
    the network. *)
Definition jobroom_scan_post (today : Z) (fromisoformat : str → option Z)
    (a : Jobroom.args) (existing_jobs : list record) (auto_state : record)
    (c : Jobroom.cursor) (out : outcome Jobroom.cursor) : Prop :=
  match out with
  | Returns c' =>
    Jobroom.requested c' = Jobroom.requested c
    ∧ Jobroom.total_api_known c' = Jobroom.total_api_known c
    ∧ (∃ new, Jobroom.fresh_jobs c' = Jobroom.fresh_jobs c ++ new
              ∧ Forall (jobroom_admits today fromisoformat a existing_jobs
                          auto_state) new)
    ∧ (0 < Jobroom.max_jobs a →
       Z.of_nat (length (Jobroom.fresh_jobs c)) < Jobroom.max_jobs a →
       Z.of_nat (length (Jobroom.fresh_jobs c')) ≤ Jobroom.max_jobs a)
  | Raises e => e ≠ RequestException
  end.

(** Text whose only whitespace is single spaces: no whitespace character
    other than the space, and no two spaces in a row. *)
Definition single_spaced (t : str) : Prop :=
  Forall (λ c, isspace c = true → c = 32%N) t
  ∧ ∀ i, t !! i = Some 32%N → t !! S i ≠ Some 32%N.

(** ** The seen-set as the specification words it

    The seen-set loaded at the start of a run: the URLs of the prior output
    dataset and the URLs of the prior state file, stripped, the blank ones
    left out. Written from the files, not through the functions that load
    them. *)
Definition field_url (row : record) : str :=
  strip (py_str (py_or (get row "url") (VStr []))).

Definition loaded_url (existing_jobs : list record) (auto_state : record)
    (u : str) : Prop :=
  u ≠ []
  ∧ ((∃ job, job ∈ existing_jobs ∧ field_url job = u)
     ∨ (∃ items repr x, get auto_state "seen_urls" = VList items repr
          ∧ x ∈ items ∧ strip (py_str x) = u)).

(** The URLs of a dataset. *)
Definition dataset_url (rows : list record) (u : str) : Prop :=
  u ≠ [] ∧ ∃ row, row ∈ rows ∧ field_url row = u.

(** ** Crawls of ge *)

(** The cards of a cursor of ge have pairwise distinct URLs, none of them
    blank, and [seen_links] holds exactly these. *)
Definition cards_unique (c : Ge.cursor) : Prop :=
  NoDup (url_key <$> Ge.links c)
  ∧ Forall (λ item, url_key item ≠ []) (Ge.links c)
  ∧ ∀ url, url ∈ Ge.seen_links c ↔ url ∈ url_key <$> Ge.links c.

(** A list page that lets the pagination of ge go on: it is served with a
    status under 400, its cards could be extracted, and it shows one. *)
Definition ge_goes_on (r : response Ge.listing) : Prop :=
  ∃ status text items, r = Response status text ∧ status < 400
    ∧ Ge.extract_detail_links text = Returns items ∧ items ≠ [].

(** The streak counts the cards collected last, all of them known. *)
Definition streak_tail (known : gset str) (c : Ge.cursor) : Prop :=
  ∃ older recent, Ge.links c = older ++ recent
    ∧ Z.of_nat (length recent) = Ge.known_streak c
    ∧ Forall (λ item, url_key item ∈ known) recent.

(** ** The rule of the relevance filter as the specification words it

    A record is accepted when a language tag of the source matches the target
    language, or when the target language's overlap count is at least 2 and no
    other candidate language's count is above it. *)
Definition accepts_by_rule (tag_matches : bool) (target : nat)
    (others : list nat) : bool :=
  tag_matches
  || ((2 <=? target)%nat && forallb (λ n, (n <=? target)%nat) others).

(** [len(tokens & hints)], with both sides as sets. *)
Definition hits (tokens hints : list str) : nat :=
  size (list_to_set tokens ∩ list_to_set hints : gset str).

(** ** Example data *)

Definition job (fields : list (string * value)) : record := list_to_map fields.
Definition text_field (k : string) (s : string) : string * value :=
  (k, VStr (utf8 s)).
Definition int_field (k : string) (n : Z) : string * value := (k, VInt n).

(** Two records of a dataset with different URLs and the same id. *)
Definition ex_same_id : heap := store_of
  [job [text_field "url" "https://a.example/1"; int_field "id" 1];
   job [text_field "url" "https://a.example/2"; int_field "id" 1]].

(** A dataset of two records, one of them with surrounding blanks in its
    URL, and a fetched record. *)
Definition ex_dataset : heap := store_of
  [job [text_field "url" " https://a.example/1 "; int_field "id" 4];
   job [text_field "url" "https://a.example/2"; int_field "id" 7];
   job [text_field "url" "https://a.example/3"]].

(** A dataset of talent with one record written in German. *)
Definition ex_german : heap := store_of
  [job [text_field "url" "https://t.example/1"; int_field "id" 1;
        text_field "title" "Softwareentwickler";
        text_field "description"
          "Wir suchen Sie für unsere Stelle mit Erfahrung"]].

(** A dataset with one record, and the same posting fetched again with a
    new title. *)
Definition ex_update : heap := store_of
  [job [text_field "url" "https://a.example/1"; int_field "id" 4;
        text_field "title" "Comptable"];
   job [text_field "url" "https://a.example/1";
        text_field "title" "Comptable senior"]].

(** A record whose URL is a blank, and a record without a URL that carries
    the highest id. *)
Definition ex_blank : heap := store_of
  [job [text_field "url" " "; int_field "id" 3];
   job [int_field "id" 9];
   job [text_field "url" "https://a.example/5"]].

(** ** A calendar for the examples

    [datetime.fromisoformat(s).date()] on the plain form [YYYY-MM-DD], as the
    proleptic Gregorian ordinal of the day ([date.toordinal]). Python reads
    more forms than this one; the examples use no other, and here a text of
    another form does not parse. *)
Definition digit (c : N) : option Z :=
  if ((48 <=? c) && (c <=? 57))%N then Some (Z.of_N c - 48) else None.

Definition number (s : str) : option Z :=
  foldl (λ acc c, n ← acc; d ← digit c; Some (10 * n + d)) (Some 0) s.

Definition is_leap (y : Z) : bool :=
  (y mod 4 =? 0) && (negb (y mod 100 =? 0) || (y mod 400 =? 0)).

Definition days_in_month (y m : Z) : Z :=
  if m =? 2 then (if is_leap y then 29 else 28)
  else if (m =? 4) || (m =? 6) || (m =? 9) || (m =? 11) then 30 else 31.

Definition toordinal (y m d : Z) : Z :=
  365 * (y - 1) + (y - 1) / 4 - (y - 1) / 100 + (y - 1) / 400
  + foldr Z.add 0 (days_in_month y <$> seqZ 1 (m - 1)) + d.

Definition iso_date (s : str) : option Z :=
  match s with
  | [y1; y2; y3; y4; 45%N; m1; m2; 45%N; d1; d2] =>
    y ← number [y1; y2; y3; y4];
    m ← number [m1; m2];
    d ← number [d1; d2];
    if (1 <=? y) && (1 <=? m) && (m <=? 12) && (1 <=? d)
       && (d <=? days_in_month y m)
    then Some (toordinal y m d) else None
  | _ => None
  end.

(** ** Example runs *)

(** The answer to a search request: a page with the given total and links. *)
Definition page_of (total : option Z) (ls : list string) : response html :=
  Response 200 (Html true total (Some (utf8 <$> ls))).

(** A dataset with one record per URL. *)
Definition jobs_at (ls : list string) : list record :=
  (λ u, job [text_field "url" u]) <$> ls.

Definition k1 : string := "https://j.example/known-1".
Definition k2 : string := "https://j.example/known-2".
Definition k3 : string := "https://j.example/known-3".
Definition n1 : string := "https://j.example/new-1".
Definition n2 : string := "https://j.example/new-2".
Definition n3 : string := "https://j.example/new-3".

(** Three known URLs; no page limit, threshold 3. *)
Definition ex_known : list record := jobs_at [k1; k2; k3].
Definition ex_args : Jobup.args := Jobup.Args 0 0 0 false 3.
Definition ex_talent_args : Talent.args := Talent.Args 0 0 0 3 false.
Definition ex_jobroom_args : Jobroom.args := Jobroom.Args 0 0 0 3 true.

(** The links [known, known, known, new, new] on page 1. *)
Definition ex_streak_on_page1 (page : Z) : response html :=
  if page =? 1 then page_of None [k1; k2; k3; n1; n2]
  else if page =? 2 then page_of None [n3]
  else page_of None [].

(** The same links on page 2, after a page 1 that showed the known ones. *)
Definition ex_streak_seen (page : Z) : response html :=
  if page =? 1 then page_of None [k1; k2; k3]
  else if page =? 2 then page_of None [k1; k2; k3; n1; n2]
  else page_of None [].

(** The same links on page 2, after a page 1 with another link. *)
Definition ex_streak (page : Z) : response html :=
  if page =? 1 then page_of None [n3]
  else page_of None [k1; k2; k3; n1; n2].

(** Page 1 announces three pages; page 2 has no link, page 3 has one. *)
Definition ex_empty_detected (page : Z) : response html :=
  if page =? 1 then page_of (Some 3) [n1]
  else if page =? 2 then page_of None []
  else page_of None [n3].

(** Page 1 has no link and announces nothing; page 2 has one. *)
Definition ex_empty_page1 (page : Z) : response html :=
  if page =? 1 then page_of None []
  else if page =? 2 then page_of None [n2]
  else page_of None [].

(** Page 2 has no link; every other page has one. *)
Definition ex_empty_page2 (page : Z) : response html :=
  if page =? 2 then page_of None [] else page_of None [n1].

(** Page 1 is served; every later request is answered 429. *)
Definition ex_blocked (page : Z) : response html :=
  if page =? 1 then page_of None [n1] else Response 429 no_html.

(** The first page of the API with the rows [known, known, known, new, new]. *)
Definition ex_api (page : Z) : response Jobroom.api_page :=
  Response 200
    (Jobroom.ApiPage (Jobroom.Normalized <$> jobs_at [k1; k2; k3; n1; n2])
                     None).

(** A run of jobroom limited to two pages and three rows, on an API whose
    pages hold five rows. *)
Definition ex_jobroom_limits : Jobroom.args := Jobroom.Args 2 3 0 3 true.

(** ** Runs of ge *)

(** A list page of ge.ch with one card per URL. *)
Definition cards_of (ls : list string) : response Ge.listing :=
  Response 200 (Ge.Listing true (Some (jobs_at ls))).

(** No page limit, threshold 3. *)
Definition ex_ge_args : Ge.args := Ge.Args 0 0 0 3.

(** The base page answers 503; page 2 has a card, page 3 has none. *)
Definition ex_ge_base_down (page : Z) : response Ge.listing :=
  if page =? 1 then Response 503 (Ge.Listing true (Some (jobs_at [n1])))
  else if page =? 2 then cards_of [n2]
  else cards_of [].

(** No request is answered. *)
Definition ex_offline {body} (page : Z) : response body := ConnectionFailed.

(** * Records and the store *)

Lemma get_insert_eq (row : record) k v : get (<[k := v]> row) k = v.
Proof. unfold get. by rewrite lookup_insert_eq. Qed.

Lemma get_insert_ne (row : record) k k' v :
  k ≠ k' → get (<[k := v]> row) k' = get row k'.
Proof. intros. unfold get. by rewrite lookup_insert_ne. Qed.

Lemma get_ext (row row' : record) k : row !! k = row' !! k → get row k = get row' k.
Proof. unfold get. by intros ->. Qed.

Lemma url_key_ext (row row' : record) :
  row !! "url"%string = row' !! "url"%string → url_key row = url_key row'.
Proof. intros E. unfold url_key. by rewrite (get_ext _ _ _ E). Qed.

Lemma setitem_eq h row k v : setitem h row k v !!! row = <[k := v]> (h !!! row).
Proof. unfold setitem. by rewrite lookup_total_insert_eq. Qed.

Lemma setitem_ne h row row' k v : row ≠ row' → setitem h row k v !!! row' = h !!! row'.
Proof. intros. unfold setitem. by rewrite lookup_total_insert_ne. Qed.

Lemma setitem_field_ne h row row' k k' v :
  k ≠ k' → (setitem h row k v !!! row') !! k' = (h !!! row') !! k'.
Proof.
  intros Hk. destruct (decide (row = row')) as [<-|Hr].
  - by rewrite setitem_eq, lookup_insert_ne.
  - by rewrite setitem_ne.
Qed.

Lemma setdefault_field_ne h row row' k k' v :
  k ≠ k' → (setdefault h row k v !!! row') !! k' = (h !!! row') !! k'.
Proof.
  intros Hk. unfold setdefault. destruct ((h !!! row) !! k); [done|].
  by apply setitem_field_ne.
Qed.

Lemma setdefault_ne h row row' k v :
  row ≠ row' → setdefault h row k v !!! row' = h !!! row'.
Proof.
  intros. unfold setdefault. destruct ((h !!! row) !! k); [done|].
  by apply setitem_ne.
Qed.

Lemma setdefault_is_Some h row k v : is_Some ((setdefault h row k v !!! row) !! k).
Proof.
  unfold setdefault. destruct ((h !!! row) !! k) eqn:E.
  - rewrite E. eauto.
  - rewrite setitem_eq, lookup_insert_eq. eauto.
Qed.

Lemma key_of_setitem h row row' k v :
  k ≠ "url"%string → key_of (setitem h row k v) row' = key_of h row'.
Proof. intros. apply url_key_ext. by apply setitem_field_ne. Qed.

Lemma key_of_setdefault h row row' k v :
  k ≠ "url"%string → key_of (setdefault h row k v) row' = key_of h row'.
Proof. intros. apply url_key_ext. by apply setdefault_field_ne. Qed.

Lemma id_of_setitem_eq h row v : id_of (setitem h row "id" v) row = v.
Proof. unfold id_of. by rewrite setitem_eq, get_insert_eq. Qed.

Lemma id_of_setitem_ne h row row' v :
  row ≠ row' → id_of (setitem h row "id" v) row' = id_of h row'.
Proof. intros. unfold id_of. by rewrite setitem_ne. Qed.

Lemma id_of_setdefault h row row' v :
  id_of (setdefault h row "source" v) row' = id_of h row'.
Proof. unfold id_of. apply get_ext. by apply setdefault_field_ne. Qed.

Lemma is_int_spec v : is_int v = true ↔ ∃ n, as_int v = Some n.
Proof. unfold is_int. rewrite bool_decide_eq_true. unfold is_Some. done. Qed.

Lemma is_int_false v : is_int v = false ↔ as_int v = None.
Proof.
  unfold is_int. rewrite bool_decide_eq_false, <- eq_None_not_Some. done.
Qed.

Lemma same_but_ids_refl h : same_but_ids h h.
Proof. by intros ???. Qed.

Lemma same_but_ids_trans h1 h2 h3 :
  same_but_ids h1 h2 → same_but_ids h2 h3 → same_but_ids h1 h3.
Proof. intros H12 H23 r k ??. by rewrite H23, H12. Qed.

Lemma same_but_ids_setitem h row v : same_but_ids h (setitem h row "id" v).
Proof. intros r k ??. by apply setitem_field_ne. Qed.

Lemma same_but_ids_setdefault h row v :
  same_but_ids h (setdefault h row "source" v).
Proof. intros r k ??. by apply setdefault_field_ne. Qed.

Lemma same_but_ids_key h h' row : same_but_ids h h' → key_of h' row = key_of h row.
Proof. intros E. apply url_key_ext. by apply E. Qed.

(** * The insertion-ordered dictionary *)

Lemma dict_get_set d k v k' :
  dict_get (dict_set d k v) k' = if decide (k = k') then Some v else dict_get d k'.
Proof.
  induction d as [|[k0 v0] d IH]; simpl.
  - repeat case_decide; congruence.
  - destruct (decide (k0 = k)) as [->|]; simpl; rewrite ?IH;
      repeat case_decide; congruence.
Qed.

Lemma dict_set_keys_in d k v : k ∈ d.*1 → (dict_set d k v).*1 = d.*1.
Proof.
  induction d as [|[k0 v0] d IH]; simpl; [by intros ?%elem_of_nil|].
  intros Hin. case_decide; simpl; [done|].
  f_equal. apply IH. apply elem_of_cons in Hin as [?|?]; [simpl in *; congruence|done].
Qed.

Lemma dict_set_keys_notin d k v : k ∉ d.*1 → (dict_set d k v).*1 = d.*1 ++ [k].
Proof.
  induction d as [|[k0 v0] d IH]; simpl; [done|].
  intros Hin. apply not_elem_of_cons in Hin as [? ?].
  case_decide; [congruence|]. simpl. f_equal. by apply IH.
Qed.

Lemma dict_set_keys d k v :
  (dict_set d k v).*1 = if decide (k ∈ d.*1) then d.*1 else d.*1 ++ [k].
Proof.
  case_decide; [by apply dict_set_keys_in | by apply dict_set_keys_notin].
Qed.

Lemma dict_set_NoDup d k v : NoDup d.*1 → NoDup (dict_set d k v).*1.
Proof.
  intros Hd. rewrite dict_set_keys. case_decide; [done|].
  apply NoDup_app. split_and!; [done| |apply NoDup_singleton].
  intros x Hx ->%list_elem_of_singleton. done.
Qed.

Lemma dict_get_None d k : dict_get d k = None ↔ k ∉ d.*1.
Proof.
  induction d as [|[k0 v0] d IH]; simpl.
  - split; [intros _; apply not_elem_of_nil | done].
  - rewrite not_elem_of_cons. simpl. case_decide as Hk.
    + split; [done|]. intros [Hne _]. by destruct Hne.
    + rewrite IH. split; [|by intros [_ ?]]. intros ?. split; [|done].
      by intros ->.
Qed.

Lemma dict_get_Some_elem d k v : dict_get d k = Some v → (k, v) ∈ d.
Proof.
  induction d as [|[k0 v0] d IH]; simpl; [done|].
  case_decide.
  - intros [= ->]. subst. apply list_elem_of_here.
  - intros. apply list_elem_of_further. auto.
Qed.

Lemma dict_elem_get d k v : NoDup d.*1 → (k, v) ∈ d → dict_get d k = Some v.
Proof.
  induction d as [|[k0 v0] d IH]; simpl; [by intros _ ?%elem_of_nil|].
  intros [Hk Hd]%NoDup_cons [E|Hin]%elem_of_cons.
  - injection E as -> ->. by rewrite decide_True.
  - case_decide; [|by apply IH].
    subst. exfalso. apply Hk. apply list_elem_of_fmap. by exists (k, v).
Qed.

Lemma dict_values_elem d v :
  NoDup d.*1 → v ∈ dict_values d ↔ ∃ k, dict_get d k = Some v.
Proof.
  intros Hd. unfold dict_values. rewrite list_elem_of_fmap. split.
  - intros [[k v'] [-> Hin]]. exists k. by apply dict_elem_get.
  - intros [k Hk]. exists (k, v). split; [done|]. by apply dict_get_Some_elem.
Qed.

(** A dictionary is its keys, in order, and what it answers for them. *)
Lemma dict_ext d1 d2 :
  NoDup d1.*1 → d1.*1 = d2.*1 →
  (∀ k, dict_get d1 k = dict_get d2 k) → d1 = d2.
Proof.
  revert d2. induction d1 as [|[k v] d1 IH]; intros [|[k' v'] d2]; simpl; try done.
  intros [Hk Hd]%NoDup_cons [= <- Hkeys] Hget.
  pose proof (Hget k) as Hkk. simpl in Hkk. rewrite !decide_True in Hkk by done.
  injection Hkk as <-. f_equal. apply IH; [done..|].
  intros k0. specialize (Hget k0). simpl in Hget.
  destruct (decide (k = k0)) as [<-|]; [|done].
  assert (dict_get d1 k = None) as -> by by apply dict_get_None.
  symmetry. apply dict_get_None. intros Hin. apply Hk. rewrite Hkeys. exact Hin.
Qed.

(** * The stable descending sort *)

Section sort_lemmas.
Variable key : nat → Z.

Lemma insert_desc_perm x l : insert_desc key x l ≡ₚ x :: l.
Proof.
  induction l as [|y l IH]; simpl; [done|].
  case_match; [done|]. rewrite IH. apply Permutation_swap.
Qed.

Lemma sort_desc_perm l : sort_desc key l ≡ₚ l.
Proof.
  unfold sort_desc.
  enough (∀ acc, foldl (λ acc x, insert_desc key x acc) acc l ≡ₚ acc ++ l) as H
    by apply H.
  induction l as [|x l IH]; intros acc; simpl.
  - by rewrite app_nil_r.
  - rewrite IH, insert_desc_perm. simpl. apply Permutation_middle.
Qed.

Local Abbreviation desc := (desc key).

Lemma insert_desc_sorted x l : desc l → desc (insert_desc key x l).
Proof.
  induction l as [|y l IH]; simpl; intros Hl.
  - repeat constructor.
  - destruct (key y <? key x) eqn:E.
    + constructor; [done|]. constructor. lia.
    + apply Sorted_inv in Hl as [Hl Hy]. constructor; [by apply IH|].
      destruct l as [|z l]; simpl.
      * constructor. lia.
      * case_match; constructor; [lia|]. by apply HdRel_inv in Hy.
Qed.

Lemma sort_desc_sorted l : desc (sort_desc key l).
Proof.
  unfold sort_desc.
  enough (∀ acc, desc acc → desc (foldl (λ acc x, insert_desc key x acc) acc l))
    as H by (apply H; constructor).
  induction l as [|x l IH]; intros acc Hacc; simpl; [done|].
  apply IH. by apply insert_desc_sorted.
Qed.

Lemma insert_desc_last x l :
  Forall (λ y, key x ≤ key y) l → insert_desc key x l = l ++ [x].
Proof.
  induction 1 as [|y l Hy Hl IH]; simpl; [done|].
  destruct (key y <? key x) eqn:E; [lia|]. by rewrite IH.
Qed.

Lemma desc_app_snoc acc x : desc (acc ++ [x]) → Forall (λ y, key x ≤ key y) acc.
Proof.
  induction acc as [|y acc IH]; simpl; [constructor|].
  intros [Hs Hh]%Sorted_inv. specialize (IH Hs).
  constructor; [|done].
  destruct acc as [|z acc]; simpl in *.
  - by apply HdRel_inv in Hh.
  - apply HdRel_inv in Hh. apply Forall_cons in IH as [? _]. lia.
Qed.

Lemma desc_app_l l1 l2 : desc (l1 ++ l2) → desc l1.
Proof.
  induction l1 as [|y l1 IH]; simpl; [constructor|].
  intros [Hs Hh]%Sorted_inv. constructor; [by apply IH|].
  destruct l1; simpl in *; constructor. by apply HdRel_inv in Hh.
Qed.

(** A list already in order is left as it is. *)
Lemma sort_desc_id l : desc l → sort_desc key l = l.
Proof.
  unfold sort_desc.
  enough (∀ acc, desc (acc ++ l) →
            foldl (λ acc x, insert_desc key x acc) acc l = acc ++ l) as H
    by (intros Hl; apply (H [] Hl)).
  induction l as [|x l IH]; intros acc Hs; simpl.
  - by rewrite app_nil_r.
  - rewrite insert_desc_last.
    + rewrite IH; [by rewrite <- app_assoc|]. by rewrite <- app_assoc.
    + apply desc_app_snoc. apply desc_app_l with l. by rewrite <- app_assoc.
Qed.

Lemma sort_desc_idemp l : sort_desc key (sort_desc key l) = sort_desc key l.
Proof. apply sort_desc_id, sort_desc_sorted. Qed.

End sort_lemmas.

Lemma sort_desc_ext key key' l :
  (∀ x, x ∈ l → key x = key' x) → sort_desc key l = sort_desc key' l.
Proof.
  unfold sort_desc. intros H.
  enough (∀ acc, (∀ x, x ∈ acc → key x = key' x) →
     foldl (λ acc x, insert_desc key x acc) acc l
     = foldl (λ acc x, insert_desc key' x acc) acc l) as G
    by (apply G; by intros ? ?%elem_of_nil).
  induction l as [|x l IH]; intros acc Hacc; simpl; [done|].
  assert (insert_desc key x acc = insert_desc key' x acc) as E.
  { assert (key x = key' x) as Hx by (apply H; left).
    clear IH. induction acc as [|y acc IHa]; simpl; [done|].
    rewrite (Hacc y) by left. rewrite Hx. case_match; [done|].
    f_equal. apply IHa. intros; apply Hacc. by right. }
  rewrite E. apply IH.
  - intros; apply H. by right.
  - intros y Hy. rewrite <- E in Hy.
    rewrite (insert_desc_perm key x acc) in Hy.
    apply elem_of_cons in Hy as [->|?]; [apply H; left | by apply Hacc].
Qed.

(** * Loops as folds *)

Lemma foldl_inv {A B} (P : A → Prop) (f : A → B → A) (l : list B) (a : A) :
  P a → (∀ a x, x ∈ l → P a → P (f a x)) → P (foldl f a l).
Proof.
  revert a. induction l as [|x l IH]; intros a Ha Hf; simpl; [done|].
  apply IH.
  - apply Hf; [left|done].
  - intros a' y Hy. apply Hf. by right.
Qed.

(** * [merge_jobs_by_url] *)

Section merge_lemmas.
Variable keep : record → bool.
Variable source : option str.
Local Abbreviation seed_inv := (seed_inv keep).
Local Abbreviation overlay_step := (overlay_step keep).
Local Abbreviation enters := (enters keep).
Local Abbreviation merge_facts := (merge_facts keep source).

(** ** First loop *)

Lemma raise_max_id_le h m row : m ≤ raise_max_id h m row.
Proof. unfold raise_max_id. repeat case_match; lia. Qed.

Lemma max_id_le h current m : m ≤ foldl (raise_max_id h) m current.
Proof.
  revert m. induction current as [|x l IH]; intros m; simpl; [lia|].
  etrans; [apply (raise_max_id_le h m x)|apply IH].
Qed.

Lemma max_id_bound h current m row n :
  row ∈ current → as_int (id_of h row) = Some n →
  n ≤ foldl (raise_max_id h) m current.
Proof.
  revert m. induction current as [|x l IH]; intros m Hin Hn; simpl.
  - by apply elem_of_nil in Hin.
  - apply elem_of_cons in Hin as [->|Hin]; [|by apply IH].
    etrans; [|apply max_id_le]. unfold raise_max_id. fold (id_of h x).
    rewrite Hn. case_match; lia.
Qed.

(** ** Second loop *)

Lemma seed_step h current d row :
  row ∈ current → seed_inv h current d → seed_inv h current (seed keep h d row).
Proof.
  intros Hin [Hnd Hkey]. unfold seed. fold (key_of h row).
  case_bool_decide as Hk; [done|].
  destruct (keep (h !!! row)) eqn:Hkeep; simpl; [|done].
  split; [by apply dict_set_NoDup|].
  intros k r. rewrite dict_get_set. case_decide as E; [|by apply Hkey].
  intros [= <-]. by subst.
Qed.

Lemma seed_spec h current :
  seed_inv h current (foldl (seed keep h) [] current).
Proof.
  apply (foldl_inv (seed_inv h current)).
  - split; [constructor|done].
  - intros d x Hx Hd. by apply seed_step.
Qed.

Lemma seed_keys_mono h d row k : k ∈ d.*1 → k ∈ (seed keep h d row).*1.
Proof.
  intros Hk. unfold seed. repeat case_match; try done.
  rewrite dict_set_keys. case_decide; [done|]. apply elem_of_app. by left.
Qed.

Lemma seed_fold_keys_mono h l d k :
  k ∈ d.*1 → k ∈ (foldl (seed keep h) d l).*1.
Proof.
  revert d. induction l as [|x l IH]; intros d Hk; simpl; [done|].
  by apply IH, seed_keys_mono.
Qed.

(** Every row of [current] that has a URL and passes the gate is seeded. *)
Lemma seed_complete h current row :
  row ∈ current → key_of h row ≠ [] → keep (h !!! row) = true →
  key_of h row ∈ (foldl (seed keep h) [] current).*1.
Proof.
  intros Hin Hk Hkeep. generalize (@nil (str * nat)).
  induction current as [|x l IH]; intros d; simpl.
  - by apply elem_of_nil in Hin.
  - apply elem_of_cons in Hin as [<-|Hin]; [|by apply IH].
    apply seed_fold_keys_mono. unfold seed. fold (key_of h row).
    rewrite bool_decide_eq_false_2 by done. rewrite Hkeep. simpl.
    rewrite dict_set_keys. case_decide; [done|].
    apply elem_of_app. right. apply list_elem_of_singleton. done.
Qed.

(** Rows with distinct URLs, all passing the gate, are seeded one entry each,
    in order. *)
Lemma seed_distinct h l d :
  NoDup (d.*1 ++ (key_of h <$> l)) →
  Forall (λ row, key_of h row ≠ [] ∧ keep (h !!! row) = true) l →
  foldl (seed keep h) d l = d ++ ((λ row, (key_of h row, row)) <$> l).
Proof.
  revert d. induction l as [|x l IH]; intros d Hnd Hl; simpl.
  - by rewrite app_nil_r.
  - apply Forall_cons in Hl as [[Hk Hkeep] Hl].
    assert (seed keep h d x = d ++ [(key_of h x, x)]) as ->.
    { unfold seed. fold (key_of h x).
      rewrite bool_decide_eq_false_2 by done. rewrite Hkeep. simpl.
      apply NoDup_app in Hnd as (_ & Hdis & _).
      clear -Hdis. induction d as [|[k0 v0] d IHd]; simpl; [done|].
      case_decide as E.
      - exfalso. apply (Hdis k0); [left|]. rewrite fmap_cons, E. left.
      - f_equal. apply IHd. intros k Hin. apply Hdis. by right. }
    rewrite IH.
    + by rewrite <- app_assoc.
    + rewrite fmap_app. simpl. rewrite <- app_assoc. exact Hnd.
    + done.
Qed.

(** ** Third loop *)

Lemma overlay_step_intro st row : overlay_step st row (overlay keep st row).
Proof.
  unfold overlay. fold (key_of (st_heap st) row).
  case_bool_decide as Hk; [by constructor; left|].
  destruct (keep (st_heap st !!! row)) eqn:Hkeep; simpl;
    [|by constructor; right].
  destruct (dict_get (st_merged st) (key_of (st_heap st) row)) as [e|] eqn:He.
  - fold (id_of (st_heap st) e).
    destruct (nonempty (st_heap st !!! e)) eqn:Hne; simpl.
    + destruct (is_int (id_of (st_heap st) e)) eqn:Hint.
      * by eapply overlay_carry.
      * apply overlay_next; [done..|]. intros ? Hx. rewrite He in Hx.
        injection Hx as <-. by right.
    + apply overlay_next; [done..|]. intros ? Hx. rewrite He in Hx.
      injection Hx as <-. by left.
  - apply overlay_next; [done..|]. intros ? Hx. by rewrite He in Hx.
Qed.

(** The entries after a round that wrote [v] as the id of [row]. *)
Lemma overlay_entry h current fresh m0 st row v m k1 r1 :
  ov_inv h current fresh m0 st →
  dict_get (dict_set (st_merged st) (key_of (st_heap st) row) row) k1 = Some r1 →
  let st' := MergeState (setitem (st_heap st) row "id" v)
               (dict_set (st_merged st) (key_of (st_heap st) row) row) m in
  (k1 = key_of (st_heap st) row ∧ r1 = row ∧ id_of (st_heap st') r1 = v)
  ∨ (k1 ≠ key_of (st_heap st) row ∧ dict_get (st_merged st) k1 = Some r1
     ∧ id_of (st_heap st') r1 = id_of (st_heap st) r1).
Proof.
  intros Hinv. rewrite dict_get_set. case_decide as E.
  - intros [= <-]. left. simpl. by rewrite id_of_setitem_eq.
  - intros Hr1. right. simpl. split_and!; [done..|].
    apply id_of_setitem_ne. intros <-.
    destruct (ov_key _ _ _ _ _ Hinv _ _ Hr1) as (Hk & _).
    rewrite <- (same_but_ids_key _ _ row (ov_same _ _ _ _ _ Hinv)) in Hk.
    congruence.
Qed.

Lemma ov_inv_step h current fresh m0 st row :
  row ∈ fresh → ov_inv h current fresh m0 st →
  ov_inv h current fresh m0 (overlay keep st row).
Proof.
  intros Hin Hinv.
  destruct (overlay_step_intro st row) as [?|e Hk Hkeep He Hne Hint|Hk Hkeep He];
    [done|..].
  - (* the id of the entry is carried over *)
    split; simpl.
    + eapply same_but_ids_trans; [apply Hinv|apply same_but_ids_setitem].
    + apply dict_set_NoDup, Hinv.
    + intros k r. rewrite dict_get_set. case_decide as E; [|by apply Hinv].
      intros [= <-]. subst k.
      rewrite (same_but_ids_key _ _ row (ov_same _ _ _ _ _ Hinv)) in Hk |- *.
      split_and!; auto.
    + apply Hinv.
    + intros k r n Hr.
      destruct (overlay_entry _ _ _ _ _ _ (id_of (st_heap st) e) (st_max_id st)
                  _ _ Hinv Hr) as [(-> & -> & Hid)|(_ & Hr' & Hid)];
        simpl in Hid; rewrite Hid; intros Hn.
      * by eapply (ov_bound _ _ _ _ _ Hinv).
      * by eapply (ov_bound _ _ _ _ _ Hinv).
    + intros k r Hr Hnew.
      destruct (overlay_entry _ _ _ _ _ _ (id_of (st_heap st) e) (st_max_id st)
                  _ _ Hinv Hr) as [(-> & -> & Hid)|(_ & Hr' & Hid)];
        simpl in Hid; rewrite Hid.
      * by eapply (ov_new _ _ _ _ _ Hinv).
      * by eapply (ov_new _ _ _ _ _ Hinv).
  - (* the next id is given *)
    pose proof (ov_max _ _ _ _ _ Hinv) as Hmax.
    split; simpl.
    + eapply same_but_ids_trans; [apply Hinv|apply same_but_ids_setitem].
    + apply dict_set_NoDup, Hinv.
    + intros k r. rewrite dict_get_set. case_decide as E; [|by apply Hinv].
      intros [= <-]. subst k.
      rewrite (same_but_ids_key _ _ row (ov_same _ _ _ _ _ Hinv)) in Hk |- *.
      split_and!; auto.
    + lia.
    + intros k r n Hr.
      destruct (overlay_entry _ _ _ _ _ _ (VInt (st_max_id st + 1))
                  (st_max_id st + 1) _ _ Hinv Hr)
        as [(-> & -> & Hid)|(_ & Hr' & Hid)];
        simpl in Hid; rewrite Hid; intros Hn.
      * simpl in Hn. injection Hn as <-. lia.
      * pose proof (ov_bound _ _ _ _ _ Hinv _ _ _ Hr' Hn). lia.
    + intros k r Hr Hnew.
      destruct (overlay_entry _ _ _ _ _ _ (VInt (st_max_id st + 1))
                  (st_max_id st + 1) _ _ Hinv Hr)
        as [(-> & -> & Hid)|(_ & Hr' & Hid)];
        simpl in Hid; rewrite Hid.
      * eexists. split; [done|]. lia.
      * by eapply (ov_new _ _ _ _ _ Hinv).
Qed.

Lemma ov_inv_init h current fresh :
  ov_inv h current fresh (foldl (raise_max_id h) 0 current)
    (MergeState h (foldl (seed keep h) [] current)
                (foldl (raise_max_id h) 0 current)).
Proof.
  destruct (seed_spec h current) as [Hnd Hkey].
  split; simpl.
  - apply same_but_ids_refl.
  - done.
  - intros k r Hr. destruct (Hkey _ _ Hr) as (? & ? & ? & ?). auto.
  - lia.
  - intros k r n Hr Hn. destruct (Hkey _ _ Hr) as (? & _).
    by eapply max_id_bound.
  - intros k r Hr Hnew. destruct (Hkey _ _ Hr) as (Hin & Hk & _).
    by destruct (Hnew _ Hin).
Qed.

Lemma ov_inv_overlay h current fresh :
  ov_inv h current fresh (foldl (raise_max_id h) 0 current)
    (merge_overlay keep h current fresh).
Proof.
  unfold merge_overlay.
  apply (foldl_inv (ov_inv h current fresh (foldl (raise_max_id h) 0 current))).
  - apply ov_inv_init.
  - intros st x Hx Hst. by apply ov_inv_step.
Qed.

Lemma overlay_keys_mono st row k :
  k ∈ (st_merged st).*1 → k ∈ (st_merged (overlay keep st row)).*1.
Proof.
  intros Hk. destruct (overlay_step_intro st row); simpl; [done|..];
    rewrite dict_set_keys; case_decide; try done; apply elem_of_app; by left.
Qed.

Lemma overlay_fold_keys_mono l st k :
  k ∈ (st_merged st).*1 → k ∈ (st_merged (foldl (overlay keep) st l)).*1.
Proof.
  revert st. induction l as [|x l IH]; intros st Hk; simpl; [done|].
  by apply IH, overlay_keys_mono.
Qed.

Lemma ids_inv_step h current fresh m0 st row :
  0 ≤ m0 → ov_inv h current fresh m0 st →
  ids_inv st → ids_inv (overlay keep st row).
Proof.
  intros Hm0 Hinv [Hpos Hinj].
  pose proof (ov_max _ _ _ _ _ Hinv) as Hmax.
  destruct (overlay_step_intro st row) as [?|e Hk Hkeep He Hne Hint|Hk Hkeep He];
    [done|..].
  - split; simpl.
    + intros k r n Hr.
      destruct (overlay_entry _ _ _ _ _ _ (id_of (st_heap st) e) (st_max_id st)
                  _ _ Hinv Hr) as [(-> & -> & Hid)|(_ & Hr' & Hid)];
        simpl in Hid; rewrite Hid; intros Hn; by eapply Hpos.
    + intros k1 k2 r1 r2 n Hr1 Hr2.
      destruct (overlay_entry _ _ _ _ _ _ (id_of (st_heap st) e) (st_max_id st)
                  _ _ Hinv Hr1) as [(-> & -> & Hid1)|(Hne1 & Hr1' & Hid1)];
      destruct (overlay_entry _ _ _ _ _ _ (id_of (st_heap st) e) (st_max_id st)
                  _ _ Hinv Hr2) as [(-> & -> & Hid2)|(Hne2 & Hr2' & Hid2)];
        simpl in Hid1, Hid2; rewrite ?Hid1, ?Hid2; intros Hn1 Hn2; try done.
      * by eapply (Hinj _ _ e r2).
      * by eapply (Hinj _ _ r1 e).
      * by eapply (Hinj _ _ r1 r2).
  - split; simpl.
    + intros k r n Hr.
      destruct (overlay_entry _ _ _ _ _ _ (VInt (st_max_id st + 1))
                  (st_max_id st + 1) _ _ Hinv Hr)
        as [(-> & -> & Hid)|(_ & Hr' & Hid)];
        simpl in Hid; rewrite Hid; intros Hn.
      * injection Hn as <-. lia.
      * by eapply Hpos.
    + intros k1 k2 r1 r2 n Hr1 Hr2.
      destruct (overlay_entry _ _ _ _ _ _ (VInt (st_max_id st + 1))
                  (st_max_id st + 1) _ _ Hinv Hr1)
        as [(-> & -> & Hid1)|(Hne1 & Hr1' & Hid1)];
      destruct (overlay_entry _ _ _ _ _ _ (VInt (st_max_id st + 1))
                  (st_max_id st + 1) _ _ Hinv Hr2)
        as [(-> & -> & Hid2)|(Hne2 & Hr2' & Hid2)];
        simpl in Hid1, Hid2; rewrite ?Hid1, ?Hid2; intros Hn1 Hn2; try done.
      * injection Hn1 as <-.
        pose proof (ov_bound _ _ _ _ _ Hinv _ _ _ Hr2' Hn2). lia.
      * injection Hn2 as <-.
        pose proof (ov_bound _ _ _ _ _ Hinv _ _ _ Hr1' Hn1). lia.
      * by eapply (Hinj _ _ r1 r2).
Qed.

(** ** Fourth loop *)

Lemma backfill_one h m x :
  let res := backfill source (h, m) x in
  m ≤ res.2 ∧ same_but_ids h res.1 ∧ (∀ r, r ≠ x → res.1 !!! r = h !!! r)
  ∧ (∀ s, source = Some s → is_Some ((res.1 !!! x) !! "source"%string))
  ∧ ((∃ n, as_int (id_of h x) = Some n ∧ id_of res.1 x = id_of h x
           ∧ res.2 = m)
     ∨ (as_int (id_of h x) = None ∧ id_of res.1 x = VInt (m + 1)
        ∧ res.2 = m + 1)).
Proof.
  unfold backfill. simpl.
  set (h' := match source with
             | Some s => setdefault h x "source" (VStr s)
             | None => h
             end).
  assert (same_but_ids h h') as Hsame.
  { unfold h'. destruct source; [apply same_but_ids_setdefault|].
    apply same_but_ids_refl. }
  assert (∀ r, r ≠ x → h' !!! r = h !!! r) as Hne.
  { intros r Hr. unfold h'. destruct source; [|done].
    by apply setdefault_ne. }
  assert (id_of h' x = id_of h x) as Hid.
  { unfold h'. destruct source; [|done]. apply id_of_setdefault. }
  assert (∀ s, source = Some s → is_Some ((h' !!! x) !! "source"%string)) as Hsrc.
  { intros s Hs. unfold h'. rewrite Hs. apply setdefault_is_Some. }
  fold (id_of h' x). rewrite Hid.
  destruct (is_int (id_of h x)) eqn:Hint; simpl.
  - apply is_int_spec in Hint as [n Hn].
    split_and!; [lia|done..|]. left. eauto.
  - apply is_int_false in Hint.
    split_and!.
    + lia.
    + eapply same_but_ids_trans; [done|apply same_but_ids_setitem].
    + intros r Hr. rewrite setitem_ne by done. by apply Hne.
    + intros s Hs. rewrite setitem_field_ne by done. by eapply Hsrc.
    + right. split_and!; [done| |done]. apply id_of_setitem_eq.
Qed.

Lemma backfill_spec vals : NoDup vals → ∀ h m,
  let res := foldl (backfill source) (h, m) vals in
  m ≤ res.2
  ∧ same_but_ids h res.1
  ∧ (∀ r, r ∉ vals → res.1 !!! r = h !!! r)
  ∧ (∀ r, r ∈ vals →
       (∀ n, as_int (id_of h r) = Some n → id_of res.1 r = id_of h r)
       ∧ (as_int (id_of h r) = None →
          ∃ n, id_of res.1 r = VInt n ∧ m < n ≤ res.2)
       ∧ (∀ s, source = Some s →
          is_Some ((res.1 !!! r) !! "source"%string)))
  ∧ (∀ r1 r2, r1 ∈ vals → r2 ∈ vals →
       as_int (id_of h r1) = None → as_int (id_of h r2) = None →
       as_int (id_of res.1 r1) = as_int (id_of res.1 r2) → r1 = r2).
Proof.
  induction 1 as [|x l Hx Hl IH]; intros h m; simpl.
  - split_and!; [lia|apply same_but_ids_refl|done| |];
      intros; exfalso; by eapply not_elem_of_nil.
  - destruct (backfill_one h m x) as (Hm & Hsame & Hne & Hsrc & Hidx).
    destruct (backfill source (h, m) x) as [h' m'] eqn:E. simpl in *.
    destruct (IH h' m') as (Hm' & Hsame' & Hne' & Hin' & Hinj').
    set (res := foldl (backfill source) (h', m') l) in *.
    assert (∀ r, r ∈ l → id_of h' r = id_of h r) as Hrest.
    { intros r Hr. unfold id_of. rewrite Hne; [done|]. by intros ->. }
    assert (id_of res.1 x = id_of h' x) as Hresx.
    { unfold id_of. by rewrite Hne'. }
    split_and!.
    + lia.
    + by eapply same_but_ids_trans.
    + intros r [Hrx Hrl]%not_elem_of_cons. rewrite Hne' by done. by apply Hne.
    + intros r [->|Hr]%elem_of_cons.
      * split_and!.
        -- intros n Hn. rewrite Hresx.
           destruct Hidx as [(n' & _ & -> & _)|(Hnone & _)]; [done|congruence].
        -- intros Hnone. rewrite Hresx.
           destruct Hidx as [(n' & Hn' & _)|(_ & -> & Hm1)]; [congruence|].
           eexists. split; [done|]. lia.
        -- intros s Hs. rewrite Hne' by done. by eapply Hsrc.
      * destruct (Hin' r Hr) as (Hi1 & Hi2 & Hi3). split_and!.
        -- intros n Hn. rewrite <- (Hrest r Hr) in Hn |- *. by eapply Hi1.
        -- intros Hnone. rewrite <- (Hrest r Hr) in Hnone.
           destruct (Hi2 Hnone) as (n & Hn & ?). exists n. split; [done|]. lia.
        -- done.
    + intros r1 r2 [->|Hr1]%elem_of_cons [->|Hr2]%elem_of_cons Hn1 Hn2; try done.
      * rewrite Hresx. rewrite <- (Hrest r2 Hr2) in Hn2.
        destruct (Hin' r2 Hr2) as (_ & Hi2 & _).
        destruct (Hi2 Hn2) as (n & -> & ?).
        destruct Hidx as [(n' & Hn' & _)|(_ & -> & Hm1)]; [congruence|].
        simpl. intros [= ?]. lia.
      * rewrite Hresx. rewrite <- (Hrest r1 Hr1) in Hn1.
        destruct (Hin' r1 Hr1) as (_ & Hi2 & _).
        destruct (Hi2 Hn1) as (n & -> & ?).
        destruct Hidx as [(n' & Hn' & _)|(_ & -> & Hm1)]; [congruence|].
        simpl. intros [= ?]. lia.
      * rewrite <- (Hrest r1 Hr1) in Hn1. rewrite <- (Hrest r2 Hr2) in Hn2.
        by apply Hinj'.
Qed.

(** ** The whole function *)

Lemma dict_keys_values (f : nat → str) (d : dict) :
  (∀ k r, (k, r) ∈ d → f r = k) → d.*1 = f <$> dict_values d.
Proof.
  unfold dict_values. induction d as [|[k r] d IH]; intros Hf; [done|].
  rewrite !fmap_cons. simpl. f_equal.
  - symmetry. apply Hf. left.
  - apply IH. intros k' r' Hin. apply Hf. by right.
Qed.

Lemma ids_inv_overlay h current fresh :
  (∀ c n, c ∈ current → enters h c → as_int (id_of h c) = Some n → 0 < n) →
  (∀ c1 c2 n, c1 ∈ current → c2 ∈ current → enters h c1 → enters h c2 →
     as_int (id_of h c1) = Some n → as_int (id_of h c2) = Some n →
     key_of h c1 = key_of h c2) →
  ids_inv (merge_overlay keep h current fresh).
Proof.
  intros Hpos Hinj. unfold merge_overlay.
  set (m0 := foldl (raise_max_id h) 0 current).
  set (st0 := MergeState h (foldl (seed keep h) [] current) m0).
  enough (ov_inv h current fresh m0 (foldl (overlay keep) st0 fresh)
          ∧ ids_inv (foldl (overlay keep) st0 fresh)) as [_ ?] by done.
  apply (foldl_inv (λ st, ov_inv h current fresh m0 st ∧ ids_inv st)).
  - split; [apply ov_inv_init|].
    destruct (seed_spec h current) as [Hnd Hkey]. split; simpl.
    + intros k r n Hr Hn. destruct (Hkey _ _ Hr) as (? & ? & ? & ?).
      eapply Hpos; [done| |done]. split; congruence.
    + intros k1 k2 r1 r2 n Hr1 Hr2 Hn1 Hn2.
      destruct (Hkey _ _ Hr1) as (? & <- & ? & ?).
      destruct (Hkey _ _ Hr2) as (? & <- & ? & ?).
      by eapply Hinj.
  - intros st x Hx [Hov Hids]. split; [by apply ov_inv_step|].
    eapply ids_inv_step; [|done..]. apply max_id_le.
Qed.

Lemma merge_facts_intro h current fresh :
  let res := merge_jobs_by_url keep source h current fresh in
  merge_facts h current fresh res.1 res.2
    (st_merged (merge_overlay keep h current fresh))
    (foldl (raise_max_id h) 0 current).
Proof.
  unfold merge_jobs_by_url. simpl.
  pose proof (ov_inv_overlay h current fresh) as Hov.
  set (st := merge_overlay keep h current fresh) in *.
  set (m0 := foldl (raise_max_id h) 0 current) in *.
  assert (∀ k r, (k, r) ∈ st_merged st → key_of h r = k) as Hkeys.
  { intros k r Hin. apply (ov_key _ _ _ _ _ Hov).
    apply dict_elem_get; [apply Hov|done]. }
  assert (NoDup (dict_values (st_merged st))) as Hnd.
  { apply (NoDup_fmap_1 (key_of h)).
    rewrite <- (dict_keys_values _ _ Hkeys). apply Hov. }
  destruct (backfill_spec _ Hnd (st_heap st) (st_max_id st))
    as (Hm & Hsame & Hout & Hin & Hfresh).
  set (res := foldl (backfill source) (st_heap st, st_max_id st)
                    (dict_values (st_merged st))) in *.
  assert (same_but_ids h res.1) as Hsame1.
  { eapply same_but_ids_trans; [apply Hov|done]. }
  assert (∀ k r, dict_get (st_merged st) k = Some r →
            r ∈ dict_values (st_merged st)) as Hval.
  { intros k r Hr. apply dict_values_elem; [apply Hov|]. eauto. }
  assert (∀ k r, dict_get (st_merged st) k = Some r →
     (∃ n, as_int (id_of (st_heap st) r) = Some n
           ∧ id_of res.1 r = id_of (st_heap st) r)
     ∨ (as_int (id_of (st_heap st) r) = None
        ∧ ∃ n, id_of res.1 r = VInt n ∧ st_max_id st < n)) as Hcase.
  { intros k r Hr. destruct (Hin r (Hval _ _ Hr)) as (Hi1 & Hi2 & _).
    destruct (as_int (id_of (st_heap st) r)) as [n|] eqn:E.
    - left. exists n. split; [done|]. by eapply Hi1.
    - right. split; [done|]. destruct (Hi2 eq_refl) as (n & ? & ?).
      exists n. split; [done|]. lia. }
  pose proof (ov_max _ _ _ _ _ Hov) as Hmax.
  split.
  - done.
  - apply sort_desc_perm.
  - apply Hov.
  - apply dict_keys_values. intros k r Hkr.
    rewrite (same_but_ids_key _ _ r Hsame1). by apply Hkeys.
  - apply max_id_le.
  - intros c n Hc Hn. by eapply max_id_bound.
  - intros k r Hr. destruct (ov_key _ _ _ _ _ Hov _ _ Hr) as (? & ? & ?).
    split_and!; [done..|].
    destruct (Hcase _ _ Hr) as [(n & Hn & ->)|(_ & n & -> & _)]; eauto.
  - intros k r Hr Hnew.
    destruct (ov_new _ _ _ _ _ Hov _ _ Hr Hnew) as (n & Hn & ?).
    exists n. split; [|done].
    destruct (Hcase _ _ Hr) as [(n' & _ & ->)|(Hnone & _)]; [done|].
    by rewrite Hn in Hnone.
  - intros c Hc [Hk Hkeep].
    apply overlay_fold_keys_mono. simpl. by apply seed_complete.
  - intros k r s Hr Hs. destruct (Hin r (Hval _ _ Hr)) as (_ & _ & Hi3).
    by eapply Hi3.
  - intros [Hpos Hinj].
    destruct (ids_inv_overlay h current fresh Hpos Hinj) as [Hp Hi].
    fold st in Hp, Hi. split.
    + intros k r n Hr.
      destruct (Hcase _ _ Hr) as [(n' & Hn' & ->)|(_ & n' & -> & ?)].
      * by eapply Hp.
      * simpl. intros [= <-]. pose proof (max_id_le h current 0) as Hm0.
        fold m0 in Hm0. lia.
    + intros k1 k2 r1 r2 n Hr1 Hr2.
      destruct (Hcase _ _ Hr1) as [(n1 & Hn1 & E1)|(Hnone1 & n1 & E1 & ?)];
      destruct (Hcase _ _ Hr2) as [(n2 & Hn2 & E2)|(Hnone2 & n2 & E2 & ?)].
      * rewrite E1, E2. by eapply Hi.
      * rewrite E1, E2, Hn1. simpl. intros [= <-] [= <-].
        pose proof (ov_bound _ _ _ _ _ Hov _ _ _ Hr1 Hn1). lia.
      * rewrite E1, E2, Hn2. simpl. intros [= <-] [= E].
        pose proof (ov_bound _ _ _ _ _ Hov _ _ _ Hr2 Hn2). lia.
      * intros Hn1 Hn2.
        assert (r1 = r2) as <-.
        { apply Hfresh; [by eapply Hval..|done|done|congruence]. }
        destruct (ov_key _ _ _ _ _ Hov _ _ Hr1) as (<- & _).
        by destruct (ov_key _ _ _ _ _ Hov _ _ Hr2) as (<- & _).
Qed.

End merge_lemmas.

(** * Merging twice *)

Lemma dict_get_perm (d1 d2 : dict) k :
  d1 ≡ₚ d2 → NoDup d1.*1 → dict_get d1 k = dict_get d2 k.
Proof.
  intros Hp Hnd. destruct (dict_get d2 k) as [v|] eqn:E.
  - apply dict_elem_get; [done|]. rewrite Hp. by apply dict_get_Some_elem.
  - apply dict_get_None. apply dict_get_None in E. by rewrite Hp.
Qed.

Lemma get_is_int_lookup (row : record) k :
  is_int (get row k) = true → row !! k = Some (get row k).
Proof.
  unfold get. destruct (row !! k); [done|]. simpl. by intros [? ?]%is_int_spec.
Qed.

Lemma is_int_nonempty h row :
  is_int (id_of h row) = true → nonempty (h !!! row) = true.
Proof.
  intros Hint%get_is_int_lookup. unfold nonempty.
  apply negb_true_iff, bool_decide_eq_false.
  intros E%map_size_empty_iff. rewrite E in Hint. by rewrite lookup_empty in Hint.
Qed.

(** Writing what is already there changes nothing. *)
Lemma setitem_same h row k v :
  is_Some (h !! row) → (h !!! row) !! k = Some v → setitem h row k v = h.
Proof.
  intros Hdom Hv. unfold setitem. rewrite (insert_id (h !!! row)) by done.
  apply insert_id. by apply lookup_lookup_total.
Qed.

Lemma setitem_dom h row k v r : is_Some (h !! r) → is_Some (setitem h row k v !! r).
Proof.
  intros Hr. unfold setitem. destruct (decide (row = r)) as [->|].
  - rewrite lookup_insert_eq. eauto.
  - by rewrite lookup_insert_ne.
Qed.

Lemma setitem_dom_self h row k v : is_Some (setitem h row k v !! row).
Proof. unfold setitem. rewrite lookup_insert_eq. eauto. Qed.

Lemma setdefault_dom h row k v r :
  is_Some (h !! r) → is_Some (setdefault h row k v !! r).
Proof.
  intros Hr. unfold setdefault. destruct ((h !!! row) !! k); [done|].
  by apply setitem_dom.
Qed.

Section twice.
Variable keep : record → bool.
Variable source : option str.
(** The gate does not look at the fields the merge writes. *)
Hypothesis keep_stable : ∀ row row' : record,
  (∀ k, k ≠ "id"%string → k ≠ "source"%string → row' !! k = row !! k) →
  keep row' = keep row.

Local Abbreviation touch := (touch keep).
Local Abbreviation settled := (settled keep).

Lemma keep_same h h' row :
  same_but_ids h h' → keep (h' !!! row) = keep (h !!! row).
Proof. intros E. apply keep_stable. intros k ??. by apply E. Qed.

Lemma backfill_dom l : ∀ h m r,
  is_Some (h !! r) → is_Some ((foldl (backfill source) (h, m) l).1 !! r).
Proof.
  induction l as [|x l IH]; intros h m r Hr; simpl; [done|].
  destruct (backfill source (h, m) x) as [h' m'] eqn:E. apply IH.
  unfold backfill in E. simpl in E.
  destruct (is_int _) in E; injection E as <- <-;
    destruct source; auto using setitem_dom, setdefault_dom.
Qed.

(** ** The entry of a URL after the third loop: the last row of [fresh] with
    that URL that entered, or the entry it had *)

Lemma overlay_same h st row :
  same_but_ids h (st_heap st) → same_but_ids h (st_heap (overlay keep st row)).
Proof.
  intros Hs. destruct (overlay_step_intro keep st row); simpl; [done|..];
    (eapply same_but_ids_trans; [done|apply same_but_ids_setitem]).
Qed.

Lemma overlay_get h st row k :
  same_but_ids h (st_heap st) →
  dict_get (st_merged (overlay keep st row)) k
  = touch h k (dict_get (st_merged st) k) row.
Proof.
  intros Hs. unfold touch.
  rewrite <- (same_but_ids_key _ _ row Hs), <- (keep_same _ _ row Hs).
  destruct (overlay_step_intro keep st row) as [[Hk|Hk]|e Hk Hkeep _ _ _|Hk Hkeep _];
    simpl.
  - rewrite bool_decide_eq_false_2; [done|]. by intros (? & _).
  - rewrite bool_decide_eq_false_2; [done|]. intros (_ & ? & _). congruence.
  - rewrite dict_get_set. case_decide.
    + by rewrite bool_decide_eq_true_2.
    + rewrite bool_decide_eq_false_2; [done|]. by intros (_ & _ & ?).
  - rewrite dict_get_set. case_decide.
    + by rewrite bool_decide_eq_true_2.
    + rewrite bool_decide_eq_false_2; [done|]. by intros (_ & _ & ?).
Qed.

Lemma overlay_fold_get h l : ∀ st k,
  same_but_ids h (st_heap st) →
  dict_get (st_merged (foldl (overlay keep) st l)) k
  = foldl (touch h k) (dict_get (st_merged st) k) l.
Proof.
  induction l as [|x l IH]; intros st k Hs; simpl; [done|].
  rewrite IH by by apply overlay_same. by rewrite (overlay_get h).
Qed.

Lemma touch_fold_cases h k l :
  (∀ a b, foldl (touch h k) a l = foldl (touch h k) b l)
  ∨ (∀ a, foldl (touch h k) a l = a).
Proof.
  induction l as [|x l IH]; simpl; [by right|].
  destruct IH as [IH|IH]; [left; intros; apply IH|].
  destruct (bool_decide (key_of h x ≠ [] ∧ keep (h !!! x) = true
                         ∧ key_of h x = k)) eqn:E.
  - left. intros a b. rewrite !IH. unfold touch. by rewrite E.
  - right. intros a. rewrite IH. unfold touch. by rewrite E.
Qed.

Lemma touch_fold_idemp h k l a :
  foldl (touch h k) (foldl (touch h k) a l) l = foldl (touch h k) a l.
Proof. destruct (touch_fold_cases h k l) as [H|H]; [apply H|by rewrite !H]. Qed.

Lemma touch_ext h h' k l a :
  same_but_ids h h' → foldl (touch h' k) a l = foldl (touch h k) a l.
Proof.
  intros Hs. revert a. induction l as [|x l IH]; intros a; simpl; [done|].
  rewrite IH. f_equal. unfold touch.
  by rewrite (same_but_ids_key _ _ x Hs), (keep_same _ _ x Hs).
Qed.

(** ** What the first call leaves for the rows of [fresh] *)

Lemma settled_step h current fresh m0 st x row :
  ov_inv h current fresh m0 st →
  settled h (st_heap st) (st_merged st) row →
  settled h (st_heap (overlay keep st x)) (st_merged (overlay keep st x)) row.
Proof.
  intros Hov Hrow Hk Hkeep. destruct (Hrow Hk Hkeep) as (e & He & Hdom & Hid & Hint).
  pose proof (ov_same _ _ _ _ _ Hov) as Hs.
  destruct (ov_key _ _ _ _ _ Hov _ _ He) as (Hke & _).
  destruct (overlay_step_intro keep st x) as [?|e' Hkx Hkeepx He' Hne' Hint'|Hkx Hkeepx He'];
    simpl; [by exists e|..].
  - (* carried over *)
    rewrite (same_but_ids_key _ _ x Hs) in He', Hkx |- *.
    destruct (decide (key_of h x = key_of h row)) as [E|E].
    + rewrite E in He'. assert (e' = e) as -> by congruence.
      exists x. rewrite dict_get_set, decide_True by done.
      rewrite id_of_setitem_eq. split_and!; [done| | |done].
      * destruct (decide (x = row)) as [->|]; [apply setitem_dom_self|].
        by apply setitem_dom.
      * destruct (decide (x = row)) as [->|]; [by rewrite id_of_setitem_eq|].
        by rewrite id_of_setitem_ne.
    + exists e. rewrite dict_get_set, decide_False by done.
      assert (x ≠ row) by (intros ->; done).
      assert (x ≠ e) by (intros ->; congruence).
      rewrite !id_of_setitem_ne by done.
      split_and!; [done| |done..]. by apply setitem_dom.
  - (* the next id *)
    rewrite (same_but_ids_key _ _ x Hs) in He', Hkx |- *.
    destruct (decide (key_of h x = key_of h row)) as [E|E].
    + rewrite E in He'. destruct (He' _ He) as [Hne|Hni]; [|congruence].
      by rewrite (is_int_nonempty _ _ Hint) in Hne.
    + exists e. rewrite dict_get_set, decide_False by done.
      assert (x ≠ row) by (intros ->; done).
      assert (x ≠ e) by (intros ->; congruence).
      rewrite !id_of_setitem_ne by done.
      split_and!; [done| |done..]. by apply setitem_dom.
Qed.

Lemma settled_self h current fresh m0 st x :
  ov_inv h current fresh m0 st →
  settled h (st_heap (overlay keep st x)) (st_merged (overlay keep st x)) x.
Proof.
  intros Hov Hk Hkeep.
  pose proof (ov_same _ _ _ _ _ Hov) as Hs.
  destruct (overlay_step_intro keep st x) as [[Hkx|Hkx]|e' Hkx Hkeepx He' Hne' Hint'|Hkx Hkeepx He'];
    simpl.
  - by rewrite (same_but_ids_key _ _ x Hs) in Hkx.
  - rewrite (keep_same _ _ x Hs) in Hkx. congruence.
  - rewrite (same_but_ids_key _ _ x Hs). exists x.
    rewrite dict_get_set, decide_True by done. rewrite id_of_setitem_eq.
    split_and!; [done|apply setitem_dom_self|done..].
  - rewrite (same_but_ids_key _ _ x Hs). exists x.
    rewrite dict_get_set, decide_True by done. rewrite id_of_setitem_eq.
    split_and!; [done|apply setitem_dom_self|done..].
Qed.

Lemma settled_fold h current fresh m0 l : ∀ st (P : nat → Prop),
  (∀ x, x ∈ l → x ∈ fresh) →
  ov_inv h current fresh m0 st →
  (∀ row, P row → settled h (st_heap st) (st_merged st) row) →
  ∀ row, P row ∨ row ∈ l →
    settled h (st_heap (foldl (overlay keep) st l))
              (st_merged (foldl (overlay keep) st l)) row.
Proof.
  induction l as [|x l IH]; intros st P Hl Hov HP row Hrow; simpl.
  - destruct Hrow as [?|?%elem_of_nil]; [by apply HP|done].
  - apply (IH _ (λ r, P r ∨ r = x)).
    + intros y Hy. apply Hl. by right.
    + apply ov_inv_step; [apply Hl; left|done].
    + intros r [Hr| ->].
      * eapply settled_step; [done|]. by apply HP.
      * by eapply settled_self.
    + destruct Hrow as [?|[->|?]%elem_of_cons]; auto.
Qed.

(** The rows kept in the map passed the gate. *)
Lemma kept_overlay h current fresh k r :
  dict_get (st_merged (merge_overlay keep h current fresh)) k = Some r →
  keep (h !!! r) = true.
Proof.
  unfold merge_overlay.
  set (m0 := foldl (raise_max_id h) 0 current).
  set (st0 := MergeState h (foldl (seed keep h) [] current) m0).
  enough (ov_inv h current fresh m0 (foldl (overlay keep) st0 fresh)
          ∧ ∀ k r, dict_get (st_merged (foldl (overlay keep) st0 fresh)) k
                   = Some r → keep (h !!! r) = true) as [_ H] by apply H.
  apply (foldl_inv (λ st, ov_inv h current fresh m0 st
     ∧ ∀ k r, dict_get (st_merged st) k = Some r → keep (h !!! r) = true)).
  - split; [apply ov_inv_init|]. intros k' r' Hr. simpl in Hr.
    by destruct (seed_key _ _ _ _ (seed_spec keep h current) _ _ Hr) as (_ & _ & _ & ?).
  - intros st x Hx [Hov Hkept]. split; [by apply ov_inv_step|].
    pose proof (ov_same _ _ _ _ _ Hov) as Hs.
    destruct (overlay_step_intro keep st x) as [?|e' Hkx Hkeepx _ _ _|Hkx Hkeepx _];
      simpl; [done|..]; intros k' r'; rewrite dict_get_set;
      (case_decide; [|by apply Hkept]); intros [= <-];
      by rewrite <- (keep_same _ _ x Hs).
Qed.

Lemma dict_of_values (f : nat → str) (d : dict) :
  (∀ k r, (k, r) ∈ d → f r = k) → (λ r, (f r, r)) <$> dict_values d = d.
Proof.
  unfold dict_values. induction d as [|[k r] d IH]; intros Hf; [done|].
  rewrite !fmap_cons. simpl. f_equal.
  - f_equal. apply Hf. left.
  - apply IH. intros k' r' Hin. apply Hf. by right.
Qed.

Lemma backfill_noop h m row :
  is_int (id_of h row) = true →
  (∀ s, source = Some s → is_Some ((h !!! row) !! "source"%string)) →
  backfill source (h, m) row = (h, m).
Proof.
  intros Hint Hsrc. unfold backfill. simpl.
  assert (match source with
          | Some s => setdefault h row "source" (VStr s)
          | None => h
          end = h) as ->.
  { destruct source as [s|]; [|done]. unfold setdefault.
    by destruct (Hsrc s eq_refl) as [v ->]. }
  fold (id_of h row). by rewrite Hint.
Qed.

Lemma backfill_fold_noop h m l :
  (∀ row, row ∈ l → is_int (id_of h row) = true
     ∧ ∀ s, source = Some s → is_Some ((h !!! row) !! "source"%string)) →
  foldl (backfill source) (h, m) l = (h, m).
Proof.
  induction l as [|x l IH]; intros Hl; simpl; [done|].
  destruct (Hl x) as [? ?]; [left|]. rewrite backfill_noop by done.
  apply IH. intros r Hr. apply Hl. by right.
Qed.

(** Merging the result of a merge with the same [fresh] rows writes nothing
    and returns the same list. *)
Lemma merge_again h current fresh :
  let res := merge_jobs_by_url keep source h current fresh in
  merge_jobs_by_url keep source res.1 res.2 fresh = res.
Proof.
  intros res.
  pose proof (merge_facts_intro keep source h current fresh) as F.
  pose proof (ov_inv_overlay keep h current fresh) as Hov.
  pose proof (λ k r, kept_overlay h current fresh k r) as Hkept.
  fold res in F.
  set (st := merge_overlay keep h current fresh) in *.
  set (d := st_merged st) in *.
  set (m0 := foldl (raise_max_id h) 0 current) in *.
  set (h1 := res.1) in *. set (out1 := res.2) in *.
  cbv zeta in F. fold h1 out1 in F.
  destruct F as [Hs Hpermo Hnd Hkeys _ _ Hentry _ _ Hsource _].
  assert (∀ k r, (k, r) ∈ d → key_of h1 r = k) as Hkey1.
  { intros k r Hin. rewrite (same_but_ids_key _ _ r Hs).
    apply Hentry. by apply dict_elem_get. }
  assert (NoDup (dict_values d)) as Hndv.
  { apply (NoDup_fmap_1 (key_of h1)).
    by rewrite <- Hkeys. }
  assert (∀ r, r ∈ out1 ↔ ∃ k, dict_get d k = Some r) as Hout.
  { intros r. rewrite Hpermo. by apply dict_values_elem. }
  assert (res = (h1, sort_desc (sort_key h1) (dict_values d))) as Hres
    by done.
  assert (h1 = (foldl (backfill source) (st_heap st, st_max_id st)
                  (dict_values d)).1) as Hh1 by done.
  (* the rows of fresh stand in h1 with the id of the entry of their URL *)
  assert (∀ row, row ∈ fresh → settled h h1 d row) as Hset.
  { intros row Hrow Hk Hkeep.
    destruct (settled_fold h current fresh m0 fresh
                (MergeState h (foldl (seed keep h) [] current) m0)
                (λ _, False)) with (row := row)
      as (e & He & Hdom & Hid & Hint);
      [done|apply ov_inv_init|done|by right|done..|].
    change (foldl (overlay keep) _ fresh) with st in He, Hdom, Hid, Hint.
    fold d in He.
    destruct (backfill_spec source _ Hndv (st_heap st) (st_max_id st))
      as (_ & _ & Hother & Hin & _).
    rewrite <- Hh1 in Hother, Hin.
    apply is_int_spec in Hint as [n Hn].
    assert (e ∈ dict_values d) as Hev by (apply dict_values_elem; eauto).
    destruct (Hin e Hev) as (He1 & _).
    exists e. split_and!.
    - done.
    - rewrite Hh1. by apply backfill_dom.
    - rewrite (He1 n Hn).
      destruct (decide (row ∈ dict_values d)) as [Hrv|Hrv].
      + destruct (Hin row Hrv) as (Hr1 & _). rewrite (Hr1 n); congruence.
      + unfold id_of at 1. rewrite (Hother row Hrv). done.
    - rewrite (He1 n Hn). apply is_int_spec. eauto. }
  (* the second call *)
  unfold merge_jobs_by_url at 1.
  assert (foldl (seed keep h1) [] out1
          = (λ r, (key_of h1 r, r)) <$> out1) as Hseed.
  { rewrite seed_distinct; [done| |].
    - simpl. rewrite Hpermo, <- Hkeys. done.
    - apply Forall_forall. intros r [k Hr]%Hout.
      destruct (Hentry _ _ Hr) as (Hk & Hk0 & _).
      rewrite (same_but_ids_key _ _ r Hs), (keep_same _ _ r Hs).
      split; [congruence|]. by eapply Hkept. }
  set (d20 := (λ r, (key_of h1 r, r)) <$> out1) in *.
  assert (d20 ≡ₚ d) as Hperm.
  { unfold d20. rewrite Hpermo. by rewrite dict_of_values. }
  assert (NoDup d20.*1) as Hnd20 by by rewrite Hperm.
  assert (dict_values d20 = out1) as Hval20.
  { unfold dict_values, d20. rewrite <- list_fmap_compose.
    apply list_fmap_id. }
  set (m2 := foldl (raise_max_id h1) 0 out1).
  set (st2 := merge_overlay keep h1 out1 fresh).
  assert (st_heap st2 = h1 ∧ (st_merged st2).*1 = d20.*1
          ∧ ∀ k e', dict_get (st_merged st2) k = Some e' →
              ∃ e, dict_get d k = Some e ∧ id_of h1 e' = id_of h1 e) as HR.
  { unfold st2, merge_overlay. rewrite Hseed. fold m2.
    apply (foldl_inv (λ st, st_heap st = h1 ∧ (st_merged st).*1 = d20.*1
       ∧ ∀ k e', dict_get (st_merged st) k = Some e' →
           ∃ e, dict_get d k = Some e ∧ id_of h1 e' = id_of h1 e)).
    - simpl. split_and!; [done..|]. intros k e' He'. exists e'. split; [|done].
      by rewrite <- (dict_get_perm _ _ k Hperm).
    - intros st' x Hx (Hheap & Hkeys' & Hent).
      destruct (overlay_step_intro keep st' x)
        as [?|e' Hkx Hkeepx He' Hne' Hint'|Hkx Hkeepx He']; [done|..].
      + rewrite Hheap in *.
        rewrite (same_but_ids_key _ _ x Hs) in Hkx.
        rewrite (keep_same _ _ x Hs) in Hkeepx.
        destruct (Hset x Hx Hkx Hkeepx) as (e & He & Hdom & Hid & Hint).
        destruct (Hent _ _ He') as (e0 & He0 & Hid0).
        rewrite (same_but_ids_key _ _ x Hs) in He0.
        assert (e0 = e) as -> by congruence.
        assert (setitem h1 x "id" (id_of h1 e') = h1) as Hnoop.
        { apply setitem_same; [done|]. rewrite Hid0, <- Hid.
          apply get_is_int_lookup. fold (id_of h1 x). by rewrite Hid. }
        simpl. rewrite Hnoop. split_and!; [done| |].
        * rewrite dict_set_keys_in; [done|].
          apply dec_stable. intros Hnot%dict_get_None. congruence.
        * intros k e''. rewrite dict_get_set. case_decide as E; [|by apply Hent].
          intros [= <-]. exists e. rewrite (same_but_ids_key _ _ x Hs) in E.
          by subst k.
      + exfalso. rewrite Hheap in *.
        rewrite (same_but_ids_key _ _ x Hs) in Hkx.
        rewrite (keep_same _ _ x Hs) in Hkeepx.
        destruct (Hset x Hx Hkx Hkeepx) as (e & He & Hdom & Hid & Hint).
        destruct (dict_get (st_merged st') (key_of h1 x)) as [e'|] eqn:Ee'.
        * destruct (Hent _ _ Ee') as (e0 & He0 & Hid0).
          rewrite (same_but_ids_key _ _ x Hs) in He0.
          assert (e0 = e) as -> by congruence.
          rewrite <- Hid0 in Hint.
          destruct (He' e' eq_refl) as [Hx1|Hx1]; [|congruence].
          by rewrite (is_int_nonempty _ _ Hint) in Hx1.
        * apply dict_get_None in Ee'. apply Ee'. rewrite Hkeys', Hperm.
          rewrite (same_but_ids_key _ _ x Hs).
          apply dec_stable. intros Hnot%dict_get_None. congruence. }
  destruct HR as (Hheap2 & Hkeys2 & _).
  assert (st_merged st2 = d20) as Hd2.
  { apply dict_ext; [by rewrite Hkeys2|done|]. intros k.
    unfold st2, merge_overlay.
    rewrite (overlay_fold_get h1) by apply same_but_ids_refl. simpl.
    rewrite Hseed. fold d20. rewrite (touch_ext h h1) by done.
    rewrite !(dict_get_perm _ _ k Hperm) by done.
    unfold d, st, merge_overlay.
    rewrite (overlay_fold_get h) by apply same_but_ids_refl. simpl.
    apply touch_fold_idemp. }
  fold st2. rewrite Hd2, Hheap2, Hval20.
  rewrite backfill_fold_noop.
  - simpl. rewrite Hres. f_equal. unfold out1. rewrite Hres. simpl.
    apply sort_desc_idemp.
  - intros r [k Hr]%Hout.
    destruct (Hentry _ _ Hr) as (_ & _ & _ & n & Hn).
    split; [apply is_int_spec; eauto|].
    intros s Hsrc. by eapply Hsource.
Qed.

End twice.

(** * Records without a URL *)

Lemma lstrip_spaces s : Forall (λ c, isspace c = true) s → lstrip s = [].
Proof. induction 1 as [|c s Hc _ IH]; simpl; [done|]. by rewrite Hc. Qed.

Lemma strip_spaces s : Forall (λ c, isspace c = true) s → strip s = [].
Proof. intros Hs. unfold strip. by rewrite (lstrip_spaces s Hs). Qed.

Lemma url_less_key (row : record) : url_less row → url_key row = [].
Proof.
  unfold url_key, get. intros [->|[->|(s & -> & Hs)]]; simpl; try done.
  unfold py_or. simpl. case_bool_decide as E; simpl.
  - by subst.
  - by apply strip_spaces.
Qed.

(** * The four instances *)

Lemma merge_of_eq s h current fresh :
  merge_of s h current fresh
  = merge_jobs_by_url (gate s) (default_source s) h current fresh.
Proof. by destruct s. Qed.

Lemma gate_stable s (row row' : record) :
  (∀ k, k ≠ "id"%string → k ≠ "source"%string → row' !! k = row !! k) →
  gate s row' = gate s row.
Proof.
  intros E. destruct s as [| | |filter_lang]; simpl; try done.
  unfold Talent.keep, get. by rewrite !E.
Qed.

Lemma merge_of_facts s h current fresh :
  merge_facts (gate s) (default_source s) h current fresh
    (merge_of s h current fresh).1 (merge_of s h current fresh).2
    (url_map s h current fresh) (foldl (raise_max_id h) 0 current).
Proof. rewrite merge_of_eq. apply merge_facts_intro. Qed.

(** The rows returned are the values of the URL map, each under its key. *)
Lemma merge_of_out s h current fresh r :
  r ∈ (merge_of s h current fresh).2 ↔
  dict_get (url_map s h current fresh) (key_of h r) = Some r.
Proof.
  destruct (merge_of_facts s h current fresh)
    as [_ Hperm Hnd _ _ _ Hentry _ _ _ _].
  rewrite Hperm, (dict_values_elem _ _ Hnd). split.
  - intros [k Hk]. by destruct (Hentry _ _ Hk) as (-> & _).
  - eauto.
Qed.

(** * The records returned *)

(** C1, as stated, fails: two records of [current] with different URLs and
    the same id both come back, ids untouched. *)
Lemma merge_keeps_duplicate_ids :
  let res := merge_of jobup ex_same_id [0; 1]%nat [] in
  key_of res.1 <$> res.2
    = [utf8 "https://a.example/1"; utf8 "https://a.example/2"]
  ∧ id_of res.1 <$> res.2 = [VInt 1; VInt 1]
  ∧ ¬ NoDup (id_of res.1 <$> res.2).
Proof.
  assert (let res := merge_of jobup ex_same_id [0; 1]%nat [] in
          key_of res.1 <$> res.2
            = [utf8 "https://a.example/1"; utf8 "https://a.example/2"]
          ∧ id_of res.1 <$> res.2 = [VInt 1; VInt 1]) as [Hk Hi]
    by (vm_compute; done).
  cbv zeta. split_and!; [exact Hk|exact Hi|].
  rewrite Hi. intros Hnd. apply NoDup_cons in Hnd as [Hin _].
  apply Hin. left.
Qed.

(** C1 (amended): for every scraper and all [current] and [fresh], no two
    records returned by [merge_jobs_by_url] have the same URL (neither as
    the key the function derives nor as the value of the field) and every one
    carries an integer id; when the integer ids of the records of [current]
    that enter the map are positive and equal only under one URL, every id
    returned is positive and no two records returned have the same id. *)
Theorem merge_urls_and_ids_distinct (s : scraper) (h : heap)
    (current fresh : list nat) :
  let res := merge_of s h current fresh in
  NoDup (key_of res.1 <$> res.2)
  ∧ NoDup ((λ r, get (res.1 !!! r) "url") <$> res.2)
  ∧ Forall (λ r, is_int (id_of res.1 r) = true) res.2
  ∧ (ids_well_formed (gate s) h current →
     Forall (λ r, ∃ n, as_int (id_of res.1 r) = Some n ∧ 0 < n) res.2
     ∧ NoDup ((λ r, as_int (id_of res.1 r)) <$> res.2)).
Proof.
  intros res.
  pose proof (merge_of_facts s h current fresh) as F. fold res in F.
  destruct F as [Hsame Hperm Hnd Hkeys _ _ Hentry _ _ _ Hids].
  set (d := url_map s h current fresh) in *.
  assert (NoDup (key_of res.1 <$> res.2)) as Hk.
  { rewrite Hperm, <- Hkeys. exact Hnd. }
  assert (∀ r, r ∈ res.2 → dict_get d (key_of h r) = Some r) as Hget.
  { intros r Hr. by apply merge_of_out. }
  split_and!.
  - exact Hk.
  - apply (NoDup_fmap_1 (λ v, strip (py_str (py_or v (VStr []))))).
    rewrite <- list_fmap_compose. exact Hk.
  - apply Forall_forall. intros r Hr. apply is_int_spec.
    by destruct (Hentry _ _ (Hget r Hr)) as (_ & _ & _ & ?).
  - intros Hwf. destruct (Hids Hwf) as [Hpos Hinj]. split.
    + apply Forall_forall. intros r Hr.
      destruct (Hentry _ _ (Hget r Hr)) as (_ & _ & _ & n & Hn).
      exists n. split; [done|]. exact (Hpos _ _ _ (Hget r Hr) Hn).
    + apply NoDup_fmap_2_strong; [|exact (NoDup_fmap_1 (key_of res.1) _ Hk)].
      intros r1 r2 Hr1 Hr2 E.
      destruct (Hentry _ _ (Hget r1 Hr1)) as (_ & _ & _ & n & Hn).
      rewrite Hn in E. symmetry in E.
      pose proof (Hinj _ _ _ _ _ (Hget r1 Hr1) (Hget r2 Hr2) Hn E) as Ek.
      pose proof (Hget r1 Hr1) as G1. rewrite Ek, (Hget r2 Hr2) in G1.
      by injection G1.
Qed.

Lemma merge_urls_and_ids_distinct_witness :
  ids_well_formed (gate jobup) ex_dataset [0; 1]%nat
  ∧ let res := merge_of jobup ex_dataset [0; 1]%nat [2]%nat in
    Forall (λ r, ∃ n, as_int (id_of res.1 r) = Some n ∧ 0 < n) res.2
    ∧ NoDup ((λ r, as_int (id_of res.1 r)) <$> res.2).
Proof.
  assert (ids_well_formed (gate jobup) ex_dataset [0; 1]%nat) as Hwf.
  { split.
    - intros c n [->|[->|[]%elem_of_nil]%elem_of_cons]%elem_of_cons _;
        vm_compute; intros [= <-]; done.
    - intros c1 c2 n [->|[->|[]%elem_of_nil]%elem_of_cons]%elem_of_cons
        [->|[->|[]%elem_of_nil]%elem_of_cons]%elem_of_cons _ _;
        vm_compute; intros [= <-]; done. }
  split; [exact Hwf|].
  exact (proj2 (proj2 (proj2
    (merge_urls_and_ids_distinct jobup ex_dataset [0; 1]%nat [2]%nat))) Hwf).
Defined.

(** C2: merging the result of [merge_jobs_by_url] again with the same
    [fresh] batch gives the same store and the same list: every record keeps
    its id, no id appears that the first result did not have, the records are
    the same and in the same order. *)
Theorem merge_idempotent (s : scraper) (h : heap) (current fresh : list nat) :
  let res := merge_of s h current fresh in
  merge_of s res.1 res.2 fresh = res.
Proof.
  intros res. unfold res. rewrite !merge_of_eq.
  apply merge_again. apply gate_stable.
Qed.

(** C3, as stated, fails: talent's merge with [filter_lang=True] returns
    nothing for a dataset whose only record, with a URL, is written in
    German. *)
Lemma talent_merge_drops_german :
  get (ex_german !!! 0%nat) "url" = VStr (utf8 "https://t.example/1")
  ∧ (merge_of (talent true) ex_german [0]%nat []).2 = [].
Proof. vm_compute. done. Qed.

(** C3 (amended): for every scraper and all [current] and [fresh], each
    record of [current] whose URL is not empty once stripped, and which
    passes the language gate where the merge has one (talent with
    [filter_lang=True]), has its URL among the URLs of the records returned
    by [merge_jobs_by_url]. *)
Theorem merge_keeps_current_urls (s : scraper) (h : heap)
    (current fresh : list nat) (c : nat) :
  c ∈ current → enters (gate s) h c →
  let res := merge_of s h current fresh in
  key_of h c ∈ key_of res.1 <$> res.2.
Proof.
  intros Hc Hent res.
  pose proof (merge_of_facts s h current fresh) as F. fold res in F.
  destruct F as [_ Hperm _ Hkeys _ _ _ _ Hseeded _ _].
  rewrite Hperm, <- Hkeys. by apply Hseeded.
Qed.

Lemma merge_keeps_current_urls_witness :
  let res := merge_of jobup ex_dataset [0; 1]%nat [2]%nat in
  utf8 "https://a.example/1" ∈ key_of res.1 <$> res.2.
Proof.
  apply (merge_keeps_current_urls jobup ex_dataset [0; 1]%nat [2]%nat 0%nat).
  - left.
  - split; [vm_compute; done|reflexivity].
Defined.

(** C10: for every scraper and all [current] and [fresh], a record whose
    ["url"] is missing, [None] or made of whitespace only is neither in the
    URL map nor among the records returned; and every integer id of a record
    of [current], with or without a URL, is strictly below the id of every
    record returned under a URL that no record of [current] has. *)
Theorem merge_drops_url_less (s : scraper) (h : heap)
    (current fresh : list nat) :
  let res := merge_of s h current fresh in
  (∀ row, url_less (h !!! row) →
     (row ∉ dict_values (url_map s h current fresh)) ∧ (row ∉ res.2))
  ∧ (∀ c n r, c ∈ current → as_int (id_of h c) = Some n →
       r ∈ res.2 → (∀ c', c' ∈ current → key_of h c' ≠ key_of h r) →
       ∃ m, id_of res.1 r = VInt m ∧ n < m).
Proof.
  intros res.
  pose proof (merge_of_facts s h current fresh) as F. fold res in F.
  destruct F as [_ Hperm Hnd _ _ Hwater Hentry Hnew _ _ _].
  split.
  - intros row Hrow. apply url_less_key in Hrow.
    assert (row ∉ dict_values (url_map s h current fresh)) as Hout.
    { rewrite (dict_values_elem _ _ Hnd). intros [k Hk].
      destruct (Hentry _ _ Hk) as (Hkey & Hne & _).
      apply Hne. rewrite <- Hkey. exact Hrow. }
    split; [exact Hout|]. by rewrite Hperm.
  - intros c n r Hc Hn Hr Hfresh.
    apply merge_of_out in Hr.
    destruct (Hnew _ _ Hr Hfresh) as (m & Hm & Hlt).
    exists m. split; [done|]. pose proof (Hwater _ _ Hc Hn). lia.
Qed.

(** The same on a store: a blank URL and a missing one are dropped, and the
    record fetched gets the id after the highest one, which a record without
    a URL carries. *)
Lemma merge_drops_url_less_example :
  let res := merge_of jobroom ex_blank [0; 1]%nat [2]%nat in
  res.2 = [2]%nat ∧ id_of res.1 2%nat = VInt 10.
Proof. vm_compute. done. Qed.

(** * The date window *)

Section window_lemmas.
Variable today : Z.
Variable fromisoformat : str → option Z.
(** [datetime.fromisoformat("")] raises [ValueError]. *)
Hypothesis empty_unparsable : fromisoformat [] = None.

Lemma within_days_unbounded posting_date :
  within_days today fromisoformat posting_date None = Returns true.
Proof. done. Qed.

Lemma within_days_str s n :
  within_days today fromisoformat (VStr s) (Some n)
  = Returns match fromisoformat s with
            | Some day => (0 <=? today - day) && (today - day <=? n)
            | None => false
            end.
Proof.
  unfold within_days. simpl. case_bool_decide as E; simpl.
  - subst. by rewrite empty_unparsable.
  - by destruct (fromisoformat s).
Qed.

(** C5: for a posting date that is a string or [None] and every window,
    [within_days] returns, and it returns [True] exactly when no window is
    set, or the date is a string that parses to a day with
    [0 <= (today - day).days <= N]. Under a window, [None], the empty string,
    a string that does not parse, a day in the future and a day more than [N]
    days back all give [False]. *)
Theorem within_days_iff (s : str) (N : option Z) :
  (∃ b, within_days today fromisoformat (VStr s) N = Returns b
        ∧ (b = true ↔
           N = None ∨ ∃ n day, N = Some n ∧ fromisoformat s = Some day
                               ∧ 0 ≤ today - day ≤ n))
  ∧ (within_days today fromisoformat VNone N = Returns true ↔ N = None)
  ∧ (∀ n, N = Some n →
       within_days today fromisoformat VNone N = Returns false
       ∧ within_days today fromisoformat (VStr []) N = Returns false
       ∧ (fromisoformat s = None →
          within_days today fromisoformat (VStr s) N = Returns false)
       ∧ (∀ day, fromisoformat s = Some day → today < day ∨ n < today - day →
          within_days today fromisoformat (VStr s) N = Returns false)).
Proof.
  split_and!.
  - destruct N as [n|]; [|exists true; split; [done|]; split; auto].
    rewrite within_days_str. eexists. split; [done|].
    destruct (fromisoformat s) as [day|].
    + rewrite andb_true_iff, !Z.leb_le. split.
      * intros ?. right. exists n, day. done.
      * intros [?|(n' & day' & [= <-] & [= <-] & ?)]; done.
    + split; [done|]. by intros [?|(? & ? & _ & ? & _)].
  - destruct N; simpl; split; done.
  - intros n ->. split_and!.
    + done.
    + done.
    + intros Hs. by rewrite within_days_str, Hs.
    + intros day Hs Hout. rewrite within_days_str, Hs. f_equal.
      apply andb_false_iff. rewrite Z.leb_gt, Z.leb_gt. lia.
Qed.

End window_lemmas.

Lemma within_days_iff_witness :
  ∃ b, within_days 739007 iso_date (VStr (utf8 "2024-04-20")) (Some 30)
       = Returns b
       ∧ (b = true ↔
          Some 30 = None
          ∨ ∃ n day, Some 30 = Some n
                     ∧ iso_date (utf8 "2024-04-20") = Some day
                     ∧ 0 ≤ 739007 - day ≤ n).
Proof.
  exact (proj1 (within_days_iff 739007 iso_date eq_refl
                  (utf8 "2024-04-20") (Some 30))).
Defined.

(** * The language filters *)

(** ** Tokens *)

Lemma runs_Forall (cls : N → bool) (P : N → Prop) s : ∀ cur,
  (∀ c, c ∈ s → cls c = true → P c) → Forall P cur →
  Forall (Forall P) (runs cls s cur).
Proof.
  induction s as [|c s IH]; intros cur Hs Hcur; simpl.
  - repeat constructor. by apply Forall_reverse.
  - destruct (cls c) eqn:Hc.
    + apply IH.
      * intros c' Hc'. apply Hs. by right.
      * constructor; [|done]. apply Hs; [left|done].
    + constructor; [by apply Forall_reverse|].
      apply IH; [|constructor]. intros c' Hc'. apply Hs. by right.
Qed.

Lemma findall_3_Forall (cls : N → bool) (P : N → Prop) s :
  (∀ c, c ∈ s → cls c = true → P c) →
  Forall (λ t, (3 ≤ length t)%nat ∧ Forall P t) (findall_3 cls s).
Proof.
  intros Hs. unfold findall_3. apply Forall_forall.
  intros t [Ht Hin]%list_elem_of_filter. split; [done|].
  pose proof (runs_Forall cls P s [] Hs (List.Forall_nil P)) as Hall.
  by apply (proj1 (Forall_forall _ _) Hall).
Qed.

(** Tests on code points, as propositions. *)
Ltac N_tests :=
  repeat match goal with
         | H : _ && _ = true |- _ => apply andb_prop in H; destruct H
         | H : _ && _ = false |- _ => apply andb_false_iff in H; destruct H
         | H : _ || _ = true |- _ => apply orb_prop in H; destruct H
         | H : negb _ = true |- _ => apply negb_true_iff in H
         | H : (_ <=? _)%N = true |- _ => apply N.leb_le in H
         | H : (_ <=? _)%N = false |- _ => apply N.leb_gt in H
         | H : (_ =? _)%N = true |- _ => apply N.eqb_eq in H
         | H : (_ =? _)%N = false |- _ => apply N.eqb_neq in H
         end.

(** Lowering leaves no capital of the Basic Latin alphabet. *)
Lemma lower_cp_no_capital c0 c : c ∈ lower_cp c0 → ¬ (65 ≤ c ≤ 90)%N.
Proof.
  unfold lower_cp. intros Hc.
  repeat case_match; N_tests;
    repeat (apply elem_of_cons in Hc as [->|Hc]);
    try (by apply elem_of_nil in Hc); lia.
Qed.

Lemma lower_no_capital s c : c ∈ lower s → ¬ (65 ≤ c ≤ 90)%N.
Proof.
  unfold lower. rewrite list_elem_of_In, in_concat.
  intros (l & (c0 & <- & _)%in_map_iff & Hc%list_elem_of_In).
  by eapply lower_cp_no_capital.
Qed.

(** ** Counting hint words *)

(** The count over the list of hint words is the size of the intersection
    of the two sets. *)
Lemma overlap_hits tokens hints :
  NoDup hints → overlap tokens hints = hits tokens hints.
Proof.
  unfold overlap, hits. induction 1 as [|h hs Hh Hnd IH].
  - by rewrite filter_nil, list_to_set_nil, intersection_empty_r_L, size_empty.
  - rewrite list_to_set_cons. destruct (decide (h ∈ tokens)) as [Hin|Hin].
    + rewrite filter_cons_True by done. simpl. rewrite IH.
      assert ((list_to_set tokens : gset str) ∩ ({[h]} ∪ list_to_set hs)
              = {[h]} ∪ (list_to_set tokens ∩ list_to_set hs)) as ->.
      { apply set_eq. intros x.
        rewrite !elem_of_intersection, !elem_of_union, elem_of_intersection,
          !elem_of_list_to_set, elem_of_singleton.
        split; [intros [? [->|?]]; auto|intros [->|[? ?]]; auto]. }
      rewrite (size_union (C:=gset str) {[h]}).
      * by rewrite size_singleton.
      * apply disjoint_singleton_l.
        rewrite elem_of_intersection, !elem_of_list_to_set. tauto.
    + rewrite filter_cons_False by done. rewrite IH. f_equal.
      apply set_eq. intros x.
      rewrite !elem_of_intersection, !elem_of_union, !elem_of_list_to_set,
        elem_of_singleton.
      split; [intros [? ?]; auto|intros [? [->|?]]; done].
Qed.

Lemma jobroom_hints_NoDup :
  NoDup Jobroom.FR_HINTS ∧ NoDup Jobroom.EN_HINTS
  ∧ NoDup Jobroom.DE_HINTS ∧ NoDup Jobroom.IT_HINTS.
Proof. split_and!; apply (bool_decide_unpack _); by vm_compute. Qed.

Lemma talent_hints_NoDup :
  NoDup Talent.FR_HINTS ∧ NoDup Talent.EN_HINTS
  ∧ NoDup Talent.DE_HINTS ∧ NoDup Talent.IT_HINTS.
Proof. split_and!; apply (bool_decide_unpack _); by vm_compute. Qed.

Lemma jobroom_tokens_lowercase (row : record) :
  Forall (λ t, (3 ≤ length t)%nat ∧ Forall (λ c, (97 ≤ c ≤ 122)%N) t)
         (Jobroom.tokens row).
Proof.
  apply findall_3_Forall. intros c Hc Halpha.
  apply lower_no_capital in Hc. unfold Jobroom.alpha in Halpha.
  N_tests; lia.
Qed.

Lemma talent_tokens_alphabetic (title description : value) :
  Forall (λ t, (3 ≤ length t)%nat ∧ Forall (λ c, Talent.alpha c = true) t)
         (Talent.tokens title description).
Proof. apply findall_3_Forall. auto. Qed.

(** ** The two predicates *)

(** C9, as stated, fails for talent: a record in English, with no French
    hint word at all, is accepted, and the rule with French as the target
    language rejects it. *)
Lemma talent_accepts_english :
  let title := VStr (utf8 "Software engineer") in
  let description := VStr (utf8 "work with you for the team") in
  let count := hits (Talent.tokens title description) in
  Talent._is_allowed_language title description = true
  ∧ count Talent.FR_HINTS = 0%nat
  ∧ accepts_by_rule false (count Talent.FR_HINTS)
      [count Talent.EN_HINTS; count Talent.DE_HINTS; count Talent.IT_HINTS]
    = false.
Proof. vm_compute. done. Qed.

(** C9 (amended): jobroom's [is_french_job] accepts a record exactly when
    its [language_codes] has ["fr"], or the French count is at least 2 and
    not below the English, German or Italian count; talent's
    [_is_allowed_language] has no language tag, and accepts exactly when
    that rule holds with French or with English as the target language. The
    counts are those of the hint words among the tokens, which have at least
    three characters, all lowercase letters. *)
Theorem language_filters_iff :
  (∀ row : record,
     let count := hits (Jobroom.tokens row) in
     Forall (λ t, (3 ≤ length t)%nat ∧ Forall (λ c, (97 ≤ c ≤ 122)%N) t)
            (Jobroom.tokens row)
     ∧ Jobroom.is_french_job row
       = accepts_by_rule (Jobroom.has_fr_code row) (count Jobroom.FR_HINTS)
           [count Jobroom.EN_HINTS; count Jobroom.DE_HINTS;
            count Jobroom.IT_HINTS])
  ∧ (∀ title description : value,
     let count := hits (Talent.tokens title description) in
     Forall (λ t, (3 ≤ length t)%nat ∧ Forall (λ c, Talent.alpha c = true) t)
            (Talent.tokens title description)
     ∧ Talent._is_allowed_language title description
       = accepts_by_rule false (count Talent.FR_HINTS)
           [count Talent.EN_HINTS; count Talent.DE_HINTS;
            count Talent.IT_HINTS]
         || accepts_by_rule false (count Talent.EN_HINTS)
              [count Talent.FR_HINTS; count Talent.DE_HINTS;
               count Talent.IT_HINTS]).
Proof.
  split.
  - intros row count. split; [apply jobroom_tokens_lowercase|].
    destruct jobroom_hints_NoDup as (Hfr & Hen & Hde & Hit).
    unfold Jobroom.is_french_job, accepts_by_rule, count.
    rewrite !overlap_hits by done.
    destruct (Jobroom.has_fr_code row); [done|].
    cbn [orb forallb]. rewrite andb_true_r. apply eq_true_iff_eq.
    rewrite !andb_true_iff, !Nat.leb_le. lia.
  - intros title description count. split; [apply talent_tokens_alphabetic|].
    destruct talent_hints_NoDup as (Hfr & Hen & Hde & Hit).
    unfold Talent._is_allowed_language, accepts_by_rule, count.
    rewrite !overlap_hits by done. cbn [orb forallb]. rewrite !andb_true_r.
    apply eq_true_iff_eq.
    rewrite !orb_true_iff, !andb_true_iff, !orb_true_iff, !Nat.leb_le. lia.
Qed.

(** * The pagination controllers *)

(** ** The loop over the links of a page *)

Lemma scan_page1_requested l : ∀ c, requested (scan_page1 l c) = requested c.
Proof.
  induction l as [|x l IH]; intros c; simpl; [done|].
  case_bool_decide; by rewrite IH.
Qed.

Lemma scan_links_requested t known l : ∀ c,
  requested (scan_links t known l c) = requested c.
Proof.
  induction l as [|x l IH]; intros c; simpl; [done|].
  repeat case_match; rewrite ?IH; done.
Qed.

(** A run of known links, none collected before, that brings the streak
    from below the threshold up to it: all of them are collected, nothing
    behind them is. *)
Lemma scan_links_streak t known tail : ∀ ks c,
  0 < t → ks ≠ [] → known_streak c + Z.of_nat (length ks) = t →
  NoDup ks → Forall (λ k, k ∈ known ∧ k ∉ seen_links c) ks →
  let c' := scan_links t known (ks ++ tail) c in
  links c' = links c ++ ks ∧ known_streak c' = t
  ∧ requested c' = requested c.
Proof.
  induction ks as [|k ks IH]; intros c Ht Hne Hlen Hnd Hks; [done|].
  apply NoDup_cons in Hnd as [Hk Hnd].
  apply Forall_cons in Hks as [[Hknown Hunseen] Hks].
  simpl. rewrite bool_decide_eq_false_2 by done.
  assert ((0 <? t) = true) as -> by by apply Z.ltb_lt.
  rewrite bool_decide_eq_true_2 by done. simpl.
  destruct ks as [|k' ks].
  - simpl in Hlen. assert ((t <=? known_streak c + 1) = true) as ->
      by (apply Z.leb_le; lia).
    simpl. split_and!; [done|lia|done].
  - assert ((t <=? known_streak c + 1) = false) as ->
      by (apply Z.leb_gt; simpl in Hlen; lia).
    set (c1 := set_streak (known_streak c + 1) (collect k c)).
    destruct (IH c1) as (Hl & Hs & Hr); [done|done| |done| |].
    + simpl in *. lia.
    + rewrite Forall_forall in Hks. apply Forall_forall. intros x Hx.
      destruct (Hks x Hx) as [Hx1 Hx2]. split; [done|]. simpl.
      rewrite elem_of_union, elem_of_singleton. intros [->|?]; done.
    + split_and!; [|done|done].
      rewrite Hl. simpl. by rewrite <- app_assoc.
Qed.

(** The three known links of [known, known, known, ...] with threshold 3. *)
Lemma scan_links_three known (x1 x2 x3 : str) tail c :
  0 ≤ known_streak c < 3 → NoDup [x1; x2; x3] →
  Forall (λ k, k ∈ known ∧ k ∉ seen_links c) [x1; x2; x3] →
  let c' := scan_links 3 known ([x1; x2; x3] ++ tail) c in
  links c' = links c ++ take (Z.to_nat (3 - known_streak c)) [x1; x2; x3]
  ∧ known_streak c' = 3 ∧ requested c' = requested c.
Proof.
  intros Hs Hnd Hks.
  set (n := Z.to_nat (3 - known_streak c)).
  rewrite <- (take_drop n [x1; x2; x3]), <- app_assoc.
  rewrite take_app_length' by (rewrite length_take; simpl; lia).
  apply scan_links_streak.
  - lia.
  - intros E%(f_equal length). rewrite length_take in E. simpl in E. lia.
  - rewrite length_take. simpl. lia.
  - eapply sublist_NoDup; [done|apply sublist_take].
  - by apply Forall_take.
Qed.

(** ** jobup *)

Lemma jobup_fetch_ok status (text : html) :
  status < 400 →
  Jobup.fetch_search_page (Response status text) = (Some text, false).
Proof.
  intros Hs. unfold Jobup.fetch_search_page.
  rewrite bool_decide_eq_false_2 by lia.
  by assert ((400 <=? status) = false) as -> by (apply Z.leb_gt; lia).
Qed.

Section jobup_pages.
Variable a : Jobup.args.
Variables existing_jobs master_jobs_file : list record.
Variables auto_state state : record.
Variable search : Z → response html.
Local Abbreviation combined_known :=
  (Jobup.combined_known a existing_jobs auto_state master_jobs_file state).
Local Abbreviation paginate :=
  (Jobup.paginate a existing_jobs auto_state master_jobs_file state search).

(** Either loop, on a page after the first that shows three known links not
    yet collected in this run. *)
Lemma jobup_streak_page stop_on_empty page rest c status text
    (x1 x2 x3 : str) tail :
  Jobup.stop_after_seen a = 3 →
  search page = Response status text → status < 400 →
  html_nonempty text = true →
  detail_links_of text = Some ([x1; x2; x3] ++ tail) →
  0 ≤ known_streak c < 3 → NoDup [x1; x2; x3] →
  Forall (λ k, k ∈ combined_known ∧ k ∉ seen_links c) [x1; x2; x3] →
  let c' := paginate stop_on_empty (page :: rest) c in
  links c' = links c ++ take (Z.to_nat (3 - known_streak c)) [x1; x2; x3]
  ∧ requested c' = requested c ++ [page].
Proof.
  intros Ht Hsearch Hstatus Hne Hlinks Hs Hnd Hks. simpl.
  rewrite Hsearch, (jobup_fetch_ok _ _ Hstatus), Hne. simpl.
  unfold extract_detail_links. rewrite Hne, Hlinks. cbv iota.
  rewrite (bool_decide_eq_false_2 (_ = [])) by done.
  rewrite andb_false_r, Ht.
  destruct (scan_links_three combined_known x1 x2 x3 tail (request page c))
    as (Hl & Hstreak & Hr); [done..|].
  unfold streak_reached. rewrite Hstreak. simpl.
  split; [exact Hl|exact Hr].
Qed.

End jobup_pages.

(** ** jobroom *)

Lemma known_url_nonempty existing_jobs (auto_state : record) k :
  k ∈ load_known_urls existing_jobs auto_state → k ≠ [].
Proof.
  unfold load_known_urls, url_set, state_seen_urls.
  rewrite elem_of_union, elem_of_list_to_set, list_elem_of_filter.
  intros [[? _]|Hk]; [done|].
  destruct (get auto_state "seen_urls"); try by apply elem_of_empty in Hk.
  by apply elem_of_list_to_set, list_elem_of_filter in Hk as [? _].
Qed.

Section jobroom_pages.
Variable today : Z.
Variable fromisoformat : str → option Z.
Variable a : Jobroom.args.
Variable existing_jobs : list record.
Variable auto_state : record.
Variable search : Z → response Jobroom.api_page.
Local Abbreviation known_urls := (Jobroom.known_urls existing_jobs auto_state).
Local Abbreviation scan_rows :=
  (Jobroom.scan_rows today fromisoformat a existing_jobs auto_state).
Local Abbreviation loop :=
  (Jobroom.loop today fromisoformat a existing_jobs auto_state search).

(** A run of rows with known URLs that brings the streak up to the
    threshold: their URLs are noted, nothing behind them is looked at. *)
Lemma scan_rows_streak (tail : list Jobroom.raw_row) : ∀ ks c,
  0 < Jobroom.stop_after_seen a → ks ≠ [] →
  Jobroom.seen_streak c + Z.of_nat (length ks) = Jobroom.stop_after_seen a →
  Forall (λ r, url_key r ∈ known_urls) ks →
  scan_rows ((Jobroom.Normalized <$> ks) ++ tail) c
  = Returns (Jobroom.Cursor (Jobroom.fresh_jobs c)
               (Jobroom.all_page_urls c ++ (url_key <$> ks))
               (Jobroom.stop_after_seen a)
               (Jobroom.total_api_known c) (Jobroom.requested c)).
Proof.
  induction ks as [|r ks IH]; intros c Ht Hne Hlen Hks; [done|].
  apply Forall_cons in Hks as [Hr Hks].
  pose proof (known_url_nonempty _ _ _ Hr) as Hurl.
  destruct c as [fresh urls streak total req]. simpl in *.
  rewrite bool_decide_eq_false_2 by done.
  assert ((0 <? Jobroom.stop_after_seen a) = true) as -> by by apply Z.ltb_lt.
  rewrite !bool_decide_eq_true_2 by done.
  destruct ks as [|r' ks].
  - simpl in Hlen.
    assert ((Jobroom.stop_after_seen a <=? streak + 1) = true) as ->
      by (apply Z.leb_le; lia).
    do 2 f_equal. lia.
  - assert ((Jobroom.stop_after_seen a <=? streak + 1) = false) as ->
      by (apply Z.leb_gt; simpl in Hlen; lia).
    rewrite IH; [|done|done|simpl in *; lia|done]. simpl.
    by rewrite <- app_assoc.
Qed.

(** A round of the loop on a page that starts with three rows whose URLs
    are known. *)
Lemma jobroom_streak_page fuel page c status body (r1 r2 r3 : record)
    (tail : list Jobroom.raw_row) :
  Jobroom.stop_after_seen a = 3 →
  (0 <? Jobroom.max_pages a) && (Jobroom.max_pages a <=? page) = false →
  search page = Response status body → ¬ (400 ≤ status < 600) →
  Jobroom.raw_rows body = (Jobroom.Normalized <$> [r1; r2; r3]) ++ tail →
  0 ≤ Jobroom.seen_streak c < 3 →
  Forall (λ r, url_key r ∈ known_urls) [r1; r2; r3] →
  ∃ c', loop (S fuel) page c = Some (Returns c')
    ∧ Jobroom.all_page_urls c'
      = Jobroom.all_page_urls c
        ++ take (Z.to_nat (3 - Jobroom.seen_streak c))
                (url_key <$> [r1; r2; r3])
    ∧ Jobroom.fresh_jobs c' = Jobroom.fresh_jobs c
    ∧ Jobroom.requested c' = Jobroom.requested c ++ [page].
Proof.
  intros Ht Hmax Hsearch Hstatus Hrows Hs Hks. simpl.
  rewrite Hmax, Hsearch. unfold get_or_raise.
  assert ((400 <=? status) && (status <? 600) = false) as ->.
  { apply andb_false_iff. rewrite Z.leb_gt, Z.ltb_ge. lia. }
  rewrite Hrows. rewrite (bool_decide_eq_false_2 (_ = [])) by done.
  set (n := Z.to_nat (3 - Jobroom.seen_streak c)).
  rewrite <- (take_drop n [r1; r2; r3]), fmap_app, <- app_assoc.
  rewrite scan_rows_streak.
  - eexists. unfold streak_reached. rewrite Ht. simpl.
    split_and!; [done| |done|done].
    simpl. f_equal. by rewrite fmap_take.
  - simpl. lia.
  - intros E%(f_equal length). rewrite length_take in E. simpl in E. lia.
  - rewrite length_take. simpl. lia.
  - by apply Forall_take.
Qed.

End jobroom_pages.

(** * Whole crawls *)

Lemma range_lookup a b i p : range a b !! i = Some p → p = a + Z.of_nat i.
Proof. unfold range. by intros [? _]%lookup_seqZ. Qed.

(** Of the pages a loop may ask for, in increasing order, it asks for the
    first [n]; a page asked for is one of them. *)
Lemma prefix_of_range a b n q :
  q ∈ take n (range a b) →
  ∃ j, (j < n)%nat ∧ range a b !! j = Some q ∧ q = a + Z.of_nat j.
Proof.
  intros [j Hj]%list_elem_of_lookup_1.
  assert (j < n)%nat as Hlt.
  { apply lookup_lt_Some in Hj. rewrite length_take in Hj. lia. }
  rewrite lookup_take_lt in Hj by done.
  exists j. split_and!; [done|done|]. by eapply range_lookup.
Qed.

Section jobup_crawl.
Variable a : Jobup.args.
Variables existing_jobs master_jobs_file : list record.
Variables auto_state state : record.
Variable search : Z → response html.
Local Abbreviation paginate :=
  (Jobup.paginate a existing_jobs auto_state master_jobs_file state search).
Local Abbreviation crawl :=
  (Jobup.crawl a existing_jobs auto_state master_jobs_file state search).

(** The pages requested by either loop are the first ones of its range, and
    in the dynamic loop none before the last showed no link. *)
Lemma jobup_paginate_prefix stop_on_empty pages : ∀ c,
  ∃ n, requested (paginate stop_on_empty pages c)
       = requested c ++ take n pages
    ∧ (stop_on_empty = true → ∀ i p, (S i < n)%nat → pages !! i = Some p →
       ¬ jobup_no_links (search p)).
Proof.
  induction pages as [|page rest IH]; intros c.
  { exists 0%nat. split; [by rewrite app_nil_r|]. intros; lia. }
  assert (∃ n, requested (request page c) = requested c ++ take n (page :: rest)
            ∧ (stop_on_empty = true → ∀ i p, (S i < n)%nat →
               (page :: rest) !! i = Some p → ¬ jobup_no_links (search p)))
    as Hstop.
  { exists 1%nat. split; [done|]. intros; lia. }
  simpl.
  destruct (Jobup.fetch_search_page (search page)) as [[text|] [|]] eqn:E;
    try exact Hstop.
  destruct (html_nonempty text) eqn:Hne; simpl; [|exact Hstop].
  destruct (extract_detail_links text) as [page_links|e] eqn:Hx;
    [|exact Hstop].
  destruct (stop_on_empty && bool_decide (page_links = []))
    eqn:Hempty; [exact Hstop|].
  set (c2 := scan_links _ _ _ (request page c)).
  assert (requested c2 = requested c ++ [page]) as Hc2
    by apply scan_links_requested.
  destruct (streak_reached _ _).
  { exists 1%nat. split; [done|]. intros; lia. }
  destruct (IH c2) as (n & Hn & Hpages).
  exists (S n). split.
  - rewrite Hn, Hc2, <- app_assoc. done.
  - intros -> [|i] p Hi Hp.
    + injection Hp as <-. intros (text' & Htext & Hnone).
      rewrite E in Htext. injection Htext as <-.
      rewrite Hx in Hnone. injection Hnone as ->.
      by rewrite bool_decide_eq_true_2 in Hempty.
    + apply (Hpages eq_refl i); [lia|done].
Qed.

Lemma jobup_crawl_requested :
  ∃ stop_on_empty last n,
    requested crawl = 1 :: take n (range 2 last)
    ∧ (Jobup.total_pages a (Jobup.fetch_base_page (search 1)) = None →
       stop_on_empty = true)
    ∧ (stop_on_empty = true → ∀ i p, (S i < n)%nat →
       range 2 last !! i = Some p → ¬ jobup_no_links (search p)).
Proof.
  unfold Jobup.crawl.
  destruct (extract_detail_links _) as [page1_links|e].
  2:{ exists true, 2, 0%nat. split_and!; [done|done|]. intros; lia. }
  set (c := scan_page1 _ _).
  assert (requested c = [1]) as Hc by apply scan_page1_requested.
  destruct (Jobup.total_pages a _) as [total|].
  - destruct (jobup_paginate_prefix false (range 2 (total + 1)) c)
      as (n & Hn & Hpages).
    exists false, (total + 1), n. rewrite Hn, Hc. done.
  - set (last := (if 0 <? Jobup.max_pages a then _ else _) + 1).
    destruct (jobup_paginate_prefix true (range 2 last) c)
      as (n & Hn & Hpages).
    exists true, last, n. rewrite Hn, Hc. done.
Qed.

(** In the dynamic mode, no page is requested after one that shows no link. *)
Lemma jobup_dynamic_stops_on_empty p q :
  Jobup.total_pages a (Jobup.fetch_base_page (search 1)) = None →
  2 ≤ p < q → jobup_no_links (search p) → q ∉ requested crawl.
Proof.
  intros Hdyn Hpq Hp.
  destruct jobup_crawl_requested as (b & last & n & -> & Hb & Hpages).
  intros [?|Hq]%elem_of_cons; [lia|].
  apply prefix_of_range in Hq as (j & Hj & Hlook & ->).
  assert (range 2 last !! Z.to_nat (p - 2) = Some p) as Hi.
  { unfold range in *. apply lookup_seqZ in Hlook as [_ ?].
    apply lookup_seqZ. lia. }
  refine (Hpages (Hb Hdyn) _ _ _ Hi Hp). lia.
Qed.

End jobup_crawl.

Section talent_crawl.
Variable a : Talent.args.
Variable existing_jobs : list record.
Variable auto_state : record.
Variable search : Z → response html.
Local Abbreviation paginate :=
  (Talent.paginate a existing_jobs auto_state search).
Local Abbreviation crawl := (Talent.crawl a existing_jobs auto_state search).

(** A loop that comes to its end requested the first pages of its range,
    and none before the last showed no link. *)
Lemma talent_paginate_prefix pages : ∀ c c',
  paginate pages c = Returns c' →
  ∃ n, requested c' = requested c ++ take n pages
    ∧ (∀ i p, (S i < n)%nat → pages !! i = Some p →
       ¬ talent_no_links (search p)).
Proof.
  induction pages as [|page rest IH]; intros c c'.
  { intros [= <-]. exists 0%nat. split; [by rewrite app_nil_r|]. intros; lia. }
  simpl. destruct (get_or_raise (search page)) as [text|e] eqn:E; [|done].
  simpl. destruct (extract_detail_links text) as [page_links|e] eqn:Hx;
    [|done].
  simpl. case_bool_decide as Hempty.
  { intros [= <-]. exists 1%nat. split; [done|]. intros; lia. }
  set (c2 := scan_links _ _ _ (request page c)).
  assert (requested c2 = requested c ++ [page]) as Hc2
    by apply scan_links_requested.
  destruct (streak_reached _ _).
  { intros [= <-]. exists 1%nat. split; [done|]. intros; lia. }
  intros Hrest. destruct (IH c2 c' Hrest) as (n & Hn & Hpages).
  exists (S n). split.
  - rewrite Hn, Hc2, <- app_assoc. done.
  - intros [|i] p Hi Hp.
    + injection Hp as <-. intros (text' & Htext & Hnone).
      rewrite E in Htext. injection Htext as <-.
      rewrite Hx in Hnone. by injection Hnone as ->.
    + apply (Hpages i); [lia|done].
Qed.

(** No page is requested after one that shows no link. *)
Lemma talent_stops_on_empty c p q :
  crawl = Returns c →
  2 ≤ p < q → talent_no_links (search p) → q ∉ requested c.
Proof.
  unfold Talent.crawl. intros Hc Hpq Hp.
  destruct (get_or_raise (search 1)) as [text|e]; [|done]. simpl in Hc.
  destruct (extract_detail_links text) as [page1_links|e]; [|done].
  simpl in Hc.
  apply talent_paginate_prefix in Hc as (n & Hn & Hpages).
  rewrite scan_page1_requested in Hn. rewrite Hn. simpl.
  intros [?|Hq]%elem_of_cons; [lia|].
  apply prefix_of_range in Hq as (j & Hj & Hlook & ->).
  refine (Hpages (Z.to_nat (p - 2)) p _ _ Hp); [lia|].
  unfold range in *. apply lookup_seqZ in Hlook as [_ ?].
  apply lookup_seqZ. lia.
Qed.

(** What a request raises ends the loop, and the crawl, with it. *)
Lemma talent_page_failure page rest c e :
  get_or_raise (search page) = Raises e →
  paginate (page :: rest) c = Raises e.
Proof. intros E. simpl. by rewrite E. Qed.

Lemma talent_crawl_failure e :
  get_or_raise (search 1) = Raises e
  ∨ (∃ text page1_links, get_or_raise (search 1) = Returns text
       ∧ extract_detail_links text = Returns page1_links)
    ∧ get_or_raise (search 2) = Raises e
    ∧ (Talent.max_pages a ≤ 0 ∨ 2 ≤ Talent.max_pages a) →
  crawl = Raises e.
Proof.
  unfold Talent.crawl.
  intros [->|((text & page1_links & -> & Hx) & E & Hmax)]; [done|]. simpl.
  rewrite Hx. simpl.
  set (last := (if 0 <? Talent.max_pages a then _ else _) + 1).
  assert (range 2 last = 2 :: range 3 last) as ->.
  { unfold range, last. destruct (0 <? Talent.max_pages a) eqn:Hp.
    - apply Z.ltb_lt in Hp. rewrite seqZ_cons by lia. do 2 f_equal; lia.
    - by vm_compute. }
  by apply talent_page_failure.
Qed.

End talent_crawl.

Lemma talent_main_failure today fromisoformat a existing_jobs auto_state
    search detail e :
  Talent.crawl a existing_jobs auto_state search = Raises e →
  Talent.main today fromisoformat a existing_jobs auto_state search detail
  = Written None None (Some e).
Proof. unfold Talent.main. by intros ->. Qed.

(** * The known-streak stop *)

(** C6, as stated, fails in jobup. On page 1 the links
    [known, known, known, new, new] are all collected and page 2 is
    requested; on page 2, after a page 1 that showed the three known links,
    the known ones are passed over, the new ones are collected and page 3 is
    requested. *)
Lemma streak_not_counted :
  let known := Jobup.combined_known ex_args ex_known ∅ [] ∅ in
  let run1 := Jobup.crawl ex_args ex_known ∅ [] ∅ ex_streak_on_page1 in
  let run2 := Jobup.crawl ex_args ex_known ∅ [] ∅ ex_streak_seen in
  Forall (λ k, k ∈ known) (utf8 <$> [k1; k2; k3])
  ∧ Forall (λ k, k ∉ known) (utf8 <$> [n1; n2])
  ∧ links run1 = utf8 <$> [k1; k2; k3; n1; n2; n3]
  ∧ requested run1 = [1; 2; 3]
  ∧ links run2 = utf8 <$> [k1; k2; k3; n1; n2]
  ∧ requested run2 = [1; 2; 3].
Proof.
  split_and!; try (by vm_compute); apply (bool_decide_unpack _); by vm_compute.
Qed.

(** C6 (amended): with threshold 3, take a result page whose links are, in
    order, [known, known, known, new, new]. In jobup, when the page comes
    after the first and the three known links are distinct and not yet
    collected in this run, the loop over the links of the page (of either
    branch) collects the known links up to the one that brings the streak to
    3, the third when the streak stood at 0, and nothing after it, and no
    further page is requested. In jobroom the same holds on every page, the
    first included, for rows with known URLs: their URLs are noted up to the
    one that completes the streak, no row is added to the fresh ones, and
    the loop returns. *)
Theorem known_streak_stops :
  (∀ (a : Jobup.args) existing_jobs auto_state master_jobs_file state search
     stop_on_empty page rest c status text
     (known1 known2 known3 new1 new2 : str),
     Jobup.stop_after_seen a = 3 →
     search page = Response status text → status < 400 →
     html_nonempty text = true →
     detail_links_of text = Some [known1; known2; known3; new1; new2] →
     0 ≤ known_streak c < 3 → NoDup [known1; known2; known3] →
     Forall (λ k, k ∈ Jobup.combined_known a existing_jobs auto_state
                        master_jobs_file state
                  ∧ k ∉ seen_links c) [known1; known2; known3] →
     let c' := Jobup.paginate a existing_jobs auto_state master_jobs_file
                 state search stop_on_empty (page :: rest) c in
     links c' = links c ++ take (Z.to_nat (3 - known_streak c))
                                [known1; known2; known3]
     ∧ requested c' = requested c ++ [page])
  ∧ (∀ today fromisoformat (a : Jobroom.args) existing_jobs auto_state search
       fuel page c status body (known1 known2 known3 new1 new2 : record),
     Jobroom.stop_after_seen a = 3 →
     (0 <? Jobroom.max_pages a) && (Jobroom.max_pages a <=? page) = false →
     search page = Response status body → ¬ (400 ≤ status < 600) →
     Jobroom.raw_rows body
     = Jobroom.Normalized <$> [known1; known2; known3; new1; new2] →
     0 ≤ Jobroom.seen_streak c < 3 →
     Forall (λ r, url_key r ∈ Jobroom.known_urls existing_jobs auto_state)
            [known1; known2; known3] →
     ∃ c', Jobroom.loop today fromisoformat a existing_jobs auto_state search
             (S fuel) page c = Some (Returns c')
       ∧ Jobroom.all_page_urls c'
         = Jobroom.all_page_urls c
           ++ take (Z.to_nat (3 - Jobroom.seen_streak c))
                   (url_key <$> [known1; known2; known3])
       ∧ Jobroom.fresh_jobs c' = Jobroom.fresh_jobs c
       ∧ Jobroom.requested c' = Jobroom.requested c ++ [page]).
Proof.
  split.
  - intros. by eapply (jobup_streak_page _ _ _ _ _ _ _ _ _ _ _ _
                         known1 known2 known3 [new1; new2]).
  - intros. by eapply (jobroom_streak_page _ _ _ _ _ _ _ _ _ _ _
                         known1 known2 known3
                         (Jobroom.Normalized <$> [new1; new2])).
Qed.

Lemma known_streak_stops_witness :
  (let c := Cursor [utf8 n3] {[utf8 n3]} 0 [1] None in
   let c' := Jobup.paginate ex_args ex_known ∅ [] ∅ ex_streak false
               [2; 3] c in
   links c' = links c ++ take (Z.to_nat (3 - known_streak c))
                              (utf8 <$> [k1; k2; k3])
   ∧ requested c' = requested c ++ [2])
  ∧ (let c := Jobroom.Cursor [] [] 0 None [] in
     ∃ c', Jobroom.loop 0 iso_date ex_jobroom_args ex_known ∅ ex_api 1 0 c
           = Some (Returns c')
       ∧ Jobroom.all_page_urls c'
         = Jobroom.all_page_urls c
           ++ take (Z.to_nat (3 - Jobroom.seen_streak c))
                   (url_key <$> jobs_at [k1; k2; k3])
       ∧ Jobroom.fresh_jobs c' = Jobroom.fresh_jobs c
       ∧ Jobroom.requested c' = Jobroom.requested c ++ [0]).
Proof.
  split.
  - apply (proj1 known_streak_stops ex_args ex_known ∅ [] ∅ ex_streak false
             2 [3] (Cursor [utf8 n3] {[utf8 n3]} 0 [1] None) 200
             (Html true None (Some (utf8 <$> [k1; k2; k3; n1; n2])))
             (utf8 k1) (utf8 k2) (utf8 k3) (utf8 n1) (utf8 n2));
      try reflexivity; try (simpl; lia);
      apply (bool_decide_unpack _); by vm_compute.
  - apply (proj2 known_streak_stops 0 iso_date ex_jobroom_args ex_known ∅
             ex_api 0%nat 0 (Jobroom.Cursor [] [] 0 None []) 200
             (Jobroom.ApiPage
                (Jobroom.Normalized <$> jobs_at [k1; k2; k3; n1; n2]) None)
             (job [text_field "url" k1]) (job [text_field "url" k2])
             (job [text_field "url" k3]) (job [text_field "url" n1])
             (job [text_field "url" n2]));
      try reflexivity; try (simpl; lia);
      apply (bool_decide_unpack _); by vm_compute.
Defined.

(** * A page without links *)

(** C7, as stated, fails in jobup. When page 1 announces three pages, page
    2 is fetched, shows no link, and page 3 is requested all the same; and
    a page 1 without links does not keep page 2 from being requested. *)
Lemma empty_page_does_not_stop :
  let run1 := Jobup.crawl ex_args [] ∅ [] ∅ ex_empty_detected in
  let run2 := Jobup.crawl ex_args [] ∅ [] ∅ ex_empty_page1 in
  Jobup.total_pages ex_args (Jobup.fetch_base_page (ex_empty_detected 1))
    = Some 3
  ∧ jobup_no_links (ex_empty_detected 2)
  ∧ requested run1 = [1; 2; 3]
  ∧ links run1 = utf8 <$> [n1; n3]
  ∧ extract_detail_links (Jobup.fetch_base_page (ex_empty_page1 1))
    = Returns []
  ∧ requested run2 = [1; 2; 3].
Proof.
  split_and!; try (by vm_compute). by eexists.
Qed.

(** C7 (amended): in jobup's dynamic mode (no total page count found on
    page 1) and in talent, for every run and all page numbers [2 <= p < q]:
    if page [p], fetched, shows no link, page [q] is not requested. *)
Theorem empty_page_stops_pagination :
  (∀ (a : Jobup.args) existing_jobs auto_state master_jobs_file state search
     p q,
     Jobup.total_pages a (Jobup.fetch_base_page (search 1)) = None →
     2 ≤ p < q → jobup_no_links (search p) →
     q ∉ requested (Jobup.crawl a existing_jobs auto_state master_jobs_file
                      state search))
  ∧ (∀ (a : Talent.args) existing_jobs auto_state search c p q,
     Talent.crawl a existing_jobs auto_state search = Returns c →
     2 ≤ p < q → talent_no_links (search p) → q ∉ requested c).
Proof.
  split.
  - intros. by eapply jobup_dynamic_stops_on_empty.
  - intros. by eapply talent_stops_on_empty.
Qed.

Lemma empty_page_stops_pagination_witness :
  (3 ∉ requested (Jobup.crawl ex_args [] ∅ [] ∅ ex_empty_page2))
  ∧ ∃ c, Talent.crawl ex_talent_args [] ∅ ex_empty_page2 = Returns c
         ∧ 3 ∉ requested c.
Proof.
  split.
  - apply (proj1 empty_page_stops_pagination ex_args [] ∅ [] ∅
             ex_empty_page2 2 3); [reflexivity|lia|by eexists].
  - exists (Cursor [utf8 n1] {[utf8 n1]} 0 [1; 2] None).
    assert (Talent.crawl ex_talent_args [] ∅ ex_empty_page2
            = Returns (Cursor [utf8 n1] {[utf8 n1]} 0 [1; 2] None)) as Hrun
      by (by vm_compute).
    split; [exact Hrun|].
    apply (proj2 empty_page_stops_pagination ex_talent_args [] ∅
             ex_empty_page2 _ 2 3 Hrun); [lia|by eexists].
Defined.

(** * A search request that fails *)

Lemma filter_within_unbounded today fromisoformat rows :
  filter_within today fromisoformat rows None = Returns rows.
Proof. induction rows as [|row rows IH]; simpl; [done|]. by rewrite IH. Qed.

(** C8: the claim fails in talent. With page 1 served and the request of
    page 2 answered 429, talent's run ends with the exception and writes
    neither the state file nor the dataset, whatever it had collected; on the
    same answers jobup's run writes both. *)
Theorem talent_blocked_page_aborts today fromisoformat existing_jobs
    auto_state detail :
  Talent.main today fromisoformat ex_talent_args existing_jobs auto_state
    ex_blocked detail
  = Written None None (Some RequestException)
  ∧ let w := Jobup.main today fromisoformat ex_args existing_jobs auto_state
               [] ∅ ex_blocked detail in
    is_Some (state_file w) ∧ is_Some (output_json w) ∧ raised w = None.
Proof.
  split.
  - apply talent_main_failure, talent_crawl_failure. right.
    split_and!; [by eexists _, _|done|left; simpl; lia].
  - unfold Jobup.main, Jobup.persist.
    change (max_days_of (Jobup.days ex_args)) with (@None Z).
    rewrite filter_within_unbounded. unfold save_output.
    cbn [state_file output_json raised].
    split_and!; [by eexists|by eexists|reflexivity].
Qed.

(** * The state file *)

Section filter_lemmas.
Variable today : Z.
Variable fromisoformat : str → option Z.

(** The filter keeps records, in order, and adds none. *)
Lemma filter_within_sublist max_days : ∀ rows kept,
  filter_within today fromisoformat rows max_days = Returns kept →
  kept `sublist_of` rows.
Proof.
  induction rows as [|row rows IH]; intros kept; simpl.
  - intros [= <-]. done.
  - destruct (within_days _ _ _ _) as [ok|]; [|done]. simpl.
    destruct (filter_within _ _ rows _) as [rest|]; [|done]. simpl.
    intros [= <-]. destruct ok.
    + by apply sublist_skip, IH.
    + by apply sublist_cons, IH.
Qed.

(** It raises only on a date that is neither text nor falsy. *)
Lemma filter_within_returns max_days rows :
  Forall date_is_text rows →
  ∃ kept, filter_within today fromisoformat rows max_days = Returns kept.
Proof.
  induction 1 as [|row rows Hrow _ [kept IH]]; simpl; [by eexists|].
  assert (∃ ok, within_days today fromisoformat (get row "posting_date")
                  max_days = Returns ok) as [ok ->].
  { unfold within_days. destruct max_days; [|by eexists].
    destruct Hrow as [->|[s ->]]; simpl; [by eexists|].
    case_bool_decide; simpl; [by eexists|].
    destruct (fromisoformat s); by eexists. }
  rewrite IH. simpl. by eexists.
Qed.

End filter_lemmas.

Lemma url_set_elem (jobs : list record) k :
  k ∈ url_set jobs ↔ k ≠ [] ∧ k ∈ url_key <$> jobs.
Proof. unfold url_set. by rewrite elem_of_list_to_set, list_elem_of_filter. Qed.

(** ** The sets the program builds, against the files they are built from *)

Lemma url_set_dataset (rows : list record) u :
  u ∈ url_set rows ↔ dataset_url rows u.
Proof.
  rewrite url_set_elem. unfold dataset_url. rewrite list_elem_of_fmap.
  split; intros [Hne (row & E & Hrow)]; (split; [done|]); exists row; by split.
Qed.

Lemma state_seen_urls_elem (auto_state : record) u :
  u ∈ state_seen_urls auto_state ↔
  u ≠ [] ∧ ∃ items repr x, get auto_state "seen_urls" = VList items repr
                           ∧ x ∈ items ∧ strip (py_str x) = u.
Proof.
  unfold state_seen_urls.
  destruct (get auto_state "seen_urls") as [| | | |items repr|] eqn:E;
    try (split; [by intros ?%elem_of_empty|by intros (_ & ? & ? & ? & ? & _)]).
  rewrite elem_of_list_to_set, list_elem_of_filter, list_elem_of_fmap.
  split.
  - intros [Hne (x & -> & Hx)]. split; [done|]. by exists items, repr, x.
  - intros [Hne (items' & repr' & x & [= <- <-] & Hx & <-)]. split; [done|].
    by exists x.
Qed.

Lemma load_known_urls_loaded existing_jobs (auto_state : record) u :
  u ∈ load_known_urls existing_jobs auto_state
  ↔ loaded_url existing_jobs auto_state u.
Proof.
  unfold load_known_urls, loaded_url.
  rewrite elem_of_union, url_set_dataset, state_seen_urls_elem.
  unfold dataset_url. split.
  - intros [[Hne Hjob]|[Hne Hstate]]; (split; [done|]); [by left|by right].
  - intros [Hne [Hjob|Hstate]]; [left|right]; by split.
Qed.

Lemma state_file_save_output_eq seen rows :
  state_file (save_output seen rows) = seen.
Proof. by destruct rows. Qed.

Lemma output_save_output_eq seen rows kept :
  output_json (save_output seen rows) = Some kept → rows = Returns kept.
Proof. destruct rows; simpl; [by intros [= ->]|done]. Qed.

Lemma loaded_subseteq (loaded found merged : gset str) :
  loaded ⊆ loaded ∪ found ∪ merged.
Proof. etrans; [|apply union_subseteq_l]. apply union_subseteq_l. Qed.



(** * More on [merge_jobs_by_url] *)

(** ** Which record is returned for a URL *)

Lemma snoc_eq_middle {A} (l l1 l2 : list A) (x r : A) :
  l ++ [x] = l1 ++ r :: l2 →
  (l2 = [] ∧ r = x ∧ l1 = l) ∨ (∃ l2', l2 = l2' ++ [x] ∧ l = l1 ++ r :: l2').
Proof.
  destruct l2 as [|y l2 _] using rev_ind.
  - intros [-> ->]%app_inj_tail. by left.
  - rewrite app_comm_cons, app_assoc. intros [-> ->]%app_inj_tail.
    right. by eexists.
Qed.

Section entries.
Variable keep : record → bool.
Variable source : option str.
Hypothesis keep_stable : ∀ row row' : record,
  (∀ k, k ≠ "id"%string → k ≠ "source"%string → row' !! k = row !! k) →
  keep row' = keep row.

Lemma touch_enters h k a row :
  touch keep h k a row = if bool_decide (enters keep h row ∧ key_of h row = k)
                    then Some row else a.
Proof.
  unfold touch, enters.
  destruct (bool_decide (key_of h row ≠ [] ∧ _ ∧ _)) eqn:E.
  - apply bool_decide_eq_true in E as (? & ? & ?).
    by rewrite bool_decide_eq_true_2.
  - apply bool_decide_eq_false in E.
    rewrite bool_decide_eq_false_2; [done|]. intros [[? ?] ?]. by apply E.
Qed.

(** The fold of the second and third loops at one URL ends on the last
    record that enters under it. *)
Lemma touch_fold_last h k l r :
  foldl (touch keep h k) None l = Some r ↔ last_of keep h l r ∧ key_of h r = k.
Proof.
  induction l as [|x l IH] using rev_ind.
  - simpl. split; [done|]. intros [(l1 & l2 & E & _) _].
    by destruct l1.
  - rewrite foldl_app. simpl. rewrite touch_enters.
    case_bool_decide as Hx.
    + destruct Hx as [Hent Hk]. split.
      * intros [= <-]. split; [|done]. exists l, []. by split_and!.
      * intros [(l1 & l2 & E & _ & Hl2) Hr].
        apply snoc_eq_middle in E as [(_ & -> & _)|(l2' & -> & _)]; [done|].
        apply Forall_app in Hl2 as [_ Hlast].
        rewrite Forall_singleton in Hlast. exfalso. apply Hlast.
        split; [done|congruence].
    + rewrite IH. split.
      * intros [(l1 & l2 & -> & Hent & Hl2) Hr]. split; [|done].
        exists l1, (l2 ++ [x]). split_and!; [by rewrite <- app_assoc|done|].
        apply Forall_app. split; [done|]. apply Forall_singleton.
        intros [? ?]. apply Hx. split; congruence.
      * intros [(l1 & l2 & E & Hent & Hl2) Hr].
        apply snoc_eq_middle in E as [(_ & -> & _)|(l2' & -> & ->)].
        { destruct Hx. by split. }
        split; [|done]. exists l1, l2'. split_and!; [done..|].
        by apply Forall_app in Hl2 as [? _].
Qed.

Lemma touch_fold_some h k l x a :
  x ∈ l → enters keep h x → key_of h x = k →
  ∃ r, foldl (touch keep h k) a l = Some r.
Proof.
  intros Hx Hent Hk.
  induction l as [|y l IH] using rev_ind; [by apply elem_of_nil in Hx|].
  rewrite foldl_app. simpl. rewrite touch_enters.
  case_bool_decide as Hy; [by eexists|].
  apply IH. apply elem_of_app in Hx as [?|Hx]; [done|].
  apply list_elem_of_singleton in Hx as ->. by destruct Hy.
Qed.

Lemma seed_get h d row k :
  dict_get (seed keep h d row) k = touch keep h k (dict_get d k) row.
Proof.
  rewrite touch_enters. unfold seed, enters. fold (key_of h row).
  case_bool_decide as Hk.
  { rewrite bool_decide_eq_false_2; [done|]. by intros [[? _] _]. }
  destruct (keep (h !!! row)) eqn:Hkeep; simpl.
  - rewrite dict_get_set. case_decide.
    + by rewrite bool_decide_eq_true_2.
    + rewrite bool_decide_eq_false_2; [done|]. by intros [_ ?].
  - rewrite bool_decide_eq_false_2; [done|]. by intros [[_ ?] _].
Qed.

Lemma seed_fold_get h l : ∀ d k,
  dict_get (foldl (seed keep h) d l) k = foldl (touch keep h k) (dict_get d k) l.
Proof.
  induction l as [|x l IH]; intros d k; simpl; [done|].
  by rewrite IH, seed_get.
Qed.

(** The entry of a URL when the third loop ends. *)
Lemma merge_overlay_get h current fresh k :
  dict_get (st_merged (merge_overlay keep h current fresh)) k
  = foldl (touch keep h k) None (current ++ fresh).
Proof.
  unfold merge_overlay.
  rewrite (overlay_fold_get keep keep_stable h) by apply same_but_ids_refl.
  simpl. by rewrite seed_fold_get, foldl_app.
Qed.

End entries.

(** ** What the loops write *)

Section writes.
Variable keep : record → bool.
Variable source : option str.
Local Abbreviation overlay := (overlay keep).

Lemma overlay_heap_other st row r :
  r ≠ row → st_heap (overlay st row) !!! r = st_heap st !!! r.
Proof.
  intros Hr. destruct (overlay_step_intro keep st row); simpl; [done|..];
    by rewrite setitem_ne.
Qed.

(** The third loop writes to the records of [fresh] only. *)
Lemma overlay_fold_heap_other l : ∀ st r,
  r ∉ l → st_heap (foldl overlay st l) !!! r = st_heap st !!! r.
Proof.
  induction l as [|x l IH]; intros st r Hr; simpl; [done|].
  apply not_elem_of_cons in Hr as [Hx Hl].
  rewrite IH by done. by apply overlay_heap_other.
Qed.

Lemma overlay_field st row r k :
  k ≠ "id"%string →
  (st_heap (overlay st row) !!! r) !! k = (st_heap st !!! r) !! k.
Proof.
  intros Hk. destruct (overlay_step_intro keep st row); simpl; [done|..];
    by rewrite setitem_field_ne.
Qed.

(** And to their ["id"] only. *)
Lemma overlay_fold_field l : ∀ st r k,
  k ≠ "id"%string →
  (st_heap (foldl overlay st l) !!! r) !! k = (st_heap st !!! r) !! k.
Proof.
  induction l as [|x l IH]; intros st r k Hk; simpl; [done|].
  rewrite IH by done. by apply overlay_field.
Qed.

Lemma backfill_one_source h m x r :
  ((backfill source (h, m) x).1 !!! r) !! "source"%string
  = if decide (r = x) then source_after source (h !!! x)
    else (h !!! r) !! "source"%string.
Proof.
  unfold backfill, source_after. simpl.
  set (h' := match source with
             | Some s => setdefault h x "source" (VStr s)
             | None => h
             end).
  assert ((h' !!! r) !! "source"%string
          = if decide (r = x)
            then match source with
                 | Some s => Some (default (VStr s) ((h !!! x) !! "source"%string))
                 | None => (h !!! x) !! "source"%string
                 end
            else (h !!! r) !! "source"%string) as Hh'.
  { unfold h'. destruct source as [s|]; [|by case_decide; subst].
    case_decide as E.
    - subst r. unfold setdefault.
      destruct ((h !!! x) !! "source"%string) as [v|] eqn:Hv; simpl.
      + done.
      + by rewrite setitem_eq, lookup_insert_eq.
    - by rewrite setdefault_ne. }
  destruct (is_int _); simpl; [done|].
  by rewrite setitem_field_ne.
Qed.

Lemma backfill_fold_source vals : NoDup vals → ∀ h m r,
  ((foldl (backfill source) (h, m) vals).1 !!! r) !! "source"%string
  = if decide (r ∈ vals) then source_after source (h !!! r)
    else (h !!! r) !! "source"%string.
Proof.
  induction 1 as [|x l Hx Hl IH]; intros h m r; simpl.
  { destruct (decide (r ∈ [])) as [[]%elem_of_nil|]; done. }
  destruct (backfill source (h, m) x) as [h' m'] eqn:E.
  rewrite IH.
  pose proof (backfill_one_source h m x r) as Hone. rewrite E in Hone.
  simpl in Hone.
  assert (∀ r', r' ≠ x → h' !!! r' = h !!! r') as Hother.
  { intros r' Hr'. pose proof (backfill_one source h m x) as Hb.
    rewrite E in Hb. simpl in Hb. destruct Hb as (_ & _ & Hne & _).
    by apply Hne. }
  destruct (decide (r ∈ l)) as [Hr|Hr].
  - rewrite decide_True by by right.
    rewrite Hother; [done|]. by intros ->.
  - rewrite Hone. destruct (decide (r = x)) as [->|Hrx].
    + rewrite decide_True by left. done.
    + rewrite decide_False; [done|]. by intros [?|?]%elem_of_cons.
Qed.

End writes.

(** ** The id of a URL that [current] has *)

Section carried.
Variable keep : record → bool.
Variable source : option str.
Hypothesis keep_stable : ∀ row row' : record,
  (∀ k, k ≠ "id"%string → k ≠ "source"%string → row' !! k = row !! k) →
  keep row' = keep row.

(** The entry of the URL [k] carries the id [v]. *)
Local Abbreviation carries k v st :=
  (∃ e, dict_get (st_merged st) k = Some e ∧ id_of (st_heap st) e = v).

Lemma overlay_carried h current fresh m0 st row k v :
  ov_inv h current fresh m0 st → is_int v = true →
  carries k v st → carries k v (overlay keep st row).
Proof.
  intros Hinv Hv (e & He & Hid).
  assert (key_of (st_heap st) row ≠ k → e ≠ row) as Hother.
  { intros Hk ->. apply Hk.
    rewrite (same_but_ids_key _ _ row (ov_same _ _ _ _ _ Hinv)).
    by destruct (ov_key _ _ _ _ _ Hinv _ _ He) as (? & _). }
  destruct (overlay_step_intro keep st row)
    as [?|e' Hk Hkeep He' Hne Hint|Hk Hkeep Hnone]; simpl.
  - eauto.
  - destruct (decide (key_of (st_heap st) row = k)) as [E|E].
    + rewrite E, He in He'. injection He' as <-.
      exists row. rewrite E, dict_get_set, decide_True by done.
      by rewrite id_of_setitem_eq.
    + exists e. rewrite dict_get_set, decide_False by done.
      rewrite id_of_setitem_ne; [done|]. intros ->. by apply Hother.
  - destruct (decide (key_of (st_heap st) row = k)) as [E|E].
    + exfalso. rewrite E in Hnone. rewrite <- Hid in Hv.
      destruct (Hnone e He) as [Hn|Hi]; [|congruence].
      by rewrite (is_int_nonempty _ _ Hv) in Hn.
    + exists e. rewrite dict_get_set, decide_False by done.
      rewrite id_of_setitem_ne; [done|]. intros ->. by apply Hother.
Qed.

(** When the last record of [current] under a URL has an integer id, the
    record returned under that URL has the same id. *)
Lemma merge_carried h current fresh c r :
  last_of keep h current c → is_int (id_of h c) = true →
  let res := merge_jobs_by_url keep source h current fresh in
  r ∈ res.2 → key_of h r = key_of h c → id_of res.1 r = id_of h c.
Proof.
  intros Hc Hint res Hr Hk.
  pose proof (merge_facts_intro keep source h current fresh) as F.
  cbv zeta in F. fold res in F.
  destruct F as [_ Hperm Hnd Hkeys _ _ Hentry _ _ _ _].
  set (m0 := foldl (raise_max_id h) 0 current) in *.
  set (st0 := MergeState h (foldl (seed keep h) [] current) m0).
  assert (ov_inv h current fresh m0 (merge_overlay keep h current fresh)
          ∧ carries (key_of h c) (id_of h c)
              (merge_overlay keep h current fresh)) as [Hov (e & He & Hid)].
  { unfold merge_overlay. fold m0 st0.
    apply (foldl_inv (λ st, ov_inv h current fresh m0 st
                            ∧ carries (key_of h c) (id_of h c) st)).
    - split; [apply ov_inv_init|]. exists c. split; [|done]. simpl.
      rewrite (seed_fold_get keep). simpl.
      by apply (touch_fold_last keep).
    - intros st x Hx [Hov Hcar]. split; [by apply ov_inv_step|].
      by eapply overlay_carried. }
  set (st := merge_overlay keep h current fresh) in *.
  assert (r = e) as ->.
  { rewrite Hperm in Hr. apply (dict_values_elem _ _ Hnd) in Hr as [k' Hk'].
    destruct (Hentry _ _ Hk') as (Hkey & _). rewrite Hkey in Hk. subst k'.
    congruence. }
  assert (NoDup (dict_values (st_merged st))) as Hvals.
  { apply (NoDup_fmap_1 (key_of res.1)). by rewrite <- Hkeys. }
  destruct (backfill_spec source _ Hvals (st_heap st) (st_max_id st))
    as (_ & _ & _ & Hin & _).
  assert (e ∈ dict_values (st_merged st)) as Hein
    by (apply dict_values_elem; eauto).
  destruct (Hin e Hein) as (Hsame & _).
  rewrite <- Hid in Hint. apply is_int_spec in Hint as [n Hn].
  rewrite <- Hid. by apply (Hsame n).
Qed.

(** A record that is not in [fresh] keeps its integer id, and is not written
    to at all when it is not returned. *)
Lemma merge_unwritten h current fresh r :
  r ∉ fresh →
  let res := merge_jobs_by_url keep source h current fresh in
  (is_int (id_of h r) = true → id_of res.1 r = id_of h r)
  ∧ (r ∉ res.2 → res.1 !!! r = h !!! r).
Proof.
  intros Hr res.
  pose proof (merge_facts_intro keep source h current fresh) as F.
  cbv zeta in F. fold res in F.
  destruct F as [_ Hperm Hnd Hkeys _ _ _ _ _ _ _].
  set (st := merge_overlay keep h current fresh) in *.
  assert (NoDup (dict_values (st_merged st))) as Hvals.
  { apply (NoDup_fmap_1 (key_of res.1)). by rewrite <- Hkeys. }
  destruct (backfill_spec source _ Hvals (st_heap st) (st_max_id st))
    as (_ & _ & Hout & Hin & _).
  assert (st_heap st !!! r = h !!! r) as Hst.
  { unfold st, merge_overlay. by rewrite overlay_fold_heap_other. }
  assert (id_of (st_heap st) r = id_of h r) as Hid
    by (unfold id_of; by rewrite Hst).
  split.
  - intros [n Hn]%is_int_spec. rewrite <- Hid in Hn |- *.
    destruct (decide (r ∈ dict_values (st_merged st))) as [Hv|Hv].
    + destruct (Hin r Hv) as (Hsame & _). by apply (Hsame n).
    + unfold id_of. f_equal. exact (Hout r Hv).
  - intros Hnot. rewrite Hperm in Hnot. rewrite <- Hst. exact (Hout r Hnot).
Qed.

(** The ["source"] of the records returned. *)
Lemma merge_source_field h current fresh r :
  let res := merge_jobs_by_url keep source h current fresh in
  r ∈ res.2 →
  (res.1 !!! r) !! "source"%string = source_after source (h !!! r).
Proof.
  intros res Hr.
  pose proof (merge_facts_intro keep source h current fresh) as F.
  cbv zeta in F. fold res in F.
  destruct F as [_ Hperm Hnd Hkeys _ _ _ _ _ _ _].
  set (st := merge_overlay keep h current fresh) in *.
  assert (NoDup (dict_values (st_merged st))) as Hvals.
  { apply (NoDup_fmap_1 (key_of res.1)). by rewrite <- Hkeys. }
  rewrite Hperm in Hr. unfold res, merge_jobs_by_url. simpl. fold st.
  rewrite (backfill_fold_source source _ Hvals), decide_True by done.
  unfold source_after.
  assert ((st_heap st !!! r) !! "source"%string
          = (h !!! r) !! "source"%string) as ->; [|done].
  unfold st, merge_overlay. by rewrite overlay_fold_field.
Qed.

End carried.

(** ** The four merges *)

Lemma desc_lookup key l i j x y :
  desc key l → (i < j)%nat → l !! i = Some x → l !! j = Some y →
  key y ≤ key x.
Proof.
  intros Hl. apply Sorted_StronglySorted in Hl; [|intros a b c; lia].
  revert i j. induction Hl as [|a l _ IH Ha]; intros i j Hij Hi Hj; [done|].
  destruct j as [|j]; [lia|]. destruct i as [|i]; simpl in *.
  - injection Hi as <-. rewrite Forall_forall in Ha.
    apply Ha. by eapply list_elem_of_lookup_2.
  - apply (IH i j); [lia|done..].
Qed.

(** X1: the list returned by [merge_jobs_by_url] (each of the four) is in
    non-increasing order of id: a record at an earlier position has an id at
    least as high as any record after it. *)
Theorem merge_sorted_by_id (s : scraper) (h : heap) (current fresh : list nat)
    (i j x y : nat) :
  let res := merge_of s h current fresh in
  (i < j)%nat → res.2 !! i = Some x → res.2 !! j = Some y →
  ∃ n m, as_int (id_of res.1 x) = Some n ∧ as_int (id_of res.1 y) = Some m
         ∧ m ≤ n.
Proof.
  intros res Hij Hi Hj.
  assert (∀ r, r ∈ res.2 →
            as_int (id_of res.1 r) = Some (sort_key res.1 r)) as Hkey.
  { intros r Hr. apply merge_of_out in Hr.
    destruct (merge_of_facts s h current fresh)
      as [_ _ _ _ _ _ Hentry _ _ _ _].
    destruct (Hentry _ _ Hr) as (_ & _ & _ & n & Hn).
    fold res in Hn. unfold sort_key. fold (id_of res.1 r). by rewrite Hn. }
  exists (sort_key res.1 x), (sort_key res.1 y).
  split_and!; [apply Hkey; by eapply list_elem_of_lookup_2..|].
  apply (desc_lookup _ res.2 i j); [|done..].
  unfold res. rewrite merge_of_eq. apply sort_desc_sorted.
Qed.

Lemma merge_sorted_by_id_witness :
  let res := merge_of jobup ex_dataset [0; 1]%nat [2]%nat in
  ∃ n m, as_int (id_of res.1 2%nat) = Some n
         ∧ as_int (id_of res.1 1%nat) = Some m ∧ m ≤ n.
Proof.
  apply (merge_sorted_by_id jobup ex_dataset [0; 1]%nat [2]%nat 0 1);
    [lia|by vm_compute..].
Defined.

(** X2: [merge_jobs_by_url] writes to no field of any record other than
    ["id"] and ["source"]; a record that is not in [fresh] keeps the integer
    id it has, and is left as it is when it is not among the records
    returned. *)
Theorem merge_writes_only_ids (s : scraper) (h : heap)
    (current fresh : list nat) :
  let res := merge_of s h current fresh in
  same_but_ids h res.1
  ∧ ∀ r, r ∉ fresh →
      (is_int (id_of h r) = true → id_of res.1 r = id_of h r)
      ∧ (r ∉ res.2 → res.1 !!! r = h !!! r).
Proof.
  intros res. split.
  - by destruct (merge_of_facts s h current fresh) as [? _ _ _ _ _ _ _ _ _ _].
  - intros r Hr. unfold res. rewrite merge_of_eq.
    by apply merge_unwritten.
Qed.

(** X3: the URLs of the records returned by [merge_jobs_by_url] are exactly
    the URLs of the records of [current] and [fresh] that enter the map (a
    URL that is not blank, and the language gate passed where talent's merge
    applies it). *)
Theorem merge_urls_exact (s : scraper) (h : heap) (current fresh : list nat)
    (k : str) :
  let res := merge_of s h current fresh in
  k ∈ key_of res.1 <$> res.2 ↔
  ∃ r, r ∈ current ++ fresh ∧ enters (gate s) h r ∧ key_of h r = k.
Proof.
  intros res.
  destruct (merge_of_facts s h current fresh)
    as [Hsame _ _ _ _ _ _ _ _ _ _]. fold res in Hsame.
  rewrite list_elem_of_fmap. split.
  - intros (r & -> & Hr). apply merge_of_out in Hr. unfold url_map in Hr.
    rewrite (merge_overlay_get _ (gate_stable s)) in Hr.
    apply (touch_fold_last (gate s)) in Hr as [(l1 & l2 & E & Hent & _) _].
    exists r. split_and!; [|done|by rewrite (same_but_ids_key _ _ r Hsame)].
    rewrite E. apply elem_of_app. right. left.
  - intros (x & Hx & Hent & Hk).
    destruct (touch_fold_some (gate s) h k (current ++ fresh) x None
                Hx Hent Hk) as [r Hr].
    pose proof Hr as Hlast.
    apply (touch_fold_last (gate s)) in Hlast as [_ Hkr].
    exists r. split; [by rewrite (same_but_ids_key _ _ r Hsame)|].
    apply merge_of_out. unfold url_map.
    by rewrite (merge_overlay_get _ (gate_stable s)), Hkr.
Qed.

(** X4: a record is among those returned by [merge_jobs_by_url] exactly
    when it is the last one, reading [current] and then [fresh], that enters
    the map under its URL: fetched data replaces stored data, and a later
    record replaces an earlier one. *)
Theorem merge_returns_last (s : scraper) (h : heap) (current fresh : list nat)
    (r : nat) :
  let res := merge_of s h current fresh in
  r ∈ res.2 ↔ last_of (gate s) h (current ++ fresh) r.
Proof.
  intros res. unfold res. rewrite merge_of_out. unfold url_map.
  rewrite (merge_overlay_get _ (gate_stable s)).
  rewrite (touch_fold_last (gate s)). split; [by intros [? _]|done].
Qed.

(** X5: when the last record of [current] under a URL carries an integer
    id, the record returned by [merge_jobs_by_url] under that URL has this
    id, whether it is the stored record or one of [fresh]: a URL keeps its id
    from run to run. *)
Theorem merge_carries_id (s : scraper) (h : heap) (current fresh : list nat)
    (c r : nat) :
  last_of (gate s) h current c → is_int (id_of h c) = true →
  let res := merge_of s h current fresh in
  r ∈ res.2 → key_of h r = key_of h c → id_of res.1 r = id_of h c.
Proof.
  intros Hc Hint res. unfold res. rewrite merge_of_eq.
  by apply merge_carried.
Qed.

Lemma merge_carries_id_witness :
  let res := merge_of jobroom ex_update [0]%nat [1]%nat in
  res.2 = [1]%nat ∧ id_of res.1 1%nat = id_of ex_update 0%nat.
Proof.
  split; [by vm_compute|].
  apply (merge_carries_id jobroom ex_update [0]%nat [1]%nat 0%nat 1%nat).
  - exists [], []. split_and!; [done| |constructor].
    split; [by vm_compute|done].
  - by vm_compute.
  - apply (bool_decide_unpack _). by vm_compute.
  - by vm_compute.
Defined.

(** X6: a record returned by jobroom's, ge's or talent's
    [merge_jobs_by_url] has a ["source"]: the one it had, or the scraper's
    name when it had none; jobup's merge leaves the field as it is. *)
Theorem merge_source (s : scraper) (h : heap) (current fresh : list nat)
    (r : nat) :
  let res := merge_of s h current fresh in
  r ∈ res.2 →
  (res.1 !!! r) !! "source"%string = source_after (default_source s) (h !!! r).
Proof.
  intros res Hr. unfold res in *. rewrite merge_of_eq in *.
  by apply merge_source_field.
Qed.

Lemma merge_source_witness :
  let res := merge_of ge ex_update [0]%nat [1]%nat in
  (res.1 !!! 1%nat) !! "source"%string = Some (VStr (utf8 "ge")).
Proof.
  apply (merge_source ge ex_update [0]%nat [1]%nat 1%nat).
  apply (bool_decide_unpack _). by vm_compute.
Defined.

(** * More on the crawls of jobup and talent *)

(** ** The links collected *)

Lemma links_unique_collect link c :
  link ∉ seen_links c → links_unique c → links_unique (collect link c).
Proof.
  intros Hlink [Hnd Hseen]. split; simpl.
  - apply NoDup_app. split_and!; [done| |apply NoDup_singleton].
    intros x Hx ->%list_elem_of_singleton. apply Hlink. by apply Hseen.
  - intros x. rewrite elem_of_union, elem_of_singleton, elem_of_app,
      list_elem_of_singleton, Hseen. tauto.
Qed.

Lemma links_unique_streak n c : links_unique c → links_unique (set_streak n c).
Proof. done. Qed.

Lemma links_unique_request page c :
  links_unique c → links_unique (request page c).
Proof. done. Qed.

Lemma scan_page1_unique l : ∀ c,
  links_unique c → links_unique (scan_page1 l c).
Proof.
  induction l as [|x l IH]; intros c Hc; simpl; [done|].
  case_bool_decide; apply IH; [done|]. by apply links_unique_collect.
Qed.

Lemma scan_links_unique t known l : ∀ c,
  links_unique c → links_unique (scan_links t known l c).
Proof.
  induction l as [|x l IH]; intros c Hc; simpl; [done|].
  case_bool_decide as Hx; [by apply IH|].
  pose proof (links_unique_collect x c Hx Hc) as Hc'.
  repeat case_match; try apply IH; done.
Qed.

Lemma jobup_paginate_unique a existing_jobs auto_state master_jobs_file state
    search stop_on_empty pages : ∀ c,
  links_unique c →
  links_unique (Jobup.paginate a existing_jobs auto_state master_jobs_file
                  state search stop_on_empty pages c).
Proof.
  induction pages as [|page rest IH]; intros c Hc; simpl; [done|].
  repeat case_match; try done.
  - by apply scan_links_unique.
  - by apply IH, scan_links_unique.
Qed.

Lemma talent_paginate_unique a existing_jobs auto_state search pages :
  ∀ c c', links_unique c →
  Talent.paginate a existing_jobs auto_state search pages c = Returns c' →
  links_unique c'.
Proof.
  induction pages as [|page rest IH]; intros c c' Hc; simpl.
  { by intros [= <-]. }
  destruct (get_or_raise (search page)) as [text|]; [|done]. simpl.
  destruct (extract_detail_links text) as [page_links|]; [|done]. simpl.
  case_bool_decide; [by intros [= <-]|].
  pose proof (scan_links_unique (Talent.stop_after_seen a)
                (Talent.known_urls existing_jobs auto_state)
                page_links (request page c) Hc) as Hc2.
  destruct (streak_reached _ _); [by intros [= <-]|]. by apply IH.
Qed.

Lemma links_unique_init page failure :
  links_unique (Cursor [] ∅ 0 [page] failure).
Proof.
  split; [constructor|]. intros x. simpl.
  rewrite elem_of_empty, elem_of_nil. done.
Qed.

(** X7: the links a crawl of jobup or talent ends with ([unique_links],
    [links]) are pairwise distinct, whatever the pages show and however the
    crawl stops. *)
Theorem crawl_links_unique :
  (∀ (a : Jobup.args) existing_jobs auto_state master_jobs_file state search,
     NoDup (links (Jobup.crawl a existing_jobs auto_state master_jobs_file
                     state search)))
  ∧ (∀ (a : Talent.args) existing_jobs auto_state search c,
       Talent.crawl a existing_jobs auto_state search = Returns c →
       NoDup (links c)).
Proof.
  split.
  - intros. unfold Jobup.crawl.
    destruct (extract_detail_links _); [|apply links_unique_init].
    destruct (Jobup.total_pages a _);
      apply jobup_paginate_unique, scan_page1_unique, links_unique_init.
  - intros a existing_jobs auto_state search c. unfold Talent.crawl.
    destruct (get_or_raise (search 1)) as [text|]; [|done]. simpl.
    destruct (extract_detail_links text) as [page1_links|]; [|done]. simpl.
    intros Hc. eapply talent_paginate_unique in Hc; [apply Hc|].
    apply scan_page1_unique, links_unique_init.
Qed.

(** ** The pages requested *)

Lemma take_seqZ n a len :
  take n (seqZ a len) = seqZ a (Z.of_nat (n `min` Z.to_nat len)).
Proof.
  unfold seqZ. by rewrite <- fmap_take, take_seq, Nat2Z.id.
Qed.

(** Page 1 and the first pages of a range that starts at 2 are the pages
    from 1 to some number within the range. *)
Lemma first_pages n last :
  ∃ m : nat, 1 :: take n (range 2 last) = seqZ 1 (Z.of_nat m)
    ∧ (0 < m)%nat ∧ Z.of_nat m ≤ Z.max 1 (last - 1)
    ∧ (m ≤ S n)%nat.
Proof.
  exists (S (n `min` Z.to_nat (last - 2))). unfold range.
  rewrite take_seqZ. split_and!; [|lia|lia|lia].
  rewrite (seqZ_cons 1) by lia. do 2 f_equal. lia.
Qed.

Lemma jobup_fetch_failed (r : response html) :
  request_failed r → Jobup.fetch_search_page r = (None, true).
Proof.
  intros [->|(status & text & -> & Hs)]; [done|].
  unfold Jobup.fetch_search_page. case_bool_decide; [done|].
  by assert ((400 <=? status) = true) as -> by by apply Z.leb_le.
Qed.

Section jobup_pages_more.
Variable a : Jobup.args.
Variables existing_jobs master_jobs_file : list record.
Variables auto_state state : record.
Variable search : Z → response html.
Local Abbreviation paginate :=
  (Jobup.paginate a existing_jobs auto_state master_jobs_file state search).
Local Abbreviation crawl :=
  (Jobup.crawl a existing_jobs auto_state master_jobs_file state search).

(** The pages requested by either loop are the first ones of its range, and
    every one before the last let the loop go on. *)
Lemma jobup_paginate_goes_on stop_on_empty pages : ∀ c,
  ∃ n, requested (paginate stop_on_empty pages c)
       = requested c ++ take n pages
    ∧ (∀ i p, (S i < n)%nat → pages !! i = Some p →
       jobup_goes_on stop_on_empty (search p)).
Proof.
  induction pages as [|page rest IH]; intros c.
  { exists 0%nat. split; [by rewrite app_nil_r|]. intros; lia. }
  assert (∃ n, requested (request page c) = requested c ++ take n (page :: rest)
            ∧ (∀ i p, (S i < n)%nat → (page :: rest) !! i = Some p →
               jobup_goes_on stop_on_empty (search p)))
    as Hstop.
  { exists 1%nat. split; [done|]. intros; lia. }
  simpl.
  destruct (Jobup.fetch_search_page (search page)) as [[text|] [|]] eqn:E;
    try exact Hstop.
  destruct (html_nonempty text) eqn:Hne; simpl; [|exact Hstop].
  destruct (extract_detail_links text) as [page_links|e] eqn:Hx;
    [|exact Hstop].
  destruct (stop_on_empty && bool_decide (page_links = []))
    eqn:Hempty; [exact Hstop|].
  set (c2 := scan_links _ _ _ (request page c)).
  assert (requested c2 = requested c ++ [page]) as Hc2
    by apply scan_links_requested.
  destruct (streak_reached _ _).
  { exists 1%nat. split; [done|]. intros; lia. }
  destruct (IH c2) as (n & Hn & Hpages).
  exists (S n). split.
  - rewrite Hn, Hc2, <- app_assoc. done.
  - intros [|i] p Hi Hp.
    + injection Hp as <-. exists text, page_links. split_and!; [done..|].
      intros ->. simpl in Hempty. by apply bool_decide_eq_false in Hempty.
    + apply (Hpages i); [lia|done].
Qed.

(** The number of the last page the loop may ask for. *)
Lemma jobup_crawl_pages :
  ∃ stop_on_empty last n,
    requested crawl = 1 :: take n (range 2 (last + 1))
    ∧ (∀ i p, (S i < n)%nat → range 2 (last + 1) !! i = Some p →
       jobup_goes_on stop_on_empty (search p))
    ∧ match extract_total_pages (Jobup.fetch_base_page (search 1)) with
      | Some total =>
        last = if 0 <? Jobup.max_pages a then total `min` Jobup.max_pages a
               else total
      | None => last = if 0 <? Jobup.max_pages a then Jobup.max_pages a
                       else 200
      end.
Proof.
  unfold Jobup.crawl, Jobup.total_pages.
  destruct (extract_detail_links _) as [page1_links|e].
  2:{ destruct (extract_total_pages _) as [total|];
        eexists true, _, 0%nat; (split_and!; [done| |done]); intros; lia. }
  set (c := scan_page1 _ _).
  assert (requested c = [1]) as Hc by apply scan_page1_requested.
  destruct (extract_total_pages _) as [total|].
  - destruct (jobup_paginate_goes_on false
                (range 2 ((if 0 <? Jobup.max_pages a
                           then total `min` Jobup.max_pages a else total) + 1))
                c) as (n & Hn & Hpages).
    eexists false, _, n. rewrite Hn, Hc. done.
  - destruct (jobup_paginate_goes_on true
                (range 2 ((if 0 <? Jobup.max_pages a then Jobup.max_pages a
                           else 200) + 1)) c) as (n & Hn & Hpages).
    eexists true, _, n. rewrite Hn, Hc. done.
Qed.

(** In either mode, no page is requested after one whose request failed. *)
Lemma jobup_stops_on_failure p q :
  2 ≤ p < q → request_failed (search p) → q ∉ requested crawl.
Proof.
  intros Hpq Hp.
  destruct jobup_crawl_pages as (b & last & n & -> & Hpages & _).
  intros [?|Hq]%elem_of_cons; [lia|].
  apply prefix_of_range in Hq as (j & Hj & Hlook & ->).
  assert (range 2 (last + 1) !! Z.to_nat (p - 2) = Some p) as Hi.
  { unfold range in *. apply lookup_seqZ in Hlook as [_ ?].
    apply lookup_seqZ. lia. }
  assert (S (Z.to_nat (p - 2)) < n)%nat as Hlt by lia.
  destruct (Hpages _ _ Hlt Hi) as (text & page_links & Hfetch & _).
  by rewrite (jobup_fetch_failed _ Hp) in Hfetch.
Qed.

Lemma jobup_page_failure stop_on_empty page rest c :
  request_failed (search page) →
  paginate stop_on_empty (page :: rest) c = request page c.
Proof. intros Hp. simpl. by rewrite (jobup_fetch_failed _ Hp). Qed.

End jobup_pages_more.

Lemma state_file_save_output seen rows :
  state_file (save_output seen rows) = seen.
Proof. by destruct rows. Qed.

(** X8: a crawl of jobup requests the search pages 1, 2, ..., n for some
    n >= 1, each once and in this order; n is at most --max-pages when that
    is positive, at most the total page count read on page 1 otherwise, and
    at most 200 when neither is given. *)
Theorem jobup_pages_in_order (a : Jobup.args) existing_jobs auto_state
    master_jobs_file state search :
  ∃ n : nat,
    requested (Jobup.crawl a existing_jobs auto_state master_jobs_file state
                 search) = seqZ 1 (Z.of_nat n)
    ∧ (0 < n)%nat
    ∧ (0 < Jobup.max_pages a → Z.of_nat n ≤ Z.max 1 (Jobup.max_pages a))
    ∧ match extract_total_pages (Jobup.fetch_base_page (search 1)) with
      | Some total => Z.of_nat n ≤ Z.max 1 total
      | None => Jobup.max_pages a ≤ 0 → Z.of_nat n ≤ 200
      end.
Proof.
  destruct (jobup_crawl_pages a existing_jobs master_jobs_file auto_state
              state search) as (b & last & k & -> & _ & Hlast).
  destruct (first_pages k (last + 1)) as (m & -> & Hm & Hle & _).
  exists m. split_and!; [done..| |].
  - intros Hmax. destruct (extract_total_pages _);
      assert ((0 <? Jobup.max_pages a) = true) as E by (by apply Z.ltb_lt);
      rewrite E in Hlast; lia.
  - destruct (extract_total_pages _).
    + destruct (0 <? Jobup.max_pages a); lia.
    + intros Hmax.
      assert ((0 <? Jobup.max_pages a) = false) as E by (apply Z.ltb_ge; lia).
      rewrite E in Hlast. lia.
Qed.


(** ** The base page *)

Lemma jobup_paginate_first a existing_jobs auto_state master_jobs_file state
    search stop_on_empty page rest c :
  ∃ more, requested (Jobup.paginate a existing_jobs auto_state
                       master_jobs_file state search stop_on_empty
                       (page :: rest) c)
          = requested c ++ page :: more.
Proof.
  simpl.
  assert (∃ more, requested (request page c) = requested c ++ page :: more)
    as Hstop by by exists [].
  repeat case_match; try exact Hstop.
  - exists []. by rewrite scan_links_requested.
  - match goal with
    | |- context [Jobup.paginate _ _ _ _ _ _ _ _ ?c2] =>
      destruct (jobup_paginate_goes_on a existing_jobs master_jobs_file
                  auto_state state search stop_on_empty rest c2)
        as (n & -> & _)
    end.
    rewrite scan_links_requested. simpl. rewrite <- app_assoc.
    by eexists.
Qed.

(** X10: when the request of jobup's base page fails, the run goes on
    without links from page 1, takes the dynamic mode, and still requests
    page 2 (unless --max-pages is 1): the failure of page 1 does not stop
    the pagination. *)
Theorem jobup_base_page_failure (a : Jobup.args) existing_jobs auto_state
    master_jobs_file state search :
  request_failed (search 1) →
  Jobup.max_pages a ≤ 0 ∨ 2 ≤ Jobup.max_pages a →
  let c := Jobup.crawl a existing_jobs auto_state master_jobs_file state
             search in
  c = Jobup.paginate a existing_jobs auto_state master_jobs_file state search
        true
        (range 2 ((if 0 <? Jobup.max_pages a then Jobup.max_pages a else 200)
                  + 1))
        (Cursor [] ∅ 0 [1] None)
  ∧ ∃ more, requested c = 1 :: 2 :: more.
Proof.
  intros Hfail Hmax. cbv zeta. unfold Jobup.crawl.
  assert (Jobup.fetch_base_page (search 1) = no_html) as ->.
  { destruct Hfail as [->|(status & text & -> & Hs)]; [done|].
    unfold Jobup.fetch_base_page. case_bool_decide; [done|].
    by assert ((400 <=? status) = true) as -> by by apply Z.leb_le. }
  change (extract_detail_links no_html) with (Returns (@nil str)).
  change (Jobup.total_pages a no_html) with (@None Z).
  cbn [scan_page1]. split; [done|].
  set (last := (if 0 <? Jobup.max_pages a then _ else _) + 1).
  assert (range 2 last = 2 :: range 3 last) as ->.
  { unfold range, last. destruct (0 <? Jobup.max_pages a) eqn:Hp.
    - apply Z.ltb_lt in Hp. rewrite seqZ_cons by lia. do 2 f_equal; lia.
    - by vm_compute. }
  destruct (jobup_paginate_first a existing_jobs auto_state master_jobs_file
              state search true 2 (range 3 last) (Cursor [] ∅ 0 [1] None))
    as [more ->].
  by exists more.
Qed.

Lemma jobup_base_page_failure_witness :
  let search := λ page, if page =? 1 then Response 503 no_html
                        else ex_empty_page2 page in
  let c := Jobup.crawl ex_args [] ∅ [] ∅ search in
  c = Jobup.paginate ex_args [] ∅ [] ∅ search true
        (range 2 ((if 0 <? Jobup.max_pages ex_args
                   then Jobup.max_pages ex_args else 200) + 1))
        (Cursor [] ∅ 0 [1] None)
  ∧ ∃ more, requested c = 1 :: 2 :: more.
Proof.
  apply (jobup_base_page_failure ex_args [] ∅ [] ∅
           (λ page, if page =? 1 then Response 503 no_html
                    else ex_empty_page2 page)).
  - right. exists 503, no_html. split; [reflexivity|lia].
  - left. unfold ex_args. simpl. lia.
Defined.

(** ** The detail pages *)

Lemma length_omap_le {A B} (f : A → option B) l :
  (length (omap f l) ≤ length l)%nat.
Proof.
  induction l as [|x l IH]; [done|].
  change (omap f (x :: l))
    with (match f x with Some y => y :: omap f l | None => omap f l end).
  destruct (f x); simpl; lia.
Qed.

Lemma limit_jobs_elem {A} max_jobs (l : list A) x :
  x ∈ limit_jobs max_jobs l → x ∈ l.
Proof.
  unfold limit_jobs. destruct (0 <? max_jobs); [|done].
  apply (subseteq_take (Z.to_nat max_jobs) l).
Qed.

Lemma limit_jobs_length {A} max_jobs (l : list A) :
  (length (limit_jobs max_jobs l) ≤ length l)%nat
  ∧ (0 < max_jobs → Z.of_nat (length (limit_jobs max_jobs l)) ≤ max_jobs).
Proof.
  unfold limit_jobs. destruct (0 <? max_jobs) eqn:E.
  - rewrite length_take. lia.
  - apply Z.ltb_ge in E. lia.
Qed.

(** X11: the records jobup fetches in a run come from links of the crawl
    that are not among the known URLs, each filed under the URL it was
    fetched from; there are at most --max-jobs of them when that is
    positive, and never more than there are links. *)
Theorem jobup_fetch_jobs_spec (a : Jobup.args) existing_jobs auto_state detail
    (unique_links : list str) :
  let fetched :=
    Jobup.fetch_jobs a existing_jobs auto_state detail unique_links in
  (length fetched ≤ length unique_links)%nat
  ∧ (0 < Jobup.max_jobs a → Z.of_nat (length fetched) ≤ Jobup.max_jobs a)
  ∧ ∀ job, job ∈ fetched →
      ∃ u, u ∈ unique_links
           ∧ (u ∉ Jobup.known_urls existing_jobs auto_state)
           ∧ job !! "url"%string = Some (VStr u).
Proof.
  intros fetched. unfold fetched, Jobup.fetch_jobs.
  set (new := filter _ unique_links).
  pose proof (limit_jobs_length (Jobup.max_jobs a) new) as [Hlen Hmax].
  pose proof (length_omap_le (Jobup.fetch_detail detail)
                (limit_jobs (Jobup.max_jobs a) new)) as Homap.
  assert (length new ≤ length unique_links)%nat as Hnew
    by apply length_filter.
  split_and!; [lia|intros; specialize (Hmax ltac:(done)); lia|].
  intros job (u & Hu & Hjob)%list_elem_of_omap.
  apply limit_jobs_elem, list_elem_of_filter in Hu as [Hunknown Hu].
  exists u. split_and!; [done..|].
  unfold Jobup.fetch_detail in Hjob.
  destruct (detail u) as [fields|]; [|done]. injection Hjob as <-.
  apply lookup_insert_eq.
Qed.

(** * More on jobroom's loop *)

Lemma within_days_raises today fromisoformat posting_date max_days e :
  within_days today fromisoformat posting_date max_days = Raises e →
  e = TypeError.
Proof.
  unfold within_days. destruct max_days; [|done].
  destruct (negb _); [done|].
  destruct posting_date; try (by intros [= <-]); try done.
  by destruct (fromisoformat s).
Qed.

Lemma filter_within_raises today fromisoformat max_days rows e :
  filter_within today fromisoformat rows max_days = Raises e → e = TypeError.
Proof.
  induction rows as [|row rows IH]; simpl; [done|].
  destruct (within_days _ _ _ _) as [ok|e'] eqn:E; simpl.
  - destruct (filter_within _ _ rows _); simpl; [done|].
    intros [= <-]. by apply IH.
  - intros [= <-]. by eapply within_days_raises.
Qed.

Section jobroom_loop.
Variable today : Z.
Variable fromisoformat : str → option Z.
Variable a : Jobroom.args.
Variable existing_jobs : list record.
Variable auto_state : record.
Variable search : Z → response Jobroom.api_page.
Local Abbreviation known_urls := (Jobroom.known_urls existing_jobs auto_state).
Local Abbreviation scan_rows :=
  (Jobroom.scan_rows today fromisoformat a existing_jobs auto_state).
Local Abbreviation loop :=
  (Jobroom.loop today fromisoformat a existing_jobs auto_state search).
Local Abbreviation admits :=
  (jobroom_admits today fromisoformat a existing_jobs auto_state).
Local Abbreviation limit_reached :=
  (Jobroom.jobs_limit_reached a).

Local Abbreviation post :=
  (jobroom_scan_post today fromisoformat a existing_jobs auto_state).

Lemma scan_post_same c c2 out :
  Jobroom.requested c2 = Jobroom.requested c →
  Jobroom.total_api_known c2 = Jobroom.total_api_known c →
  Jobroom.fresh_jobs c2 = Jobroom.fresh_jobs c →
  post c2 out → post c out.
Proof.
  intros Hr Ht Hf. destruct out; [|done]. simpl. by rewrite Hr, Ht, Hf.
Qed.

Lemma scan_post_stop c c2 :
  Jobroom.requested c2 = Jobroom.requested c →
  Jobroom.total_api_known c2 = Jobroom.total_api_known c →
  Jobroom.fresh_jobs c2 = Jobroom.fresh_jobs c →
  post c (Returns c2).
Proof.
  intros Hr Ht Hf. simpl. split_and!; [done..| |rewrite Hf; lia].
  exists []. by rewrite app_nil_r.
Qed.

Lemma scan_rows_spec rows : ∀ c, post c (scan_rows rows c).
Proof.
  induction rows as [|raw rows IH]; intros c.
  { by apply scan_post_stop. }
  destruct raw as [row| |]; [|done|done].
  assert (∀ c2, Jobroom.requested c2 = Jobroom.requested c →
            Jobroom.total_api_known c2 = Jobroom.total_api_known c →
            Jobroom.fresh_jobs c2 = Jobroom.fresh_jobs c →
            post c (scan_rows rows c2)) as Hskip.
  { intros c2 Hr Ht Hf. by eapply scan_post_same. }
  simpl. case_bool_decide as Hurl; [by apply Hskip|].
  (* the filters, from a cursor that differs from [c] in the URLs noted and
     the streak only *)
  assert (∀ c2, Jobroom.requested c2 = Jobroom.requested c →
            Jobroom.total_api_known c2 = Jobroom.total_api_known c →
            Jobroom.fresh_jobs c2 = Jobroom.fresh_jobs c →
            post c
              (if bool_decide (url_key row ∈ known_urls)
               then scan_rows rows c2
               else if negb (Jobroom.allow_non_french a)
                       && negb (Jobroom.is_french_job row)
               then scan_rows rows c2
               else
                 ok ← within_days today fromisoformat
                        (get row "posting_date") (Jobroom.max_days a);
                 if negb ok then scan_rows rows c2 else
                 let c3 := Jobroom.Cursor (Jobroom.fresh_jobs c2 ++ [row])
                             (Jobroom.all_page_urls c2) (Jobroom.seen_streak c2)
                             (Jobroom.total_api_known c2)
                             (Jobroom.requested c2) in
                 if limit_reached c3 then Returns c3 else scan_rows rows c3))
    as Hfilters.
  { intros c2 Hr Ht Hf.
    case_bool_decide as Hknown; [by apply Hskip|].
    destruct (negb (Jobroom.allow_non_french a)
              && negb (Jobroom.is_french_job row)) eqn:Hlang;
      [by apply Hskip|].
    destruct (within_days _ _ _ _) as [ok|e] eqn:Hdate; simpl;
      [|by rewrite (within_days_raises _ _ _ _ _ Hdate)].
    destruct ok; simpl; [|by apply Hskip].
    assert (admits row) as Hrow.
    { split_and!; [done..| |done].
      destruct (Jobroom.allow_non_french a); [by left|right].
      simpl in Hlang. by apply negb_false_iff in Hlang. }
    set (c3 := Jobroom.Cursor _ _ _ _ _).
    destruct (limit_reached c3) eqn:Hlimit.
    - split_and!; [done..| |].
      + exists [row]. simpl. rewrite Hf. split; [done|]. by constructor.
      + intros Hmax Hlen. simpl. rewrite Hf, length_app. simpl. lia.
    - specialize (IH c3). destruct (scan_rows rows c3) as [c'|e]; [|done].
      simpl in IH. rewrite Hr, Ht, Hf in IH.
      destruct IH as (Hr' & Ht' & (new & Hnew & Hall) & Hlen').
      split_and!; [done..| |].
      + exists (row :: new). rewrite Hnew, <- app_assoc. split; [done|].
        by constructor.
      + intros Hmax Hlen. apply Hlen'; [done|].
        unfold Jobroom.jobs_limit_reached in Hlimit. simpl in Hlimit.
        rewrite Hf in Hlimit. rewrite length_app. simpl.
        apply andb_false_iff in Hlimit as [?%Z.ltb_ge|?%Z.leb_gt];
          rewrite ?length_app in *; simpl in *; lia. }
  destruct (0 <? Jobroom.stop_after_seen a); [|by apply Hfilters].
  case_bool_decide as Hknown.
  - destruct (Jobroom.stop_after_seen a <=? _).
    + by apply scan_post_stop.
    + by apply Hfilters.
  - by apply Hfilters.
Qed.

(** What a loop that ends leaves: rows it keeps, within the limit, and the
    pages requested one after the other, within the page limit. *)
Lemma loop_spec fuel : ∀ page c out,
  loop fuel page c = Some out →
  Forall admits (Jobroom.fresh_jobs c) →
  (0 < Jobroom.max_jobs a →
   Z.of_nat (length (Jobroom.fresh_jobs c)) < Jobroom.max_jobs a) →
  match out with
  | Returns c' =>
    Forall admits (Jobroom.fresh_jobs c')
    ∧ (0 < Jobroom.max_jobs a →
       Z.of_nat (length (Jobroom.fresh_jobs c')) ≤ Jobroom.max_jobs a)
    ∧ ∃ k : nat,
        Jobroom.requested c' = Jobroom.requested c ++ seqZ page (Z.of_nat k)
        ∧ (0 < Jobroom.max_pages a → page ≤ Jobroom.max_pages a →
           page + Z.of_nat k ≤ Jobroom.max_pages a)
  | Raises e => e ≠ RequestException
  end.
Proof.
  induction fuel as [|fuel IH]; intros page c out Hloop Hadm Hlen; [done|].
  simpl in Hloop.
  destruct ((0 <? Jobroom.max_pages a) && (Jobroom.max_pages a <=? page))
    eqn:Hlimit.
  { injection Hloop as <-. split_and!; [done|intros; lia|].
    exists 0%nat. split; [by rewrite app_nil_r|]. lia. }
  assert (0 < Jobroom.max_pages a → page + 1 ≤ Jobroom.max_pages a) as Hpage.
  { apply andb_false_iff in Hlimit as [?%Z.ltb_ge|?%Z.leb_gt]; lia. }
  assert (∀ c1 : Jobroom.cursor,
            Jobroom.fresh_jobs c1 = Jobroom.fresh_jobs c →
            Jobroom.requested c1 = Jobroom.requested c ++ [page] →
            Forall admits (Jobroom.fresh_jobs c1)
            ∧ (0 < Jobroom.max_jobs a →
               Z.of_nat (length (Jobroom.fresh_jobs c1)) ≤ Jobroom.max_jobs a)
            ∧ ∃ k : nat,
                Jobroom.requested c1
                = Jobroom.requested c ++ seqZ page (Z.of_nat k)
                ∧ (0 < Jobroom.max_pages a → page ≤ Jobroom.max_pages a →
                   page + Z.of_nat k ≤ Jobroom.max_pages a)) as Hstop.
  { intros c1 Hf Hr. rewrite Hf. split_and!; [done|intros; lia|].
    exists 1%nat. split; [done|]. lia. }
  destruct (get_or_raise (search page)) as [body|e].
  2: { injection Hloop as <-. by apply Hstop. }
  case_bool_decide as Hrows.
  { injection Hloop as <-. by apply Hstop. }
  set (c2 := Jobroom.Cursor _ _ _ _ (Jobroom.requested c ++ [page])) in Hloop.
  pose proof (scan_rows_spec (Jobroom.raw_rows body) c2) as Hscan.
  destruct (scan_rows (Jobroom.raw_rows body) c2) as [c3|e];
    [|by injection Hloop as <-].
  destruct Hscan as (Hr3 & _ & (new & Hnew & Hall) & Hlen3). simpl in *.
  assert (Forall admits (Jobroom.fresh_jobs c3)) as Hadm3.
  { rewrite Hnew. by apply Forall_app. }
  assert (Forall admits (Jobroom.fresh_jobs c3)
          ∧ (0 < Jobroom.max_jobs a →
             Z.of_nat (length (Jobroom.fresh_jobs c3)) ≤ Jobroom.max_jobs a)
          ∧ ∃ k : nat,
              Jobroom.requested c3
              = Jobroom.requested c ++ seqZ page (Z.of_nat k)
              ∧ (0 < Jobroom.max_pages a → page ≤ Jobroom.max_pages a →
                 page + Z.of_nat k ≤ Jobroom.max_pages a)) as Hstop3.
  { split_and!; [done|auto|]. exists 1%nat. split; [done|]. lia. }
  destruct (streak_reached _ _); [by injection Hloop as <-|].
  destruct (limit_reached c3) eqn:Hjobs; [by injection Hloop as <-|].
  destruct (match _ with Some total => _ | None => false end);
    [by injection Hloop as <-|].
  destruct (Z.of_nat (length (Jobroom.raw_rows body)) <? 25);
    [by injection Hloop as <-|].
  apply IH in Hloop; [|done|].
  - destruct out as [c'|e]; [|done].
    destruct Hloop as (Hadm' & Hlen' & k & Hk & Hmax).
    split_and!; [done..|]. exists (S k). split.
    + rewrite Hk, Hr3, <- app_assoc. f_equal.
      rewrite (seqZ_cons page) by lia. simpl. do 2 f_equal; lia.
    + intros ? ?. specialize (Hmax ltac:(done)). lia.
  - intros Hmax. unfold Jobroom.jobs_limit_reached in Hjobs.
    apply andb_false_iff in Hjobs as [?%Z.ltb_ge|?%Z.leb_gt]; lia.
Qed.

(** With a page limit the loop ends within as many rounds, and one more to
    see the limit. *)
Lemma loop_terminates d : ∀ page c,
  0 < Jobroom.max_pages a → Jobroom.max_pages a - page ≤ Z.of_nat d →
  ∃ out, loop (S d) page c = Some out.
Proof.
  induction d as [|d IH]; intros page c Hmax Hd.
  - simpl.
    assert ((0 <? Jobroom.max_pages a) && (Jobroom.max_pages a <=? page)
            = true) as ->; [|by eexists].
    apply andb_true_iff. rewrite Z.ltb_lt, Z.leb_le. lia.
  - remember (S d) as fuel eqn:Hfuel. simpl.
    destruct ((0 <? Jobroom.max_pages a) && (Jobroom.max_pages a <=? page))
      eqn:Hlimit; [by eexists|].
    destruct (get_or_raise (search page)) as [body|e]; [|by eexists].
    case_bool_decide; [by eexists|].
    destruct (scan_rows _ _) as [c3|e]; [|by eexists].
    repeat (match goal with
            | |- ∃ out, (if ?b then _ else _) = Some out =>
              destruct b; [by eexists|]
            end).
    subst fuel. apply IH; [done|lia].
Qed.

End jobroom_loop.

Lemma raised_save_output seen rows e :
  raised (save_output seen rows) = Some e → rows = Raises e.
Proof. destruct rows; simpl; [done|]. by intros [= ->]. Qed.

Lemma jobroom_crawl_spec today fromisoformat a existing_jobs auto_state
    search fuel out :
  Jobroom.crawl today fromisoformat a existing_jobs auto_state search fuel
  = Some out →
  match out with
  | Returns c =>
    Forall (jobroom_admits today fromisoformat a existing_jobs auto_state)
           (Jobroom.fresh_jobs c)
    ∧ (0 < Jobroom.max_jobs a →
       Z.of_nat (length (Jobroom.fresh_jobs c)) ≤ Jobroom.max_jobs a)
    ∧ ∃ k : nat,
        Jobroom.requested c = seqZ 0 (Z.of_nat k)
        ∧ (0 < Jobroom.max_pages a → Z.of_nat k ≤ Jobroom.max_pages a)
  | Raises e => e ≠ RequestException
  end.
Proof.
  intros Hrun. apply loop_spec in Hrun; [|done|simpl; lia].
  destruct out as [c|e]; [|done].
  destruct Hrun as (Hadm & Hlen & k & Hk & Hmax).
  split_and!; [done..|]. exists k. split; [done|]. intros ?. lia.
Qed.

(** X12: with --max-pages N > 0, jobroom's loop ends after at most N
    requests (N + 1 rounds suffice). When it ends without an exception it
    has requested the pages 0, 1, ..., k - 1 of the API, in this order, for
    some k <= N. An exception that ends it is never one of the network:
    every failed request is caught and stops the loop. *)
Theorem jobroom_page_budget today fromisoformat (a : Jobroom.args)
    existing_jobs auto_state search :
  0 < Jobroom.max_pages a →
  ∃ out,
    Jobroom.crawl today fromisoformat a existing_jobs auto_state search
      (S (Z.to_nat (Jobroom.max_pages a))) = Some out
    ∧ match out with
      | Returns c =>
        ∃ k : nat, Jobroom.requested c = seqZ 0 (Z.of_nat k)
                   ∧ Z.of_nat k ≤ Jobroom.max_pages a
      | Raises e => e ≠ RequestException
      end.
Proof.
  intros Hmax.
  destruct (loop_terminates today fromisoformat a existing_jobs auto_state
              search (Z.to_nat (Jobroom.max_pages a)) 0
              (Jobroom.Cursor [] [] 0 None []) Hmax ltac:(lia)) as [out Hout].
  exists out. split; [exact Hout|].
  apply jobroom_crawl_spec in Hout. destruct out as [c|e]; [|done].
  destruct Hout as (_ & _ & k & Hk & Hle). exists k. auto.
Qed.

Lemma jobroom_page_budget_witness :
  ∃ out,
    Jobroom.crawl 0 iso_date ex_jobroom_limits [] ∅ ex_api 3 = Some out
    ∧ match out with
      | Returns c =>
        ∃ k : nat, Jobroom.requested c = seqZ 0 (Z.of_nat k)
                   ∧ Z.of_nat k ≤ 2
      | Raises e => e ≠ RequestException
      end.
Proof.
  apply (jobroom_page_budget 0 iso_date ex_jobroom_limits [] ∅ ex_api).
  unfold ex_jobroom_limits. simpl. lia.
Defined.

(** X13: every row a run of jobroom ends with in [fresh_jobs] has a URL
    that is not blank and not among the known URLs, passes [is_french_job]
    unless --allow-non-french is given, and is within the date window; and
    there are at most --max-jobs of them when that is positive. *)
Theorem jobroom_fresh_jobs today fromisoformat (a : Jobroom.args)
    existing_jobs auto_state search fuel c :
  Jobroom.crawl today fromisoformat a existing_jobs auto_state search fuel
  = Some (Returns c) →
  Forall (jobroom_admits today fromisoformat a existing_jobs auto_state)
         (Jobroom.fresh_jobs c)
  ∧ (0 < Jobroom.max_jobs a →
     Z.of_nat (length (Jobroom.fresh_jobs c)) ≤ Jobroom.max_jobs a).
Proof.
  intros Hrun. apply jobroom_crawl_spec in Hrun.
  by destruct Hrun as (? & ? & _).
Qed.

Lemma jobroom_fresh_jobs_witness :
  ∃ c, Jobroom.crawl 0 iso_date ex_jobroom_limits [] ∅ ex_api 3
       = Some (Returns c)
    ∧ Jobroom.fresh_jobs c = jobs_at [k1; k2; k3]
    ∧ Forall (jobroom_admits 0 iso_date ex_jobroom_limits [] ∅)
             (Jobroom.fresh_jobs c).
Proof.
  eexists. split; [by vm_compute|]. split; [by vm_compute|].
  eapply (proj1 (jobroom_fresh_jobs 0 iso_date ex_jobroom_limits [] ∅ ex_api
                   3 _ _)).
  Unshelve. by vm_compute.
Defined.

(** ** What leaves the crawl of jobup *)

Lemma extract_detail_links_raises (page : html) e :
  extract_detail_links page = Raises e → e ≠ RequestException.
Proof.
  unfold extract_detail_links. destruct (html_nonempty page); [|done].
  destruct (detail_links_of page); [done|]. by intros [= <-].
Qed.

Lemma scan_page1_failed l : ∀ c, failed (scan_page1 l c) = failed c.
Proof.
  induction l as [|x l IH]; intros c; simpl; [done|].
  case_bool_decide; by rewrite IH.
Qed.

Lemma scan_links_failed t known l : ∀ c,
  failed (scan_links t known l c) = failed c.
Proof.
  induction l as [|x l IH]; intros c; simpl; [done|].
  repeat case_match; rewrite ?IH; done.
Qed.

Lemma jobup_paginate_failed a existing_jobs auto_state master_jobs_file state
    search stop_on_empty pages : ∀ c,
  failed c ≠ Some RequestException →
  failed (Jobup.paginate a existing_jobs auto_state master_jobs_file state
            search stop_on_empty pages c) ≠ Some RequestException.
Proof.
  induction pages as [|page rest IH]; intros c Hc; simpl; [done|].
  destruct (Jobup.fetch_search_page (search page)) as [[text|] [|]];
    try exact Hc.
  destruct (negb (html_nonempty text)); [exact Hc|].
  destruct (extract_detail_links text) as [page_links|e] eqn:Hx.
  2:{ simpl. intros [= ->]. by apply extract_detail_links_raises in Hx. }
  destruct (_ && _); [exact Hc|].
  set (c2 := scan_links _ _ _ (request page c)).
  assert (failed c2 = failed c) as Hc2.
  { unfold c2. by rewrite scan_links_failed. }
  destruct (streak_reached _ _); [by rewrite Hc2|].
  apply IH. by rewrite Hc2.
Qed.

Lemma jobup_crawl_failed a existing_jobs auto_state master_jobs_file state
    search :
  failed (Jobup.crawl a existing_jobs auto_state master_jobs_file state
            search) ≠ Some RequestException.
Proof.
  unfold Jobup.crawl.
  destruct (extract_detail_links _) as [page1_links|e] eqn:Hx.
  2:{ simpl. intros [= ->]. by apply extract_detail_links_raises in Hx. }
  destruct (Jobup.total_pages a _);
    apply jobup_paginate_failed; by rewrite scan_page1_failed.
Qed.

(** X14: no run of jobup or of jobroom ends with a [RequestException]:
    every request is made under a handler, and a request that fails stops
    the crawl without ending the run. Other exceptions do end runs: the
    [ValueError] of [urljoin] in jobup, what [normalize] raises in jobroom,
    the [TypeError] of [within_days] in both. *)
Theorem no_request_exception :
  (∀ today fromisoformat (a : Jobup.args) existing_jobs auto_state
     master_jobs_file state search detail,
     raised (Jobup.main today fromisoformat a existing_jobs auto_state
               master_jobs_file state search detail)
     ≠ Some RequestException)
  ∧ (∀ today fromisoformat (a : Jobroom.args) existing_jobs auto_state search
       fuel w,
     Jobroom.main today fromisoformat a existing_jobs auto_state search fuel
     = Some w →
     raised w ≠ Some RequestException).
Proof.
  split.
  - intros. unfold Jobup.main.
    pose proof (jobup_crawl_failed a existing_jobs auto_state
                  master_jobs_file state search) as Hcrawl.
    destruct (failed (Jobup.crawl _ _ _ _ _ _)) as [e|]; [exact Hcrawl|].
    unfold Jobup.persist.
    intros Hr%raised_save_output. by apply filter_within_raises in Hr.
  - intros today fromisoformat a existing_jobs auto_state search fuel w.
    unfold Jobroom.main.
    destruct (Jobroom.crawl _ _ _ _ _ _ _) as [[c|e]|] eqn:Hrun; [| |done].
    + intros [= <-]. unfold Jobroom.persist.
      destruct (filter_within _ _ _ _) as [kept|e] eqn:Hf; simpl; [done|].
      apply filter_within_raises in Hf. by subst e.
    + intros [= <-]. apply jobroom_crawl_spec in Hrun. simpl.
      by intros [= ->].
Qed.

(** * Text helpers *)

(** ** [str.strip] *)

Lemma lstrip_split s :
  ∃ l, s = l ++ lstrip s ∧ Forall (λ c, isspace c = true) l.
Proof.
  induction s as [|c s (l & IH & Hl)]; simpl; [by exists []|].
  destruct (isspace c) eqn:Hc.
  - exists (c :: l). split; [simpl; by rewrite <- IH|by constructor].
  - by exists [].
Qed.

Lemma lstrip_head s c t : lstrip s = c :: t → isspace c = false.
Proof.
  induction s as [|c' s IH]; simpl; [done|].
  destruct (isspace c') eqn:Hc; [done|]. by intros [= <- _].
Qed.

Lemma strip_split s :
  ∃ l1 l2, s = l1 ++ strip s ++ l2
    ∧ Forall (λ c, isspace c = true) l1 ∧ Forall (λ c, isspace c = true) l2.
Proof.
  unfold strip.
  destruct (lstrip_split s) as (l1 & Hs & Hl1).
  destruct (lstrip_split (reverse (lstrip s))) as (l2 & Hr & Hl2).
  exists l1, (reverse l2). split_and!; [|done|by apply Forall_reverse].
  rewrite <- reverse_app, <- Hr, reverse_involutive. done.
Qed.

Lemma strip_head s c t : strip s = c :: t → isspace c = false.
Proof.
  unfold strip. intros Hs.
  destruct (lstrip_split (reverse (lstrip s))) as (l & Hr & _).
  set (w := lstrip (reverse (lstrip s))) in *.
  assert (lstrip s = reverse w ++ reverse l) as Hu.
  { by rewrite <- reverse_app, <- Hr, reverse_involutive. }
  rewrite Hs in Hu. simpl in Hu. by apply lstrip_head in Hu.
Qed.

Lemma strip_last s c : last (strip s) = Some c → isspace c = false.
Proof.
  unfold strip. rewrite last_reverse.
  destruct (lstrip (reverse (lstrip s))) as [|c' t] eqn:E; [done|].
  intros [= <-]. by apply lstrip_head in E.
Qed.

Lemma strip_nil_iff s : strip s = [] ↔ Forall (λ c, isspace c = true) s.
Proof.
  split; [|apply strip_spaces].
  intros E. destruct (strip_split s) as (l1 & l2 & Hs & H1 & H2).
  rewrite E in Hs. rewrite Hs. by apply Forall_app.
Qed.

(** ** [re.sub(r"\s+", " ", s)] *)

Lemma sub_spaces_chars s : ∀ b,
  Forall (λ c, isspace c = true → c = 32%N) (sub_spaces b s).
Proof.
  induction s as [|c s IH]; intros b; simpl; [constructor|].
  destruct (isspace c) eqn:Hc.
  - destruct b; [done|]. by constructor.
  - constructor; [congruence|done].
Qed.

Lemma sub_spaces_single s : ∀ b,
  (b = true → head (sub_spaces b s) ≠ Some 32%N)
  ∧ ∀ i, sub_spaces b s !! i = Some 32%N → sub_spaces b s !! S i ≠ Some 32%N.
Proof.
  induction s as [|c s IH]; intros b; simpl; [done|].
  destruct (isspace c) eqn:Hc.
  - destruct (IH true) as [Hhead Hrest]. destruct b.
    + split; [auto|done].
    + split; [done|]. intros [|i]; simpl; [|by apply Hrest].
      intros _. specialize (Hhead eq_refl).
      by destruct (sub_spaces true s).
  - destruct (IH false) as [_ Hrest]. split.
    + intros _. simpl. intros [= ->]. done.
    + intros [|i]; simpl; [|by apply Hrest]. intros [= ->]. done.
Qed.

Lemma sub_spaces_blank s : ∀ b,
  Forall (λ c, isspace c = true) (sub_spaces b s)
  ↔ Forall (λ c, isspace c = true) s.
Proof.
  induction s as [|c s IH]; intros b; simpl; [done|].
  destruct (isspace c) eqn:Hc.
  - destruct b; rewrite ?Forall_cons, IH.
    + split; [by intros; split|by intros [_ ?]].
    + split; intros [_ ?]; by split.
  - by rewrite !Forall_cons, IH.
Qed.

(** ** Pieces of a text *)

Lemma single_spaced_infix l1 t l2 :
  single_spaced (l1 ++ t ++ l2) → single_spaced t.
Proof.
  intros [Hchars Hsingle]. split.
  - by apply Forall_app in Hchars as [_ [? _]%Forall_app].
  - intros i Hi Hi'.
    apply (Hsingle (length l1 + i)%nat).
    + rewrite lookup_app_r by lia.
      replace (length l1 + i - length l1)%nat with i by lia.
      by apply lookup_app_l_Some.
    + replace (S (length l1 + i)) with (length l1 + S i)%nat by lia.
      rewrite lookup_app_r by lia.
      replace (length l1 + S i - length l1)%nat with (S i) by lia.
      by apply lookup_app_l_Some.
Qed.

Lemma slice_to_prefix limit s : ∃ l, s = slice_to limit s ++ l.
Proof.
  unfold slice_to. destruct (0 <=? limit); eexists; symmetry; apply take_drop.
Qed.

Lemma slice_to_length limit s :
  0 ≤ limit → Z.of_nat (length (slice_to limit s)) ≤ limit.
Proof.
  intros Hl. unfold slice_to.
  assert ((0 <=? limit) = true) as -> by by apply Z.leb_le.
  rewrite length_take. lia.
Qed.

Lemma slice_to_head limit s : 0 < limit → head (slice_to limit s) = head s.
Proof.
  intros Hl. unfold slice_to.
  assert ((0 <=? limit) = true) as -> by (apply Z.leb_le; lia).
  destruct (Z.to_nat limit) eqn:E; [lia|]. by destruct s.
Qed.

Lemma slice_to_single limit s : single_spaced s → single_spaced (slice_to limit s).
Proof.
  intros Hs. destruct (slice_to_prefix limit s) as [l Hl].
  apply (single_spaced_infix [] _ l). simpl. by rewrite <- Hl.
Qed.

Lemma slice_to_first limit s c :
  head (slice_to limit s) = Some c → head s = Some c.
Proof.
  destruct (slice_to_prefix limit s) as [l Hl]. intros Hc.
  rewrite Hl. by destruct (slice_to limit s).
Qed.

Lemma cleaned_single (s : str) : single_spaced (strip (sub_spaces false s)).
Proof.
  destruct (strip_split (sub_spaces false s)) as (l1 & l2 & Hs & _).
  apply (single_spaced_infix l1 _ l2). rewrite <- Hs. split.
  - apply sub_spaces_chars.
  - apply sub_spaces_single.
Qed.


(** * Job-Room dates *)

(** X16: the window test of jobroom accepts a date under a bound exactly
    when [_days_ago] gives it an age between zero and the bound, and the
    two raise on the same values. *)
Theorem days_ago_within (today : Z) (fromisoformat : str → option Z)
    (posting_date : value) (max_days : Z) :
  within_days today fromisoformat posting_date (Some max_days)
  = ago ← Jobroom._days_ago today fromisoformat posting_date;
    Returns (match ago with
             | Some age => (0 <=? age) && (age <=? max_days)
             | None => false
             end).
Proof.
  unfold within_days, Jobroom._days_ago.
  destruct (truthy posting_date); simpl; [|done].
  destruct posting_date; try done.
  by destruct (fromisoformat _).
Qed.

(** X17: [_date_iso] gives [None] for a falsy value and for one whose text
    is blank, and otherwise the first ten characters at most of the stripped
    text: one to ten characters that do not start with whitespace. Neither
    the window test nor [_days_ago] raises on what it gives. *)
Theorem date_iso_spec (today : Z) (fromisoformat : str → option Z)
    (v : value) (max_days : option Z) :
  (Jobroom._date_iso v = VNone
   ↔ truthy v = false ∨ Forall (λ c, isspace c = true) (py_str v))
  ∧ (∀ t, Jobroom._date_iso v = VStr t →
       t = take 10 (strip (py_str v))
       ∧ (1 ≤ length t ≤ 10)%nat
       ∧ ∀ c, head t = Some c → isspace c = false)
  ∧ (Jobroom._date_iso v = VNone ∨ ∃ t, Jobroom._date_iso v = VStr t)
  ∧ (∃ b, within_days today fromisoformat (Jobroom._date_iso v) max_days
          = Returns b)
  ∧ ∃ age, Jobroom._days_ago today fromisoformat (Jobroom._date_iso v)
           = Returns age.
Proof.
  assert (∀ w, w = VNone ∨ (∃ t, w = VStr t) →
            (∃ b, within_days today fromisoformat w max_days = Returns b)
            ∧ ∃ age, Jobroom._days_ago today fromisoformat w = Returns age)
    as Hsafe.
  { intros w [->|[t ->]]; unfold within_days, Jobroom._days_ago.
    - split; [destruct max_days|]; by eexists.
    - split; [destruct max_days; [|by eexists]|]; simpl;
        destruct (bool_decide (t = [])); simpl; try (by eexists);
        destruct (fromisoformat t); by eexists. }
  assert (Jobroom._date_iso v = VNone ∨ ∃ t, Jobroom._date_iso v = VStr t)
    as Hshape.
  { unfold Jobroom._date_iso. destruct (negb _); [by left|].
    case_bool_decide; [by left|right; by eexists]. }
  split_and!; [| |done|by apply Hsafe|by apply Hsafe].
  - unfold Jobroom._date_iso. destruct (truthy v); simpl; [|by split; [left|]].
    case_bool_decide as Hc.
    + split; [intros _; right; by apply strip_nil_iff|done].
    + split; [done|]. intros [?|?]; [done|].
      destruct Hc. by apply strip_nil_iff.
  - unfold Jobroom._date_iso. destruct (truthy v); simpl; [|done].
    case_bool_decide as Hc; [done|]. intros t [= <-].
    split; [done|]. rewrite length_take. split.
    + destruct (strip (py_str v)); [done|]. cbn [length]. lia.
    + intros c Hhead.
      destruct (strip (py_str v)) as [|c' t] eqn:E; [done|].
      simpl in Hhead. injection Hhead as ->. by apply strip_head in E.
Qed.

(** X18: [_normalize_lang] always gives one of the four keys of
    [LANG_TO_NG], so the lookup of the request parameter finds an entry. It
    keeps a key as it is, gives "fr" for what is no key once stripped and
    lowered, and gives the same when applied again. *)
Theorem normalize_lang_spec (lang : str) :
  (∃ ng, (Jobroom._normalize_lang lang, ng) ∈ Jobroom.LANG_TO_NG)
  ∧ (lang ∈ Jobroom.LANG_TO_NG.*1 → Jobroom._normalize_lang lang = lang)
  ∧ (lower (strip lang) ∉ Jobroom.LANG_TO_NG.*1 →
     Jobroom._normalize_lang lang = utf8 "fr")
  ∧ Jobroom._normalize_lang (Jobroom._normalize_lang lang)
    = Jobroom._normalize_lang lang.
Proof.
  assert (∀ k, k ∈ Jobroom.LANG_TO_NG.*1 → Jobroom._normalize_lang k = k)
    as Hkey.
  { intros k Hk. unfold Jobroom.LANG_TO_NG in Hk. simpl in Hk.
    repeat (apply elem_of_cons in Hk as [->|Hk]; [by vm_compute|]).
    by apply elem_of_nil in Hk. }
  assert (Jobroom._normalize_lang lang ∈ Jobroom.LANG_TO_NG.*1) as Hin.
  { unfold Jobroom._normalize_lang. case_bool_decide; [done|].
    apply (bool_decide_unpack _). by vm_compute. }
  split_and!.
  - apply list_elem_of_fmap in Hin as ([k ng] & Hk & Hin).
    exists ng. simpl in Hk. by rewrite Hk.
  - apply Hkey.
  - intros Hno. unfold Jobroom._normalize_lang.
    destruct (decide (lang = [])) as [->|Hl].
    + by vm_compute.
    + rewrite (bool_decide_eq_false_2 (lang = [])) by done.
      by rewrite bool_decide_eq_false_2.
  - by apply Hkey.
Qed.

(** * The crawl of ge *)

(** ** The cards collected *)

Lemma cards_unique_collect item c :
  url_key item ≠ [] → url_key item ∉ Ge.seen_links c →
  cards_unique c → cards_unique (Ge.collect (url_key item) item c).
Proof.
  intros Hurl Hnew (Hnd & Hne & Hseen). split_and!; simpl.
  - rewrite fmap_app. apply NoDup_app. split_and!; [done| |apply NoDup_singleton].
    intros x Hx ->%list_elem_of_singleton. apply Hnew. by apply Hseen.
  - apply Forall_app. split; [done|]. by apply Forall_singleton.
  - intros x. rewrite fmap_app, elem_of_union, elem_of_singleton, elem_of_app.
    simpl. rewrite list_elem_of_singleton, Hseen. tauto.
Qed.

Lemma ge_scan_page1_unique items : ∀ c,
  cards_unique c → cards_unique (Ge.scan_page1 items c).
Proof.
  induction items as [|item items IH]; intros c Hc; simpl; [done|].
  do 2 case_bool_decide; simpl; try by apply IH.
  by apply IH, cards_unique_collect.
Qed.

Lemma ge_scan_items_unique t known items : ∀ c,
  cards_unique c → cards_unique (Ge.scan_items t known items c).
Proof.
  induction items as [|item items IH]; intros c Hc; simpl; [done|].
  do 2 case_bool_decide; simpl; try by apply IH.
  pose proof (cards_unique_collect item c ltac:(done) ltac:(done) Hc) as Hc'.
  repeat case_match; try apply IH; done.
Qed.

Lemma ge_scan_page1_requested items : ∀ c,
  Ge.requested (Ge.scan_page1 items c) = Ge.requested c.
Proof.
  induction items as [|item items IH]; intros c; simpl; [done|].
  destruct (_ && _); by rewrite IH.
Qed.

Lemma ge_scan_items_requested t known items : ∀ c,
  Ge.requested (Ge.scan_items t known items c) = Ge.requested c.
Proof.
  induction items as [|item items IH]; intros c; simpl; [done|].
  repeat case_match; rewrite ?IH; done.
Qed.

Lemma ge_scan_page1_streak items : ∀ c,
  Ge.known_streak (Ge.scan_page1 items c) = Ge.known_streak c.
Proof.
  induction items as [|item items IH]; intros c; simpl; [done|].
  destruct (_ && _); by rewrite IH.
Qed.

Section ge_crawl.
Variable a : Ge.args.
Variable existing_jobs : list record.
Variable auto_state : record.
Variable search : Z → response Ge.listing.
Local Abbreviation known_urls := (Ge.known_urls existing_jobs auto_state).
Local Abbreviation paginate := (Ge.paginate a existing_jobs auto_state search).
Local Abbreviation crawl := (Ge.crawl a existing_jobs auto_state search).

Lemma ge_paginate_unique pages : ∀ c,
  cards_unique c → cards_unique (paginate pages c).
Proof.
  induction pages as [|page rest IH]; intros c Hc; simpl; [done|].
  repeat case_match; try done.
  - by apply ge_scan_items_unique.
  - by apply IH, ge_scan_items_unique.
Qed.

Lemma cards_unique_init page failure :
  cards_unique (Ge.Cursor [] ∅ 0 [page] failure).
Proof.
  split_and!; simpl; [constructor|constructor|].
  intros url. split; [by intros ?%elem_of_empty|by intros ?%elem_of_nil].
Qed.

Lemma ge_crawl_unique : cards_unique crawl.
Proof.
  unfold Ge.crawl.
  destruct (if Ge.listing_nonempty _ then _ else _) as [page1_items|e];
    [|apply cards_unique_init].
  apply ge_paginate_unique, ge_scan_page1_unique, cards_unique_init.
Qed.

(** The pages requested by the loop are the first ones of its range, and
    every one before the last let the loop go on. *)
Lemma ge_paginate_goes_on pages : ∀ c,
  ∃ n, Ge.requested (paginate pages c) = Ge.requested c ++ take n pages
    ∧ (∀ i p, (S i < n)%nat → pages !! i = Some p → ge_goes_on (search p)).
Proof.
  induction pages as [|page rest IH]; intros c.
  { exists 0%nat. split; [by rewrite app_nil_r|]. intros; lia. }
  assert (∃ n, Ge.requested (Ge.request page c)
               = Ge.requested c ++ take n (page :: rest)
            ∧ (∀ i p, (S i < n)%nat → (page :: rest) !! i = Some p →
               ge_goes_on (search p)))
    as Hstop.
  { exists 1%nat. split; [done|]. intros; lia. }
  simpl.
  destruct (search page) as [|status text] eqn:E; [exact Hstop|].
  destruct (400 <=? status) eqn:Hstatus; [exact Hstop|].
  destruct (Ge.extract_detail_links text) as [items|e] eqn:Hx;
    [|exact Hstop].
  case_bool_decide as Hitems; [exact Hstop|].
  set (c2 := Ge.scan_items _ _ _ (Ge.request page c)).
  assert (Ge.requested c2 = Ge.requested c ++ [page]) as Hc2
    by apply ge_scan_items_requested.
  destruct (streak_reached _ _).
  { exists 1%nat. split; [done|]. intros; lia. }
  destruct (IH c2) as (n & Hn & Hpages).
  exists (S n). split.
  - rewrite Hn, Hc2, <- app_assoc. done.
  - intros [|i] p Hi Hp.
    + injection Hp as <-. exists status, text, items.
      split_and!; [done| |done|done]. apply Z.leb_gt in Hstatus. lia.
    + apply (Hpages i); [lia|done].
Qed.

Lemma ge_max_dyn_pos : 1 ≤ Ge.max_dyn a.
Proof. unfold Ge.max_dyn. destruct (0 <? Ge.max_pages a) eqn:E; lia. Qed.

Lemma ge_crawl_pages :
  ∃ n, Ge.requested crawl = 1 :: take n (range 2 (Ge.max_dyn a + 1))
    ∧ (∀ i p, (S i < n)%nat → range 2 (Ge.max_dyn a + 1) !! i = Some p →
       ge_goes_on (search p)).
Proof.
  unfold Ge.crawl.
  destruct (if Ge.listing_nonempty _ then _ else _) as [page1_items|e].
  2:{ exists 0%nat. split; [done|]. intros; lia. }
  set (c := Ge.scan_page1 _ _).
  assert (Ge.requested c = [1]) as Hc by apply ge_scan_page1_requested.
  destruct (ge_paginate_goes_on (range 2 (Ge.max_dyn a + 1)) c)
    as (n & Hn & Hpages).
  exists n. by rewrite Hn, Hc.
Qed.

End ge_crawl.

(** X19: the cards a crawl of ge ends with have pairwise distinct URLs, none
    of them blank, whatever the list pages show and however the crawl
    stops; and the set [seen_links] holds exactly these URLs. *)
Theorem ge_links_unique (a : Ge.args) existing_jobs auto_state search :
  let c := Ge.crawl a existing_jobs auto_state search in
  NoDup (url_key <$> Ge.links c)
  ∧ Forall (λ item, url_key item ≠ []) (Ge.links c)
  ∧ Ge.seen_links c = list_to_set (url_key <$> Ge.links c).
Proof.
  cbv zeta.
  destruct (ge_crawl_unique a existing_jobs auto_state search)
    as (Hnd & Hne & Hseen).
  split_and!; [done|done|].
  apply set_eq. intros url. by rewrite elem_of_list_to_set, Hseen.
Qed.

(** X20: a crawl of ge requests the list pages 1, 2, ..., n for some
    n >= 1, each once and in this order; n is at most --max-pages when that
    is positive and at most 200 otherwise; and every page from the second
    to the one before the last was served with a status under 400 and
    showed a card, so that a request that fails, an error status or a page
    without cards ends the pagination. *)
Theorem ge_pages_in_order (a : Ge.args) existing_jobs auto_state search :
  ∃ n : nat,
    Ge.requested (Ge.crawl a existing_jobs auto_state search)
    = seqZ 1 (Z.of_nat n)
    ∧ (0 < n)%nat
    ∧ (0 < Ge.max_pages a → Z.of_nat n ≤ Ge.max_pages a)
    ∧ (Ge.max_pages a ≤ 0 → Z.of_nat n ≤ 200)
    ∧ ∀ page, 2 ≤ page < Z.of_nat n → ge_goes_on (search page).
Proof.
  destruct (ge_crawl_pages a existing_jobs auto_state search)
    as (k & Hk & Hpages).
  destruct (first_pages k (Ge.max_dyn a + 1)) as (m & Hm & Hpos & Hle & _).
  exists m. rewrite Hk, Hm. split_and!; [done|done| | |].
  - intros Hmax. unfold Ge.max_dyn in Hle.
    assert ((0 <? Ge.max_pages a) = true) as E by by apply Z.ltb_lt.
    rewrite E in Hle. lia.
  - intros Hmax. unfold Ge.max_dyn in Hle.
    assert ((0 <? Ge.max_pages a) = false) as E by (apply Z.ltb_ge; lia).
    rewrite E in Hle. lia.
  - intros page Hpage.
    assert (length (1 :: take k (range 2 (Ge.max_dyn a + 1))) = m) as Hlen
      by by rewrite Hm, length_seqZ, Nat2Z.id.
    simpl in Hlen. rewrite length_take in Hlen.
    unfold range in *. rewrite length_seqZ in Hlen.
    apply (Hpages (Z.to_nat (page - 2))); [lia|].
    apply lookup_seqZ. lia.
Qed.

(** ** What a page adds *)

Lemma ge_scan_items_links t known items : ∀ c,
  ∃ more, Ge.links (Ge.scan_items t known items c) = Ge.links c ++ more.
Proof.
  induction items as [|item items IH]; intros c; simpl.
  { exists []. by rewrite app_nil_r. }
  assert (∀ c2, Ge.links c2 = Ge.links c ++ [item] →
            ∃ more, Ge.links (Ge.scan_items t known items c2)
                    = Ge.links c ++ more) as Hnext.
  { intros c2 Hc2. destruct (IH c2) as [more ->].
    rewrite Hc2, <- app_assoc. by eexists. }
  repeat case_match; try apply IH; try (by apply Hnext).
  by exists [item].
Qed.

Section ge_crawl_more.
Variable a : Ge.args.
Variable existing_jobs : list record.
Variable auto_state : record.
Variable search : Z → response Ge.listing.
Local Abbreviation known_urls := (Ge.known_urls existing_jobs auto_state).
Local Abbreviation paginate := (Ge.paginate a existing_jobs auto_state search).
Local Abbreviation crawl := (Ge.crawl a existing_jobs auto_state search).

Lemma ge_paginate_links pages : ∀ c,
  ∃ more, Ge.links (paginate pages c) = Ge.links c ++ more.
Proof.
  induction pages as [|page rest IH]; intros c; simpl.
  { exists []. by rewrite app_nil_r. }
  assert (∃ more, Ge.links (Ge.request page c) = Ge.links c ++ more) as Hstop.
  { exists []. by rewrite app_nil_r. }
  destruct (search page) as [|status text]; [exact Hstop|].
  destruct (400 <=? status); [exact Hstop|].
  destruct (Ge.extract_detail_links text) as [items|e]; [|exact Hstop].
  case_bool_decide; [exact Hstop|].
  set (c2 := Ge.scan_items _ _ _ (Ge.request page c)).
  destruct (ge_scan_items_links (Ge.stop_after_seen a) known_urls
              items (Ge.request page c))
    as [more Hc2].
  fold c2 in Hc2. simpl in Hc2.
  destruct (streak_reached _ _); [by eexists|].
  destruct (IH c2) as [more' ->]. rewrite Hc2, <- app_assoc. by eexists.
Qed.

Lemma ge_paginate_first page rest c :
  ∃ more, Ge.requested (paginate (page :: rest) c)
          = Ge.requested c ++ page :: more.
Proof.
  destruct (ge_paginate_goes_on a existing_jobs auto_state search
              (page :: rest) c) as (n & Hn & _).
  destruct n as [|n].
  - exfalso. simpl in Hn.
    repeat case_match; simpl in Hn;
      try (apply (f_equal length) in Hn;
           rewrite ?ge_scan_items_requested in Hn; simpl in Hn;
           rewrite ?length_app in Hn; simpl in Hn; lia).
    match type of Hn with
    | Ge.requested (Ge.paginate _ _ _ _ _ ?c2) = _ =>
      destruct (ge_paginate_goes_on a existing_jobs auto_state search
                  rest c2) as (m & Hm & _)
    end.
    rewrite Hm, ge_scan_items_requested in Hn. simpl in Hn.
    apply (f_equal length) in Hn. rewrite !length_app in Hn.
    simpl in Hn. lia.
  - rewrite Hn. simpl. by eexists.
Qed.

(** The streak at the end of a loop over the cards of a page. *)
Lemma ge_scan_items_streak t known items : ∀ c,
  streak_tail known c →
  (0 < t → Ge.known_streak c < t) → (t ≤ 0 → Ge.known_streak c = 0) →
  streak_tail known (Ge.scan_items t known items c)
  ∧ (0 < t → Ge.known_streak (Ge.scan_items t known items c) ≤ t)
  ∧ (t ≤ 0 → Ge.known_streak (Ge.scan_items t known items c) = 0).
Proof.
  induction items as [|item items IH]; intros c Htail Hlt Hzero; simpl.
  { split_and!; [done| |done]. intros Ht. specialize (Hlt Ht). lia. }
  destruct (_ || _); [by apply IH|].
  destruct Htail as (older & recent & Hlinks & Hlen & Hknown).
  destruct (0 <? t) eqn:Ht.
  - apply Z.ltb_lt in Ht. specialize (Hlt Ht).
    case_bool_decide as Hitem.
    + assert (streak_tail known
                (Ge.set_streak
                   (Ge.known_streak (Ge.collect (url_key item) item c) + 1)
                   (Ge.collect (url_key item) item c))) as Htail'.
      { exists older, (recent ++ [item]). simpl. split_and!.
        - by rewrite Hlinks, <- app_assoc.
        - rewrite length_app. simpl. lia.
        - apply Forall_app. split; [done|]. by apply Forall_singleton. }
      destruct (t <=? _) eqn:Hstop.
      * split_and!; [done| |lia]. simpl. lia.
      * apply IH; [done| |lia]. simpl. apply Z.leb_gt in Hstop.
        simpl in Hstop. lia.
    + apply IH; [|simpl; lia|lia].
      exists (Ge.links c ++ [item]), []. simpl.
      split_and!; [by rewrite app_nil_r|done|constructor].
  - apply Z.ltb_ge in Ht. specialize (Hzero Ht).
    apply IH; [|lia|done].
    exists (Ge.links c ++ [item]), []. simpl.
    split_and!; [by rewrite app_nil_r|by rewrite Hzero|constructor].
Qed.

Lemma ge_paginate_streak pages : ∀ c,
  streak_tail known_urls c →
  (0 < Ge.stop_after_seen a → Ge.known_streak c < Ge.stop_after_seen a) →
  (Ge.stop_after_seen a ≤ 0 → Ge.known_streak c = 0) →
  streak_tail known_urls (paginate pages c)
  ∧ (0 < Ge.stop_after_seen a →
     Ge.known_streak (paginate pages c) ≤ Ge.stop_after_seen a)
  ∧ (Ge.stop_after_seen a ≤ 0 → Ge.known_streak (paginate pages c) = 0).
Proof.
  induction pages as [|page rest IH]; intros c Htail Hlt Hzero; simpl.
  { split_and!; [done| |done]. intros Ht. specialize (Hlt Ht). lia. }
  assert (streak_tail known_urls (Ge.request page c)
          ∧ (0 < Ge.stop_after_seen a →
             Ge.known_streak (Ge.request page c) ≤ Ge.stop_after_seen a)
          ∧ (Ge.stop_after_seen a ≤ 0 →
             Ge.known_streak (Ge.request page c) = 0)) as Hstop.
  { split_and!; [done| |done]. intros Ht. specialize (Hlt Ht). simpl. lia. }
  destruct (search page) as [|status text]; [exact Hstop|].
  destruct (400 <=? status); [exact Hstop|].
  destruct (Ge.extract_detail_links text) as [items|e]; [|exact Hstop].
  case_bool_decide; [exact Hstop|].
  destruct (ge_scan_items_streak (Ge.stop_after_seen a) known_urls
              items (Ge.request page c)
              Htail Hlt Hzero) as (Htail' & Hle & Hzero').
  destruct (streak_reached _ _) eqn:Hreached; [done|].
  apply IH; [done| |done].
  intros Ht. unfold streak_reached in Hreached.
  apply andb_false_iff in Hreached as [?%Z.ltb_ge|?%Z.leb_gt]; lia.
Qed.

End ge_crawl_more.

(** X21: when the request of ge's base page fails or is answered with an
    error status, the run goes on without cards from page 1 and, unless
    --max-pages is 1, still requests page 2 and collects the first card it
    shows: the failure of the base page does not end the pagination. *)
Theorem ge_base_page_failure (a : Ge.args) existing_jobs auto_state search e :
  get_or_raise (search 1) = Raises e →
  let c := Ge.crawl a existing_jobs auto_state search in
  c = Ge.paginate a existing_jobs auto_state search
        (range 2 (Ge.max_dyn a + 1)) (Ge.Cursor [] ∅ 0 [1] None)
  ∧ (Ge.max_pages a ≠ 1 →
     (∃ more, Ge.requested c = 1 :: 2 :: more)
     ∧ ∀ status text item rest,
         search 2 = Response status text → status < 400 →
         Ge.extract_detail_links text = Returns (item :: rest) →
         url_key item ≠ [] →
         ∃ more, Ge.links c = item :: more).
Proof.
  intros Hfail. cbv zeta. unfold Ge.crawl, Ge.fetch_base_page.
  rewrite Hfail. simpl. split; [done|]. intros Hmax.
  assert (range 2 (Ge.max_dyn a + 1) = 2 :: range 3 (Ge.max_dyn a + 1)) as ->.
  { unfold range, Ge.max_dyn. destruct (0 <? Ge.max_pages a) eqn:Hp.
    - apply Z.ltb_lt in Hp. rewrite seqZ_cons by lia. do 2 f_equal; lia.
    - by vm_compute. }
  split.
  - destruct (ge_paginate_first a existing_jobs auto_state search 2
                (range 3 (Ge.max_dyn a + 1)) (Ge.Cursor [] ∅ 0 [1] None))
      as [more ->].
    by exists more.
  - intros status text item rest Hpage Hstatus Hitems Hurl. simpl.
    rewrite Hpage.
    assert ((400 <=? status) = false) as -> by (apply Z.leb_gt; lia).
    rewrite Hitems. rewrite bool_decide_eq_false_2 by done.
    set (c2 := Ge.scan_items _ _ _ _).
    assert (∃ more, Ge.links c2 = item :: more) as [more Hc2].
    { unfold c2. simpl.
      rewrite (bool_decide_eq_false_2 (url_key item = [])) by done.
      rewrite bool_decide_eq_false_2 by apply not_elem_of_empty. simpl.
      repeat case_match;
        try (match goal with
             | |- context [Ge.scan_items ?t ?k ?l ?c] =>
               destruct (ge_scan_items_links t k l c) as [more ->]
             end; simpl; by eexists).
      simpl. by eexists. }
    destruct (streak_reached _ _); [by eexists|].
    destruct (ge_paginate_links a existing_jobs auto_state search
                (range 3 (Ge.max_dyn a + 1)) c2) as [more' ->].
    rewrite Hc2. simpl. by eexists.
Qed.

Lemma ge_base_page_failure_witness :
  let c := Ge.crawl ex_ge_args ex_known ∅ ex_ge_base_down in
  c = Ge.paginate ex_ge_args ex_known ∅ ex_ge_base_down
        (range 2 (Ge.max_dyn ex_ge_args + 1)) (Ge.Cursor [] ∅ 0 [1] None)
  ∧ (Ge.max_pages ex_ge_args ≠ 1 →
     (∃ more, Ge.requested c = 1 :: 2 :: more)
     ∧ ∀ status text item rest,
         ex_ge_base_down 2 = Response status text → status < 400 →
         Ge.extract_detail_links text = Returns (item :: rest) →
         url_key item ≠ [] →
         ∃ more, Ge.links c = item :: more).
Proof.
  apply (ge_base_page_failure ex_ge_args ex_known ∅ ex_ge_base_down
           RequestException).
  reflexivity.
Defined.

(** X22: at the end of a crawl of ge the streak counts cards collected
    last: the last [known_streak] cards of [links] all have known URLs. The
    streak is never negative, stays at zero when --stop-after-seen is not
    positive, and never exceeds a positive --stop-after-seen; so the
    incremental stop is taken only when the cards collected last, as many as
    --stop-after-seen, were all known. *)
Theorem ge_streak_counts_known (a : Ge.args) existing_jobs auto_state search :
  let c := Ge.crawl a existing_jobs auto_state search in
  ∃ older recent,
    Ge.links c = older ++ recent
    ∧ Z.of_nat (length recent) = Ge.known_streak c
    ∧ Forall (λ item, url_key item ∈ Ge.known_urls existing_jobs auto_state)
             recent
    ∧ Ge.known_streak c ≤ Z.max 0 (Ge.stop_after_seen a)
    ∧ (streak_reached (Ge.stop_after_seen a) (Ge.known_streak c) = true →
       Z.of_nat (length recent) = Ge.stop_after_seen a).
Proof.
  cbv zeta. unfold Ge.crawl.
  destruct (if Ge.listing_nonempty _ then _ else _) as [page1_items|e].
  2:{ exists [], []. simpl. split_and!; [done|done|constructor|lia|].
      unfold streak_reached.
      intros [Ht%Z.ltb_lt Hs%Z.leb_le]%andb_true_iff. lia. }
  set (c1 := Ge.scan_page1 _ _).
  assert (Ge.known_streak c1 = 0) as Hc1 by apply ge_scan_page1_streak.
  destruct (ge_paginate_streak a existing_jobs auto_state search
              (range 2 (Ge.max_dyn a + 1)) c1) as (Htail & Hle & Hzero).
  - exists (Ge.links c1), []. rewrite Hc1.
    split_and!; [by rewrite app_nil_r|done|constructor].
  - lia.
  - done.
  - destruct Htail as (older & recent & Hlinks & Hlen & Hknown).
    exists older, recent. split_and!; [done..| |].
    + destruct (decide (0 < Ge.stop_after_seen a)) as [Ht|Ht].
      * specialize (Hle Ht). lia.
      * rewrite Hzero by lia. lia.
    + unfold streak_reached.
      intros [Ht%Z.ltb_lt Hs%Z.leb_le]%andb_true_iff.
      specialize (Hle Ht). lia.
Qed.

(** * The records of a run of ge *)

(** ** Stripped text *)

Lemma lstrip_id s : (∀ c, head s = Some c → isspace c = false) → lstrip s = s.
Proof.
  destruct s as [|c s]; [done|]. intros Hc. simpl.
  by rewrite (Hc c eq_refl).
Qed.

Lemma strip_idemp s : strip (strip s) = strip s.
Proof.
  set (t := strip s). unfold strip.
  rewrite (lstrip_id t).
  - rewrite lstrip_id; [apply reverse_involutive|].
    intros c Hc. apply (strip_last s). fold t.
    by rewrite <- head_reverse.
  - intros c Hc. destruct t as [|c' t'] eqn:E; [done|].
    injection Hc as ->. by apply (strip_head s c t').
Qed.

Lemma url_key_strip (row : record) : strip (url_key row) = url_key row.
Proof. apply strip_idemp. Qed.

Lemma ge_row_url item detail rss row :
  url_key (Ge.row_of item detail rss (url_key row)) = url_key row.
Proof.
  unfold url_key at 1.
  change (get (Ge.row_of item detail rss (url_key row)) "url")
    with (VStr (url_key row)).
  unfold py_or. simpl. case_bool_decide as E; simpl.
  - by rewrite E.
  - apply url_key_strip.
Qed.

(** ** The store of a run *)

Lemma store_lookup_from (g : nat → nat) (rows : list record) :
  Inj (=) (=) g → ∀ i,
  (list_to_map (imap (λ i row, (g i, row)) rows) : heap) !! g i = rows !! i.
Proof.
  revert g. induction rows as [|row rows IH]; intros g Hg i; simpl.
  { apply lookup_empty. }
  destruct i as [|i]; simpl.
  - apply lookup_insert_eq.
  - rewrite lookup_insert_ne by (intros E; by apply Hg in E).
    apply (IH (g ∘ S)). intros x y E. apply Hg in E. by injection E.
Qed.

Lemma store_of_lookup (rows : list record) i : store_of rows !! i = rows !! i.
Proof. apply (store_lookup_from id rows _ i). Qed.

Lemma store_of_elem (rows : list record) i :
  (i < length rows)%nat → store_of rows !!! i ∈ rows.
Proof.
  intros Hi. destruct (lookup_lt_is_Some_2 rows i Hi) as [row Hrow].
  rewrite (lookup_total_correct (store_of rows) i row)
    by by rewrite store_of_lookup.
  by eapply list_elem_of_lookup_2.
Qed.

(** ** The merged dataset *)

(** A URL is returned exactly when a record enters the map under it. *)
Lemma merge_of_urls (s : scraper) (h : heap) (current fresh : list nat)
    (k : str) :
  k ∈ key_of (merge_of s h current fresh).1
        <$> (merge_of s h current fresh).2 ↔
  ∃ r, r ∈ current ++ fresh ∧ enters (gate s) h r ∧ key_of h r = k.
Proof.
  destruct (merge_of_facts s h current fresh)
    as [Hsame _ _ _ _ _ _ _ _ _ _].
  rewrite list_elem_of_fmap. split.
  - intros (r & -> & Hr). apply merge_of_out in Hr. unfold url_map in Hr.
    rewrite (merge_overlay_get _ (gate_stable s)) in Hr.
    apply (touch_fold_last (gate s)) in Hr as [(l1 & l2 & E & Hent & _) _].
    exists r. split_and!; [|done|by rewrite (same_but_ids_key _ _ r Hsame)].
    rewrite E. apply elem_of_app. right. left.
  - intros (x & Hx & Hent & Hk).
    destruct (touch_fold_some (gate s) h k (current ++ fresh) x None
                Hx Hent Hk) as [r Hr].
    pose proof Hr as Hlast.
    apply (touch_fold_last (gate s)) in Hlast as [_ Hkr].
    exists r. split; [by rewrite (same_but_ids_key _ _ r Hsame)|].
    apply merge_of_out. unfold url_map.
    by rewrite (merge_overlay_get _ (gate_stable s)), Hkr.
Qed.

(** Every record of ge's merged dataset has a URL, and the URL of a record
    merged. *)
Lemma ge_merged_url existing_jobs fresh_jobs row :
  row ∈ Ge.merge_all existing_jobs fresh_jobs →
  url_key row ≠ []
  ∧ url_key row ∈ url_key <$> existing_jobs ++ fresh_jobs.
Proof.
  unfold Ge.merge_all, values.
  set (h := store_of (existing_jobs ++ fresh_jobs)).
  set (current := seq 0 (length existing_jobs)).
  set (fresh := seq (length existing_jobs) (length fresh_jobs)).
  change (Ge.merge_jobs_by_url h current fresh)
    with (merge_of ge h current fresh).
  intros (r & -> & Hr)%list_elem_of_fmap.
  assert (key_of (merge_of ge h current fresh).1 r
            ∈ key_of (merge_of ge h current fresh).1
                <$> (merge_of ge h current fresh).2) as Hk
    by (apply list_elem_of_fmap; eauto).
  apply merge_of_urls in Hk as (x & Hx & [Hne _] & Hkey).
  change (url_key ((merge_of ge h current fresh).1 !!! r))
    with (key_of (merge_of ge h current fresh).1 r).
  rewrite <- Hkey. split; [done|].
  apply list_elem_of_fmap. exists (h !!! x). split; [done|].
  apply store_of_elem. rewrite length_app.
  unfold current, fresh in Hx.
  apply elem_of_app in Hx as [Hx|Hx]; apply elem_of_seq in Hx; lia.
Qed.

(** ** The window *)

Lemma filter_within_kept today fromisoformat max_days : ∀ rows kept,
  filter_within today fromisoformat rows max_days = Returns kept →
  Forall (λ row, within_days today fromisoformat (get row "posting_date")
                   max_days = Returns true) kept.
Proof.
  induction rows as [|row rows IH]; intros kept; simpl.
  - intros [= <-]. constructor.
  - destruct (within_days _ _ _ _) as [ok|] eqn:E; [|done]. simpl.
    destruct (filter_within _ _ rows _) as [rest|]; [|done]. simpl.
    intros [= <-]. destruct ok; [constructor; [done|]|]; by apply IH.
Qed.

(** ** The detail pages *)

Section ge_details.
Variable today : Z.
Variable fromisoformat : str → option Z.
Variable a : Ge.args.
Variable fetch_rss_map : option (gmap str record).
Variable fetch_detail : str → option record.
Local Abbreviation fetch_jobs :=
  (Ge.fetch_jobs today fromisoformat a fetch_rss_map fetch_detail).

Lemma ge_fetch_jobs_rows items :
  match fetch_jobs items with
  | Raises e => e = TypeError
  | Returns rows =>
    url_key <$> rows `sublist_of` url_key <$> items
    ∧ Forall (λ row,
        get row "url" = VStr (url_key row)
        ∧ get row "source" = VStr (utf8 "ge")
        ∧ within_days today fromisoformat (get row "posting_date")
            (max_days_of (Ge.days a)) = Returns true
        ∧ ∃ item, item ∈ items ∧ url_key item = url_key row
                  ∧ url_key item ≠ []
                  ∧ is_Some (fetch_detail (url_key item))) rows
  end.
Proof.
  induction items as [|item items IH]; simpl.
  { split; [done|constructor]. }
  assert (∀ rows,
    (url_key <$> rows `sublist_of` url_key <$> items
     ∧ Forall (λ row,
         get row "url" = VStr (url_key row)
         ∧ get row "source" = VStr (utf8 "ge")
         ∧ within_days today fromisoformat (get row "posting_date")
             (max_days_of (Ge.days a)) = Returns true
         ∧ ∃ item, item ∈ items ∧ url_key item = url_key row
                   ∧ url_key item ≠ []
                   ∧ is_Some (fetch_detail (url_key item))) rows) →
    url_key <$> rows `sublist_of` url_key item :: (url_key <$> items)
    ∧ Forall (λ row,
        get row "url" = VStr (url_key row)
        ∧ get row "source" = VStr (utf8 "ge")
        ∧ within_days today fromisoformat (get row "posting_date")
            (max_days_of (Ge.days a)) = Returns true
        ∧ ∃ item', item' ∈ item :: items ∧ url_key item' = url_key row
                   ∧ url_key item' ≠ []
                   ∧ is_Some (fetch_detail (url_key item'))) rows) as Hskip.
  { intros rows [Hsub Hrows]. split; [by apply sublist_cons|].
    eapply Forall_impl; [exact Hrows|]. simpl.
    intros row (? & ? & ? & item' & ? & ? & ? & ?).
    split_and!; [done..|]. exists item'. split_and!; [by right|done..]. }
  case_bool_decide as Hurl.
  { destruct (fetch_jobs items); [by apply Hskip|done]. }
  destruct (fetch_detail (url_key item)) as [detail|] eqn:Hdetail.
  2:{ destruct (fetch_jobs items); [by apply Hskip|done]. }
  set (row := Ge.row_of item detail _ (url_key item)).
  destruct (within_days _ _ _ _) as [ok|e] eqn:Hok; simpl.
  2:{ by eapply within_days_raises. }
  destruct (fetch_jobs items) as [rows|e]; simpl; [|done].
  destruct ok; [|by apply Hskip].
  assert (url_key row = url_key item) as Hrow by apply ge_row_url.
  destruct IH as [Hsub Hrows]. split.
  - simpl. rewrite Hrow. by apply sublist_skip.
  - constructor.
    + split_and!; [by rewrite Hrow|done|done|].
      exists item. split_and!; [by left|done|done|by eexists].
    + by apply Hskip.
Qed.

End ge_details.

(** X23: the rows of [fresh_jobs] in a run of ge have pairwise distinct
    URLs; each is filed under the URL of a card of the crawl that is not
    blank and not among the known URLs, with the source "ge", after a
    detail page that could be read, and lies within the date window; there
    are at most --max-jobs of them when that is positive. Nothing but the
    [TypeError] of [within_days] ends the loop over the detail pages. *)
Theorem ge_fresh_jobs today fromisoformat (a : Ge.args) existing_jobs
    auto_state fetch_rss_map search fetch_detail :
  let c := Ge.crawl a existing_jobs auto_state search in
  match Ge.fetch_jobs today fromisoformat a fetch_rss_map fetch_detail
          (Ge.detail_items a existing_jobs auto_state (Ge.links c)) with
  | Raises e => e = TypeError
  | Returns fresh_jobs =>
    NoDup (url_key <$> fresh_jobs)
    ∧ (0 < Ge.max_jobs a → Z.of_nat (length fresh_jobs) ≤ Ge.max_jobs a)
    ∧ Forall (λ row,
        url_key row ≠ []
        ∧ (url_key row ∉ Ge.known_urls existing_jobs auto_state)
        ∧ get row "url" = VStr (url_key row)
        ∧ get row "source" = VStr (utf8 "ge")
        ∧ within_days today fromisoformat (get row "posting_date")
            (max_days_of (Ge.days a)) = Returns true
        ∧ ∃ item, item ∈ Ge.links c ∧ url_key item = url_key row
                  ∧ is_Some (fetch_detail (url_key item))) fresh_jobs
  end.
Proof.
  cbv zeta.
  set (c := Ge.crawl a existing_jobs auto_state search).
  set (items := Ge.detail_items a existing_jobs auto_state (Ge.links c)).
  pose proof (ge_fetch_jobs_rows today fromisoformat a fetch_rss_map
                fetch_detail items) as Hspec.
  destruct (Ge.fetch_jobs _ _ _ _ _ items) as [rows|e]; [|done].
  destruct Hspec as [Hsub Hrows].
  assert (items `sublist_of` Ge.links c) as Hitems.
  { unfold items, Ge.detail_items, limit_jobs.
    destruct (0 <? Ge.max_jobs a).
    - etrans; [apply sublist_take|apply sublist_filter].
    - apply sublist_filter. }
  split_and!.
  - eapply sublist_NoDup; [|exact Hsub].
    eapply sublist_NoDup; [|by apply (fmap_sublist url_key)].
    apply (ge_crawl_unique a existing_jobs auto_state search).
  - intros Hmax. apply sublist_length in Hsub. rewrite !length_fmap in Hsub.
    pose proof (limit_jobs_length (Ge.max_jobs a)
                  (filter (λ x, url_key x ∉ Ge.known_urls existing_jobs
                                              auto_state) (Ge.links c)))
      as [_ Hlimit].
    specialize (Hlimit Hmax). unfold items, Ge.detail_items in Hsub. lia.
  - eapply Forall_impl; [exact Hrows|]. simpl.
    intros row (Hurl & Hsource & Hwin & item & Hitem & Hkey & Hne & Hdetail).
    apply (limit_jobs_elem (Ge.max_jobs a)) in Hitem.
    apply list_elem_of_filter in Hitem as [Hnew Hlink].
    split_and!; [by rewrite <- Hkey|by rewrite <- Hkey|done..|].
    by exists item.
Qed.

(** ** The files written *)


(** ** A run without the network *)

Lemma ge_page_failure a existing_jobs auto_state search page rest c :
  request_failed (search page) →
  Ge.paginate a existing_jobs auto_state search (page :: rest) c
  = Ge.request page c.
Proof.
  intros [Hp|(status & text & Hp & Hs)]; simpl; rewrite Hp; [done|].
  by assert ((400 <=? status) = true) as -> by by apply Z.leb_le.
Qed.

Lemma ge_offline_links a existing_jobs auto_state search e :
  get_or_raise (search 1) = Raises e → request_failed (search 2) →
  Ge.links (Ge.crawl a existing_jobs auto_state search) = [].
Proof.
  intros Hbase Hnext. unfold Ge.crawl, Ge.fetch_base_page.
  rewrite Hbase. simpl.
  unfold range. destruct (Z.to_nat (Ge.max_dyn a + 1 - 2)) as [|n] eqn:E.
  - unfold seqZ. rewrite E. done.
  - rewrite seqZ_cons by lia. by rewrite ge_page_failure.
Qed.

(** No page is read in such a run, so nothing can raise in the crawl. *)
Lemma ge_offline_failed a existing_jobs auto_state search e :
  get_or_raise (search 1) = Raises e → request_failed (search 2) →
  Ge.failed (Ge.crawl a existing_jobs auto_state search) = None.
Proof.
  intros Hbase Hnext. unfold Ge.crawl, Ge.fetch_base_page.
  rewrite Hbase. simpl.
  unfold range. destruct (Z.to_nat (Ge.max_dyn a + 1 - 2)) as [|n] eqn:E.
  - unfold seqZ. rewrite E. done.
  - rewrite seqZ_cons by lia. by rewrite ge_page_failure.
Qed.

(** The records of a dataset merged with nothing are records of the
    dataset, up to their ids and sources. *)
Lemma ge_merge_nothing existing_jobs row :
  row ∈ Ge.merge_all existing_jobs [] →
  ∃ old, old ∈ existing_jobs
    ∧ ∀ k, k ≠ "id"%string → k ≠ "source"%string → row !! k = old !! k.
Proof.
  unfold Ge.merge_all, values. rewrite app_nil_r. cbv zeta.
  change (seq (length existing_jobs) (length (@nil record))) with (@nil nat).
  set (h := store_of existing_jobs).
  set (current := seq 0 (length existing_jobs)).
  change (Ge.merge_jobs_by_url h current [])
    with (merge_of ge h current []).
  intros (r & -> & Hr)%list_elem_of_fmap.
  destruct (merge_of_facts ge h current [])
    as [Hsame _ _ _ _ _ Hentry _ _ _ _].
  apply merge_of_out in Hr.
  destruct (Hentry _ _ Hr) as (_ & _ & [Hin|Hin] & _);
    [|by apply elem_of_nil in Hin].
  exists (h !!! r). split.
  - apply store_of_elem. apply elem_of_seq in Hin. lia.
  - intros k Hid Hsource. by apply Hsame.
Qed.



(** * The datasets written *)

(** The records returned by a merge, and any selection of them: one per URL,
    each with a URL and an integer id, each admitted by the gate. *)
Lemma merged_rows s h current fresh rows :
  rows `sublist_of` values (merge_of s h current fresh).1
                           (merge_of s h current fresh).2 →
  NoDup (url_key <$> rows)
  ∧ Forall (λ row, url_key row ≠ [] ∧ is_int (get row "id") = true
                   ∧ gate s row = true) rows.
Proof.
  intros Hsub.
  destruct (merge_of_facts s h current fresh)
    as [Hsame Hperm Hnd Hkeys _ _ Hentry _ _ _ _].
  set (res := merge_of s h current fresh) in *. split.
  - eapply sublist_NoDup; [|by apply (fmap_sublist url_key)].
    unfold values. rewrite <- list_fmap_compose.
    change (url_key ∘ (λ row, res.1 !!! row)) with (key_of res.1).
    rewrite Hperm, <- Hkeys. exact Hnd.
  - apply Forall_forall. intros row Hrow.
    apply (sublist_subseteq _ _ Hsub) in Hrow.
    apply list_elem_of_fmap in Hrow as (r & -> & Hr).
    apply merge_of_out in Hr.
    destruct (Hentry _ _ Hr) as (_ & Hne & _ & n & Hn).
    unfold url_map in Hr.
    rewrite (merge_overlay_get _ (gate_stable s)) in Hr.
    apply (touch_fold_last (gate s)) in Hr as [(_ & _ & _ & [_ Hgate] & _) _].
    split_and!.
    + change (url_key (res.1 !!! r)) with (key_of res.1 r).
      by rewrite (same_but_ids_key _ _ r Hsame).
    + apply is_int_spec. by exists n.
    + rewrite <- Hgate. apply gate_stable. intros k ??. by apply Hsame.
Qed.

Lemma output_save_output seen rows kept :
  output_json (save_output seen rows) = Some kept → rows = Returns kept.
Proof. destruct rows; simpl; [by intros [= ->]|done]. Qed.

(** X26: the dataset a run of any of the four scrapers writes holds at most
    one record per URL, and every record in it has a URL that is not blank
    and an integer id. In jobup, jobroom and ge every record written lies
    within the date window; in talent every record written passes the
    language filter unless --allow-non-french is given. *)
Theorem dataset_one_record_per_url :
  (∀ today fromisoformat (a : Jobup.args) existing_jobs auto_state
     master_jobs_file state search detail rows,
     output_json (Jobup.main today fromisoformat a existing_jobs auto_state
                    master_jobs_file state search detail) = Some rows →
     NoDup (url_key <$> rows)
     ∧ Forall (λ row,
         url_key row ≠ [] ∧ is_int (get row "id") = true
         ∧ within_days today fromisoformat (get row "posting_date")
             (max_days_of (Jobup.days a)) = Returns true) rows)
  ∧ (∀ today fromisoformat (a : Jobroom.args) existing_jobs auto_state
       search fuel w rows,
     Jobroom.main today fromisoformat a existing_jobs auto_state search fuel
     = Some w →
     output_json w = Some rows →
     NoDup (url_key <$> rows)
     ∧ Forall (λ row,
         url_key row ≠ [] ∧ is_int (get row "id") = true
         ∧ within_days today fromisoformat (get row "posting_date")
             (max_days_of (Jobroom.days a)) = Returns true) rows)
  ∧ (∀ today fromisoformat (a : Ge.args) existing_jobs auto_state
       fetch_rss_map search fetch_detail rows,
     output_json (Ge.main today fromisoformat a existing_jobs auto_state
                    fetch_rss_map search fetch_detail) = Some rows →
     NoDup (url_key <$> rows)
     ∧ Forall (λ row,
         url_key row ≠ [] ∧ is_int (get row "id") = true
         ∧ within_days today fromisoformat (get row "posting_date")
             (max_days_of (Ge.days a)) = Returns true) rows)
  ∧ (∀ today fromisoformat (a : Talent.args) existing_jobs auto_state
       search detail rows,
     output_json (Talent.main today fromisoformat a existing_jobs auto_state
                    search detail) = Some rows →
     NoDup (url_key <$> rows)
     ∧ Forall (λ row,
         url_key row ≠ [] ∧ is_int (get row "id") = true
         ∧ Talent.keep (negb (Talent.allow_non_french a)) row = true) rows).
Proof.
  assert (∀ today fromisoformat s h current fresh max_days rows,
    filter_within today fromisoformat
      (values (merge_of s h current fresh).1 (merge_of s h current fresh).2)
      max_days = Returns rows →
    NoDup (url_key <$> rows)
    ∧ Forall (λ row,
        url_key row ≠ [] ∧ is_int (get row "id") = true
        ∧ within_days today fromisoformat (get row "posting_date") max_days
          = Returns true) rows) as Hfiltered.
  { intros today fromisoformat s h current fresh max_days rows Hfilter.
    destruct (merged_rows s h current fresh rows) as [Hnd Hrows].
    { by eapply filter_within_sublist. }
    split; [done|].
    pose proof (filter_within_kept _ _ _ _ _ Hfilter) as Hkept.
    apply Forall_forall. intros row Hrow.
    eapply Forall_forall in Hrows as (? & ? & _); [|done].
    eapply Forall_forall in Hkept; [|done]. done. }
  split_and!.
  - intros today fromisoformat a existing_jobs auto_state master_jobs_file
      state search detail rows Hout.
    unfold Jobup.main in Hout.
    destruct (failed (Jobup.crawl _ _ _ _ _ _)); [done|].
    unfold Jobup.persist in Hout.
    apply output_save_output in Hout.
    unfold Jobup.merge_all in Hout.
    destruct (Jobup.incremental a); by apply (Hfiltered _ _ jobup) in Hout.
  - intros today fromisoformat a existing_jobs auto_state search fuel w rows
      Hmain Hout.
    unfold Jobroom.main in Hmain.
    destruct (Jobroom.crawl _ _ _ _ _ _ _) as [[c|e]|]; [| |done];
      injection Hmain as <-; [|done].
    unfold Jobroom.persist in Hout.
    destruct (filter_within _ _ _ _) as [kept|e] eqn:Hfilter; [|done].
    injection Hout as ->. by apply (Hfiltered _ _ jobroom) in Hfilter.
  - intros today fromisoformat a existing_jobs auto_state fetch_rss_map
      search fetch_detail rows Hout.
    unfold Ge.main in Hout.
    destruct (Ge.failed (Ge.crawl _ _ _ _)); [done|].
    destruct (Ge.fetch_jobs _ _ _ _ _ _) as [fresh_jobs|e]; [|done].
    unfold Ge.persist, Ge.merge_all in Hout.
    destruct (filter_within _ _ _ _) as [kept|e] eqn:Hfilter; [|done].
    injection Hout as ->. by apply (Hfiltered _ _ ge) in Hfilter.
  - intros today fromisoformat a existing_jobs auto_state search detail rows
      Hout.
    unfold Talent.main in Hout.
    destruct (Talent.crawl _ _ _ _) as [c|e]; [|done].
    destruct (Talent.fetch_jobs _ _ _ _ _) as [fresh_jobs|e]; [|done].
    unfold Talent.persist in Hout. injection Hout as <-.
    by apply (merged_rows (talent (negb (Talent.allow_non_french a)))
                (store_of (existing_jobs ++ fresh_jobs))
                (seq 0 (length existing_jobs))
                (seq (length existing_jobs) (length fresh_jobs))).
Qed.

(** * What talent keeps *)

